(** * Literacy-poster generator: prompt templating, theme catalog,
      conversation flow and remote job client.

    Shallow embedding of [js/modules/business.js] (ConversationManager,
    VocabularyGenerator, PromptGenerator, ImageGenerationManager,
    BusinessController) and of [js/modules/api.js] (KieAIClient,
    APIManager), followed by the properties established about them.

    Conventions.  A JavaScript string is a [string]; text outside ASCII is
    carried by its UTF-8 bytes, on which equality, concatenation,
    [includes] and literal-pattern replacement agree with the UTF-16
    operations for well-formed text.  [null] and [undefined] where a value
    may be missing are [None].  Numbers that count (attempts, milliseconds)
    are [nat], other integers [Z].  A rejected promise or a thrown
    exception is the [Throw] outcome of the state-and-error monad [M];
    [await] is sequencing.  [console.*] output is not modelled. *)

From Stdlib Require Import String Ascii List ZArith NArith Lia Bool Arith.
From Stdlib Require Import DecimalString Sorted Permutation.
From Stdlib Require DecimalPos DecimalZ Finite.
Set Warnings "-register-all".
Import ListNotations.
Open Scope string_scope.

(* ================================================================= *)
(** ** JavaScript string operations used by the program *)

Module JSString.

(** [p] truthy as a string: non-empty. *)
Definition truthy (s : string) : bool :=
  match s with EmptyString => false | _ => true end.

(** [a || b] on a possibly missing string with a string default. *)
Definition or_default (a : option string) (b : string) : string :=
  match a with
  | Some s => if truthy s then s else b
  | None => b
  end.

(** [s.startsWith(p)]. *)
Definition startsWith (s p : string) : bool := String.prefix p s.

(** [s.includes(p)]: [p] occurs in [s] at some offset. *)
Fixpoint includes (s p : string) : bool :=
  startsWith s p
  || match s with
     | EmptyString => false
     | String _ s' => includes s' p
     end.

(** Number of offsets of [s] at which [p] occurs. *)
Fixpoint count_sites (p s : string) : nat :=
  (if startsWith s p then 1 else 0)
  + match s with
    | EmptyString => 0
    | String _ s' => count_sites p s'
    end.

(** [s.substring(n)]. *)
Definition substring_from (n : nat) (s : string) : string :=
  substring n (String.length s - n) s.

(** ECMAScript [GetSubstitution] for a match without capture groups:
    [$$] is a dollar sign, [$&] the matched text, [$`] the text before
    the match, [$'] the text after it; [$n] and [$<] have nothing to
    refer to and stay as written, like every other character. *)
Fixpoint GetSubstitution (matched str : string) (position : nat)
         (replacement : string) : string :=
  match replacement with
  | EmptyString => EmptyString
  | String c rest =>
      if Ascii.eqb c "$" then
        match rest with
        | EmptyString => String c EmptyString
        | String d rest' =>
            if Ascii.eqb d "$" then
              String "$" (GetSubstitution matched str position rest')
            else if Ascii.eqb d "&" then
              matched ++ GetSubstitution matched str position rest'
            else if Ascii.eqb d "`" then
              substring 0 position str
              ++ GetSubstitution matched str position rest'
            else if Ascii.eqb d "'" then
              substring_from (position + String.length matched) str
              ++ GetSubstitution matched str position rest'
            else String c (GetSubstitution matched str position rest)
        end
      else String c (GetSubstitution matched str position rest)
  end.

(** Scan of [str.replace(/pat/g, replacement)] for a literal, non-empty
    pattern: [s] is what remains of [str] from offset [pos], [skip] the
    number of characters of the current match still to pass over.
    Matches are found left to right and do not overlap; substituted text
    is not scanned again. *)
Fixpoint replace_scan (pat replacement str : string) (skip pos : nat)
         (s : string) : string :=
  match s with
  | EmptyString => EmptyString
  | String c s' =>
      match skip with
      | S k => replace_scan pat replacement str k (S pos) s'
      | O =>
          if startsWith s pat then
            GetSubstitution pat str pos replacement
            ++ replace_scan pat replacement str (String.length pat - 1) (S pos) s'
          else String c (replace_scan pat replacement str 0 (S pos) s')
      end
  end.

(** [str.replace(/pat/g, replacement)], [pat] a literal non-empty text. *)
Definition replace_g (pat replacement str : string) : string :=
  replace_scan pat replacement str 0 0 str.

(** [list.join(sep)]. *)
Definition join (sep : string) (l : list string) : string :=
  String.concat sep l.

End JSString.

(* ================================================================= *)
(** ** Plain objects and their enumeration order *)

Module JSObject.

(** Own enumerable string-keyed properties in creation order; keys are
    pairwise distinct. *)
Definition t (A : Type) : Type := list (string * A).

Definition digit_of (c : ascii) : option N :=
  let n := N_of_ascii c in
  if ((48 <=? n) && (n <=? 57))%N then Some (n - 48)%N else None.

Fixpoint digits_value (acc : N) (s : string) : option N :=
  match s with
  | EmptyString => Some acc
  | String c s' =>
      match digit_of c with
      | Some d => digits_value (acc * 10 + d)%N s'
      | None => None
      end
  end.

(** A key is an array index when it is the canonical decimal text of an
    integer between 0 and 2^32 - 2. *)
Definition array_index (k : string) : option N :=
  match k with
  | EmptyString => None
  | String "0" EmptyString => Some 0%N
  | String "0" _ => None
  | _ =>
      match digits_value 0 k with
      | Some n => if (n <=? 4294967294)%N then Some n else None
      | None => None
      end
  end.

Fixpoint insert_by_index {A} (i : N) (kv : string * A)
         (l : list (N * (string * A))) : list (N * (string * A)) :=
  match l with
  | [] => [(i, kv)]
  | (j, kv') :: l' =>
      if (i <? j)%N then (i, kv) :: l
      else (j, kv') :: insert_by_index i kv l'
  end.

Fixpoint index_keys {A} (o : t A) : list (N * (string * A)) :=
  match o with
  | [] => []
  | kv :: o' =>
      match array_index (fst kv) with
      | Some i => insert_by_index i kv (index_keys o')
      | None => index_keys o'
      end
  end.

Fixpoint name_keys {A} (o : t A) : list (string * A) :=
  match o with
  | [] => []
  | kv :: o' =>
      match array_index (fst kv) with
      | Some _ => name_keys o'
      | None => kv :: name_keys o'
      end
  end.

(** [Object.entries(o)]: array-index keys in ascending numeric order,
    then the other keys in creation order. *)
Definition entries {A} (o : t A) : list (string * A) :=
  map snd (index_keys o) ++ name_keys o.

End JSObject.

(* ================================================================= *)
(** ** Exceptions and the state-and-error monad *)

Inductive JSError : Type :=
| Error (message : string)
| TypeError (message : string)
| SyntaxError (message : string)
| DOMException (name message : string).

(** Result of running a method: a value, an exception (a rejected promise
    for an [async] method), or [OutOfFuel] when a loop of the model was
    given too few iterations. *)
Inductive Outcome (A : Type) : Type :=
| Return (a : A)
| Throw (e : JSError)
| OutOfFuel.
Arguments Return {A} a.
Arguments Throw {A} e.
Arguments OutOfFuel {A}.

Definition M (S A : Type) : Type := S -> Outcome A * S.

Definition ret {S A} (a : A) : M S A := fun s => (Return a, s).

Definition throw {S A} (e : JSError) : M S A := fun s => (Throw e, s).

Definition bind {S A B} (m : M S A) (k : A -> M S B) : M S B :=
  fun s =>
    match m s with
    | (Return a, s') => k a s'
    | (Throw e, s') => (Throw e, s')
    | (OutOfFuel, s') => (OutOfFuel, s')
    end.

(** [try { m } catch (error) { handler error }]. *)
Definition try_catch {S A} (m : M S A) (handler : JSError -> M S A) : M S A :=
  fun s =>
    match m s with
    | (Throw e, s') => handler e s'
    | r => r
    end.

(** The current state. *)
Definition current {S} : M S S := fun s => (Return s, s).

Definition modify {S} (f : S -> S) : M S unit := fun s => (Return tt, f s).

Declare Scope js_scope.
Delimit Scope js_scope with js.
Notation "x <- m ;; k" := (bind m (fun x => k))
  (at level 61, m at next level, right associativity) : js_scope.
Notation "m ;;; k" := (bind m (fun _ => k))
  (at level 61, right associativity) : js_scope.
Open Scope js_scope.

(* ================================================================= *)
(** ** business.js *)

Module Business.
Import JSString.

(** *** Catalog data *)

Record VocabEntry : Type := { pinyin : string; chinese : string }.

(** The [vocabularies] object of a theme; a category may be missing. *)
Record Vocabularies : Type := {
  characters : option (list VocabEntry);
  items : option (list VocabEntry);
  animals : option (list VocabEntry);
  facilities : option (list VocabEntry);
  environment : option (list VocabEntry)
}.

Record Theme : Type := {
  name : string;
  icon : option string;
  titles : list string;
  vocabularies : Vocabularies
}.

Definition Catalog : Type := JSObject.t Theme.

Definition entry (p c : string) : VocabEntry := {| pinyin := p; chinese := c |}.

(** *** VocabularyGenerator *)

(** [themes] is [null] until [loadThemes] has settled. *)
Record VocabularyGenerator : Type := { themes : option Catalog }.

Definition getDefaultThemes : Catalog :=
  [ ("超市",
     {| name := "超市";
        icon := None;
        titles := ["走进超市"; "快乐购物"; "超市探险"];
        vocabularies :=
          {| characters := Some [entry "shōu yín yuán" "收银员"; entry "gù kè" "顾客"];
             items := Some [entry "píng guǒ" "苹果"; entry "niú nǎi" "牛奶"];
             animals := None;
             facilities := Some [entry "huò jià" "货架"];
             environment := Some [entry "zhāo pái" "招牌"] |} |}) ].

(** The constructor returns before the fetch started by [loadThemes]
    can settle. *)
Definition new_VocabularyGenerator : VocabularyGenerator := {| themes := None |}.

(** What [fetch('./data/themes.json')] and [response.json()] gave: a
    failure, or a document with its [themes] member, if any. *)
Inductive Fetched : Type :=
| FetchFailed
| Document (themes_member : option Catalog).

(** [loadThemes] once settled. *)
Definition loadThemes (fetched : Fetched) (vg : VocabularyGenerator)
  : VocabularyGenerator :=
  match fetched with
  | Document data_themes => {| themes := data_themes |}
  | FetchFailed => {| themes := Some getDefaultThemes |}
  end.

(** First loop of [getThemeByName]: [theme.name === themeName]. *)
Fixpoint find_exact (es : list (string * Theme)) (themeName : string)
  : option Theme :=
  match es with
  | [] => None
  | (_, theme) :: rest =>
      if String.eqb (name theme) themeName then Some theme
      else find_exact rest themeName
  end.

(** Second loop of [getThemeByName]. *)
Fixpoint find_fuzzy (es : list (string * Theme)) (themeName : string)
  : option Theme :=
  match es with
  | [] => None
  | (_, theme) :: rest =>
      if includes (name theme) themeName || includes themeName (name theme)
      then Some theme
      else find_fuzzy rest themeName
  end.

Definition getThemeByName (vg : VocabularyGenerator) (themeName : string)
  : option Theme :=
  match themes vg with
  | None => None
  | Some ths =>
      match find_exact (JSObject.entries ths) themeName with
      | Some theme => Some theme
      | None => find_fuzzy (JSObject.entries ths) themeName
      end
  end.

Definition generateDynamicVocabulary (theme : string) : Vocabularies :=
  {| characters := Some [entry "rén" "人"; entry "hái zi" "孩子"];
     items := Some [entry "wù pǐn" "物品"; entry "wán jù" "玩具"];
     animals := None;
     facilities := Some [entry "shè shī" "设施"];
     environment := Some [entry "huán jìng" "环境"] |}.

Definition generateVocabulary (vg : VocabularyGenerator) (theme : string)
  : Vocabularies :=
  match getThemeByName vg theme with
  | Some themeData => vocabularies themeData
  | None => generateDynamicVocabulary theme
  end.

(** *** PromptGenerator *)

Definition ph_theme : string := "{{主题/场景}}".
Definition ph_title : string := "{{标题}}".
Definition ph_characters : string := "{{核心角色与设施}}".
Definition ph_items : string := "{{常见物品工具}}".
Definition ph_environment : string := "{{环境与装饰}}".

Definition template : string := "请生成一张儿童识字小报《{{主题/场景}}》，竖版 A4，学习小报版式，适合 5–9 岁孩子 认字与看图识物。

# 一、小报标题区（顶部）

**顶部居中大标题**：《{{标题}}》
* **风格**：十字小报 / 儿童学习报感
* **文本要求**：大字、醒目、卡通手写体、彩色描边
* **装饰**：周围添加与 {{主题/场景}} 相关的贴纸风装饰，颜色鲜艳

# 二、小报主体（中间主画面）

画面中心是一幅 **卡通插画风的「{{主题/场景}}」场景**：
* **整体气氛**：明亮、温暖、积极
* **构图**：物体边界清晰，方便对应文字，不要过于拥挤。

**场景分区与核心内容**
1.  **核心区域 A（主要对象）**：表现 {{主题/场景}} 的核心活动。
2.  **核心区域 B（配套设施）**：展示相关的工具或物品。
3.  **核心区域 C（环境背景）**：体现环境特征（如墙面、指示牌等）。

**主题人物**
* **角色**：1 位可爱卡通人物（职业/身份：与 {{主题/场景}} 匹配）。
* **动作**：正在进行与场景相关的自然互动。

# 三、必画物体与识字清单（Generated Content）

**请务必在画面中清晰绘制以下物体，并为其预留贴标签的位置：**

**1. 核心角色与设施：**
{{核心角色与设施}}

**2. 常见物品/工具：**
{{常见物品工具}}

**3. 环境与装饰：**
{{环境与装饰}}

*(注意：画面中的物体数量不限于此，但以上列表必须作为重点描绘对象)*

# 四、识字标注规则

对上述清单中的物体，贴上中文识字标签：
* **格式**：两行制（第一行拼音带声调，第二行简体汉字）。
* **样式**：彩色小贴纸风格，白底黑字或深色字，清晰可读。
* **排版**：标签靠近对应的物体，不遮挡主体。

# 五、画风参数
* **风格**：儿童绘本风 + 识字小报风
* **色彩**：高饱和、明快、温暖 (High Saturation, Warm Tone)
* **质量**：8k resolution, high detail, vector illustration style, clean lines.".

Record PromptGenerator : Type := {
  vocabularyGenerator : VocabularyGenerator;
  pg_template : string
}.

Definition new_PromptGenerator : PromptGenerator :=
  {| vocabularyGenerator := new_VocabularyGenerator; pg_template := template |}.

Record FormattedVocabs : Type := {
  f_characters : string;
  f_items : string;
  f_environment : string
}.

Definition formatList (list : list VocabEntry) : string :=
  join ", " (map (fun item => pinyin item ++ " " ++ chinese item) list).

(** [a || []] and [a || b || []] on arrays: an array, even empty, is
    truthy. *)
Definition or_empty (a : option (list VocabEntry)) : list VocabEntry :=
  match a with Some l => l | None => [] end.

Definition formatVocabularies (v : Vocabularies) : FormattedVocabs :=
  {| f_characters := formatList (or_empty (characters v));
     f_items :=
       formatList (match items v with
                   | Some l => l
                   | None => or_empty (animals v)
                   end);
     f_environment :=
       formatList (or_empty (facilities v) ++ or_empty (environment v)) |}.

Definition generatePrompt (pg : PromptGenerator) (theme title : string)
  : string :=
  let vocabs := generateVocabulary (vocabularyGenerator pg) theme in
  let formattedVocabs := formatVocabularies vocabs in
  replace_g ph_environment (f_environment formattedVocabs)
    (replace_g ph_items (f_items formattedVocabs)
       (replace_g ph_characters (f_characters formattedVocabs)
          (replace_g ph_title title
             (replace_g ph_theme theme (pg_template pg))))).

(** *** ConversationManager *)

Inductive ConversationState : Type :=
| IDLE | ASKING_THEME | ASKING_TITLE | GENERATING.

Inductive MessageType : Type := system | user | ai.

(** A message as handed to [addMessage]. *)
Record MessageInit : Type := {
  mi_type : MessageType;
  mi_content : string;
  mi_prompt : option string
}.

(** A message as stored: the fields handed in, then [id] and
    [timestamp]. *)
Record Message : Type := {
  m_type : MessageType;
  m_content : string;
  m_prompt : option string;
  id : string;
  timestamp : Z
}.

Record ConversationManager : Type := {
  state : ConversationState;
  currentTheme : option string;
  currentTitle : option string;
  messages : list Message
}.

Definition new_ConversationManager : ConversationManager :=
  {| state := IDLE; currentTheme := None; currentTitle := None; messages := [] |}.

(** The manager together with the host clock: [clock k] is what the
    [k]-th call of [Date.now()] returns, [reads] counts the calls made. *)
Record World : Type := {
  this : ConversationManager;
  clock : nat -> Z;
  reads : nat
}.

Definition Date_now : M World Z :=
  fun w =>
    (Return (clock w (reads w)),
     {| this := this w; clock := clock w; reads := S (reads w) |}).

(** [n.toString()] for an integer of magnitude below 10^21, as the
    readings of the clock are. *)
Definition Number_toString (n : Z) : string :=
  NilZero.string_of_int (Z.to_int n).

Definition update (f : ConversationManager -> ConversationManager)
  : M World unit :=
  modify (fun w => {| this := f (this w); clock := clock w; reads := reads w |}).

Definition set_state (s : ConversationState) : M World unit :=
  update (fun cm =>
    {| state := s; currentTheme := currentTheme cm;
       currentTitle := currentTitle cm; messages := messages cm |}).

Definition set_currentTheme (t : option string) : M World unit :=
  update (fun cm =>
    {| state := state cm; currentTheme := t;
       currentTitle := currentTitle cm; messages := messages cm |}).

Definition set_currentTitle (t : option string) : M World unit :=
  update (fun cm =>
    {| state := state cm; currentTheme := currentTheme cm;
       currentTitle := t; messages := messages cm |}).

Definition set_messages (l : list Message) : M World unit :=
  update (fun cm =>
    {| state := state cm; currentTheme := currentTheme cm;
       currentTitle := currentTitle cm; messages := l |}).

(** [this.messages.push({...message, id: Date.now().toString(),
    timestamp: Date.now()})]. *)
Definition addMessage (message : MessageInit) : M World unit :=
  i <- Date_now ;;
  t <- Date_now ;;
  w <- current ;;
  set_messages
    (messages (this w)
     ++ [ {| m_type := mi_type message;
             m_content := mi_content message;
             m_prompt := mi_prompt message;
             id := Number_toString i;
             timestamp := t |} ]).

Record StartResult : Type := {
  sr_state : ConversationState;
  sr_message : option Message
}.

Definition startConversation : M World StartResult :=
  set_state ASKING_THEME ;;;
  set_currentTheme None ;;;
  set_currentTitle None ;;;
  set_messages [] ;;;
  addMessage
    {| mi_type := system;
       mi_content := "请问这期儿童识字小报的主题/场景是什么？（如：超市、医院、公园）";
       mi_prompt := None |} ;;;
  w <- current ;;
  ret {| sr_state := state (this w); sr_message := hd_error (messages (this w)) |}.

Record InputResult : Type := {
  r_state : ConversationState;
  r_message : MessageInit;
  r_nextStep : option string;
  r_prompt : option string;
  r_theme : option string;
  r_title : option string
}.

(** A possibly [null] field used where a string is expected by
    [String.prototype.replace]. *)
Definition as_text (o : option string) : string :=
  match o with Some s => s | None => "null" end.

(** The [PromptGenerator] built in the [ASKING_TITLE] case is new: its
    catalog download has not settled when [generatePrompt] looks the
    theme up. *)
Definition handleUserInput (input : string) : M World InputResult :=
  addMessage {| mi_type := user; mi_content := input; mi_prompt := None |} ;;;
  w <- current ;;
  match state (this w) with
  | ASKING_THEME =>
      set_currentTheme (Some input) ;;;
      set_state ASKING_TITLE ;;;
      let titleMessage :=
        {| mi_type := system;
           mi_content := "请问小报的大标题是什么？（如：《走进超市》《快乐医院》）";
           mi_prompt := None |} in
      addMessage titleMessage ;;;
      w' <- current ;;
      ret {| r_state := state (this w');
             r_message := titleMessage;
             r_nextStep := Some "title";
             r_prompt := None; r_theme := None; r_title := None |}
  | ASKING_TITLE =>
      set_currentTitle (Some input) ;;;
      set_state GENERATING ;;;
      w1 <- current ;;
      let promptGenerator := new_PromptGenerator in
      let prompt :=
        generatePrompt promptGenerator
          (as_text (currentTheme (this w1)))
          (as_text (currentTitle (this w1))) in
      let promptMessage :=
        {| mi_type := ai;
           mi_content := "提示词已生成，正在生成小报图片...";
           mi_prompt := Some prompt |} in
      addMessage promptMessage ;;;
      w' <- current ;;
      ret {| r_state := state (this w');
             r_message := promptMessage;
             r_nextStep := None;
             r_prompt := Some prompt;
             r_theme := currentTheme (this w');
             r_title := currentTitle (this w') |}
  | _ => throw (Error "Invalid conversation state")
  end.

Definition getMessages : M World (list Message) :=
  w <- current ;; ret (messages (this w)).

Definition reset : M World unit :=
  set_state IDLE ;;;
  set_currentTheme None ;;;
  set_currentTitle None ;;;
  set_messages [].

End Business.

(* ================================================================= *)
(** ** Host functions used by api.js: [atob] and [JSON.parse] *)

Module Base64.

Definition is_space (c : ascii) : bool :=
  let n := N_of_ascii c in
  ((n =? 9) || (n =? 10) || (n =? 12) || (n =? 13) || (n =? 32))%N.

Definition sextet (c : ascii) : option N :=
  let n := N_of_ascii c in
  if ((65 <=? n) && (n <=? 90))%N then Some (n - 65)%N
  else if ((97 <=? n) && (n <=? 122))%N then Some (n - 71)%N
  else if ((48 <=? n) && (n <=? 57))%N then Some (n + 4)%N
  else if (n =? 43)%N then Some 62%N
  else if (n =? 47)%N then Some 63%N
  else None.

Definition byte (n : N) : ascii := ascii_of_N (n mod 256).

(** Groups of four sextets give three bytes; a final group of three
    gives two bytes, of two gives one; a single leftover is an error. *)
Fixpoint decode (l : list ascii) : option (list ascii) :=
  match l with
  | [] => Some []
  | [a; b] =>
      match sextet a, sextet b with
      | Some x, Some y => Some [byte ((x * 64 + y) / 16)]
      | _, _ => None
      end
  | [a; b; c] =>
      match sextet a, sextet b, sextet c with
      | Some x, Some y, Some z =>
          let n := ((x * 64 + y) * 64 + z)%N in
          Some [byte (n / 1024); byte (n / 4)]
      | _, _, _ => None
      end
  | a :: b :: c :: d :: rest =>
      match sextet a, sextet b, sextet c, sextet d, decode rest with
      | Some x, Some y, Some z, Some u, Some out =>
          let n := (((x * 64 + y) * 64 + z) * 64 + u)%N in
          Some (byte (n / 65536) :: byte (n / 256) :: byte n :: out)
      | _, _, _, _, _ => None
      end
  | _ => None
  end.

Definition is_pad (c : ascii) : bool := (N_of_ascii c =? 61)%N.

(** Padding removal of the forgiving decoder: only when the length is a
    multiple of four, at most two trailing [=]. *)
Definition strip_padding (l : list ascii) : list ascii :=
  if (List.length l mod 4 =? 0)%nat then
    match rev l with
    | p :: q :: r =>
        if is_pad p then if is_pad q then rev r else rev (q :: r) else l
    | _ => l
    end
  else l.

(** A decoded byte as a character of the result, the one whose code is
    the byte (U+0000 to U+00FF): in UTF-8 a code below 0x80 is the byte
    itself and a code from 0x80 up takes two bytes. *)
Definition character (b : ascii) : list ascii :=
  let n := N_of_ascii b in
  if (n <? 128)%N then [b]
  else [ascii_of_N (192 + n / 64); ascii_of_N (128 + n mod 64)]%N.

(** [atob(s)]; [None] when it throws [InvalidCharacterError]. *)
Definition atob (s : string) : option string :=
  let l := filter (fun c => negb (is_space c)) (list_ascii_of_string s) in
  option_map (fun out => string_of_list_ascii (flat_map character out))
             (decode (strip_padding l)).

End Base64.

Module JSON.

(** A decimal numeral [(-1)^negative * mantissa * 10^exponent]. *)
Record numeral : Type := { negative : bool; mantissa : N; exponent : Z }.

Inductive value : Type :=
| Undefined
| Null
| Bool (b : bool)
| Number (n : numeral)
| Str (s : string)
| Array (l : list value)
| Object (members : list (string * value)).

(** The number a numeral denotes is [0] or [-0] when its magnitude is at
    most [2^-1075], half the least positive double. *)
Definition is_zero (n : numeral) : bool :=
  if (mantissa n =? 0)%N then true
  else if (0 <=? exponent n)%Z then false
  else (Z.of_N (mantissa n) * 2 ^ 1075 <=? 10 ^ (- exponent n))%Z.

(** Truthiness, as tested by [!v]. *)
Definition truthy (v : value) : bool :=
  match v with
  | Undefined | Null => false
  | Bool b => b
  | Number n => negb (is_zero n)
  | Str s => JSString.truthy s
  | Array _ | Object _ => true
  end.

(** *** Tokens *)

Inductive token : Type :=
| TLBrace | TRBrace | TLBracket | TRBracket | TColon | TComma
| TAtom (v : value).

(** Content of a string literal while it is read: a byte of the text, or
    the code unit of a [\uXXXX] escape. *)
Inductive piece : Type :=
| Byte (c : ascii)
| Unit (u : N).

Inductive escape : Type :=
| ENone
| EBackslash
| EHex (digits : list N).

Inductive num_state : Type :=
| NMinus | NZero | NInt | NDot | NFrac | NExp | NExpSign | NExpDigits.

Record num_acc : Type := {
  a_negative : bool;
  a_mantissa : N;
  a_fraction : Z;
  a_exp_negative : bool;
  a_exp : N
}.

Inductive lex_state : Type :=
| LIdle
| LWord (expected : string) (v : value)
| LString (acc : list piece) (e : escape)
| LNumber (st : num_state) (a : num_acc).

Definition utf8 (cp : N) : list ascii :=
  let b := ascii_of_N in
  if (cp <? 128)%N then [b cp]
  else if (cp <? 2048)%N then [b (192 + cp / 64); b (128 + cp mod 64)]%N
  else if (cp <? 65536)%N then
    [b (224 + cp / 4096); b (128 + (cp / 64) mod 64); b (128 + cp mod 64)]%N
  else
    [b (240 + cp / 262144); b (128 + (cp / 4096) mod 64);
     b (128 + (cp / 64) mod 64); b (128 + cp mod 64)]%N.

Definition is_high (u : N) : bool := ((55296 <=? u) && (u <=? 56319))%N.
Definition is_low (u : N) : bool := ((56320 <=? u) && (u <=? 57343))%N.

(** Text of a string literal: a high surrogate escape directly followed
    by a low surrogate escape is one code point. *)
Fixpoint text_of (l : list piece) : list ascii :=
  match l with
  | [] => []
  | Byte c :: l' => c :: text_of l'
  | Unit h :: l' =>
      match l' with
      | Unit lo :: l'' =>
          if is_high h && is_low lo then
            utf8 (65536 + (h - 55296) * 1024 + (lo - 56320))%N ++ text_of l''
          else utf8 h ++ text_of l'
      | _ => utf8 h ++ text_of l'
      end
  end.

Definition hex_digit (c : ascii) : option N :=
  let n := N_of_ascii c in
  if ((48 <=? n) && (n <=? 57))%N then Some (n - 48)%N
  else if ((65 <=? n) && (n <=? 70))%N then Some (n - 55)%N
  else if ((97 <=? n) && (n <=? 102))%N then Some (n - 87)%N
  else None.

Definition simple_escape (c : ascii) : option ascii :=
  let n := N_of_ascii c in
  if (n =? 34)%N then Some c                      (* quotation mark *)
  else if (n =? 92)%N then Some c                 (* reverse solidus *)
  else if (n =? 47)%N then Some c                 (* solidus *)
  else if (n =? 98)%N then Some (ascii_of_N 8)    (* backspace *)
  else if (n =? 102)%N then Some (ascii_of_N 12)  (* form feed *)
  else if (n =? 110)%N then Some (ascii_of_N 10)  (* line feed *)
  else if (n =? 114)%N then Some (ascii_of_N 13)  (* carriage return *)
  else if (n =? 116)%N then Some (ascii_of_N 9)   (* tab *)
  else None.

Definition number_of (a : num_acc) : value :=
  Number {| negative := a_negative a;
            mantissa := a_mantissa a;
            exponent :=
              ((if a_exp_negative a then - Z.of_N (a_exp a) else Z.of_N (a_exp a))
               - a_fraction a)%Z |}.

Definition accepting (st : num_state) : bool :=
  match st with
  | NZero | NInt | NFrac | NExpDigits => true
  | _ => false
  end.

Definition start_acc (neg : bool) (m : N) : num_acc :=
  {| a_negative := neg; a_mantissa := m; a_fraction := 0;
     a_exp_negative := false; a_exp := 0 |}.

(** A character met between tokens. *)
Definition lex_idle (c : ascii) : option (lex_state * list token) :=
  let n := N_of_ascii c in
  if ((n =? 9) || (n =? 10) || (n =? 13) || (n =? 32))%N then Some (LIdle, [])
  else if (n =? 123)%N then Some (LIdle, [TLBrace])
  else if (n =? 125)%N then Some (LIdle, [TRBrace])
  else if (n =? 91)%N then Some (LIdle, [TLBracket])
  else if (n =? 93)%N then Some (LIdle, [TRBracket])
  else if (n =? 58)%N then Some (LIdle, [TColon])
  else if (n =? 44)%N then Some (LIdle, [TComma])
  else if (n =? 34)%N then Some (LString [] ENone, [])
  else if (n =? 45)%N then Some (LNumber NMinus (start_acc true 0), [])
  else if (n =? 48)%N then Some (LNumber NZero (start_acc false 0), [])
  else if ((49 <=? n) && (n <=? 57))%N then
    Some (LNumber NInt (start_acc false (n - 48)), [])
  else if (n =? 110)%N then Some (LWord "ull" Null, [])
  else if (n =? 116)%N then Some (LWord "rue" (Bool true), [])
  else if (n =? 102)%N then Some (LWord "alse" (Bool false), [])
  else None.

(** A character met inside a number: the next state, or [None] when the
    character does not continue the number. *)
Definition lex_number (st : num_state) (a : num_acc) (c : ascii)
  : option (num_state * num_acc) :=
  let n := N_of_ascii c in
  let digit := ((48 <=? n) && (n <=? 57))%N in
  let d := (n - 48)%N in
  let is_e := ((n =? 101) || (n =? 69))%N in
  let int_digit :=
    {| a_negative := a_negative a; a_mantissa := a_mantissa a * 10 + d;
       a_fraction := a_fraction a;
       a_exp_negative := a_exp_negative a; a_exp := a_exp a |} in
  let frac_digit :=
    {| a_negative := a_negative a; a_mantissa := a_mantissa a * 10 + d;
       a_fraction := a_fraction a + 1;
       a_exp_negative := a_exp_negative a; a_exp := a_exp a |} in
  let exp_digit :=
    {| a_negative := a_negative a; a_mantissa := a_mantissa a;
       a_fraction := a_fraction a;
       a_exp_negative := a_exp_negative a; a_exp := a_exp a * 10 + d |} in
  let exp_minus :=
    {| a_negative := a_negative a; a_mantissa := a_mantissa a;
       a_fraction := a_fraction a;
       a_exp_negative := true; a_exp := a_exp a |} in
  match st with
  | NMinus =>
      if (n =? 48)%N then Some (NZero, a)
      else if digit then Some (NInt, int_digit) else None
  | NZero =>
      if (n =? 46)%N then Some (NDot, a)
      else if is_e then Some (NExp, a) else None
  | NInt =>
      if digit then Some (NInt, int_digit)
      else if (n =? 46)%N then Some (NDot, a)
      else if is_e then Some (NExp, a) else None
  | NDot => if digit then Some (NFrac, frac_digit) else None
  | NFrac =>
      if digit then Some (NFrac, frac_digit)
      else if is_e then Some (NExp, a) else None
  | NExp =>
      if digit then Some (NExpDigits, exp_digit)
      else if (n =? 43)%N then Some (NExpSign, a)
      else if (n =? 45)%N then Some (NExpSign, exp_minus) else None
  | NExpSign => if digit then Some (NExpDigits, exp_digit) else None
  | NExpDigits => if digit then Some (NExpDigits, exp_digit) else None
  end.

Definition lex_step (s : lex_state) (c : ascii)
  : option (lex_state * list token) :=
  match s with
  | LIdle => lex_idle c
  | LWord expected v =>
      match expected with
      | String x rest =>
          if Ascii.eqb c x then
            match rest with
            | EmptyString => Some (LIdle, [TAtom v])
            | _ => Some (LWord rest v, [])
            end
          else None
      | EmptyString => None
      end
  | LString acc ENone =>
      let n := N_of_ascii c in
      if (n =? 34)%N then
        Some (LIdle, [TAtom (Str (string_of_list_ascii (text_of (rev acc))))])
      else if (n =? 92)%N then Some (LString acc EBackslash, [])
      else if (n <? 32)%N then None
      else Some (LString (Byte c :: acc) ENone, [])
  | LString acc EBackslash =>
      if (N_of_ascii c =? 117)%N then Some (LString acc (EHex []), [])
      else
        match simple_escape c with
        | Some x => Some (LString (Byte x :: acc) ENone, [])
        | None => None
        end
  | LString acc (EHex ds) =>
      match hex_digit c with
      | Some d =>
          match ds with
          | [d3; d2; d1] =>
              Some (LString (Unit (((d1 * 16 + d2) * 16 + d3) * 16 + d)%N :: acc)
                            ENone, [])
          | _ => Some (LString acc (EHex (d :: ds)), [])
          end
      | None => None
      end
  | LNumber st a =>
      match lex_number st a c with
      | Some (st', a') => Some (LNumber st' a', [])
      | None =>
          if accepting st then
            match lex_idle c with
            | Some (s', ts) => Some (s', TAtom (number_of a) :: ts)
            | None => None
            end
          else None
      end
  end.

Fixpoint lex (s : lex_state) (input : string) : option (list token) :=
  match input with
  | EmptyString =>
      match s with
      | LIdle => Some []
      | LNumber st a => if accepting st then Some [TAtom (number_of a)] else None
      | _ => None
      end
  | String c rest =>
      match lex_step s c with
      | Some (s', ts) => option_map (app ts) (lex s' rest)
      | None => None
      end
  end.

(** *** Grammar *)

(** An enclosing array with its elements so far, or an enclosing object
    with its members so far and the key whose value is being read;
    both most recent first. *)
Inductive frame : Type :=
| FArray (elements : list value)
| FObject (members : list (string * value)) (key : string).

Inductive mode : Type :=
| PValue
| PValueOrClose
| PKeyOrClose
| PKey (members : list (string * value))
| PColon (members : list (string * value)) (key : string)
| PAfter (v : value).

Definition parse_value (stack : list frame) (t : token)
  : option (mode * list frame) :=
  match t with
  | TAtom v => Some (PAfter v, stack)
  | TLBracket => Some (PValueOrClose, FArray [] :: stack)
  | TLBrace => Some (PKeyOrClose, stack)
  | _ => None
  end.

Definition parse_step (m : mode) (stack : list frame) (t : token)
  : option (mode * list frame) :=
  match m with
  | PValue => parse_value stack t
  | PValueOrClose =>
      match t, stack with
      | TRBracket, FArray _ :: stack' => Some (PAfter (Array []), stack')
      | _, _ => parse_value stack t
      end
  | PKeyOrClose =>
      match t with
      | TRBrace => Some (PAfter (Object []), stack)
      | TAtom (Str k) => Some (PColon [] k, stack)
      | _ => None
      end
  | PKey members =>
      match t with
      | TAtom (Str k) => Some (PColon members k, stack)
      | _ => None
      end
  | PColon members k =>
      match t with
      | TColon => Some (PValue, FObject members k :: stack)
      | _ => None
      end
  | PAfter v =>
      match stack, t with
      | FArray elements :: stack', TComma =>
          Some (PValue, FArray (v :: elements) :: stack')
      | FArray elements :: stack', TRBracket =>
          Some (PAfter (Array (rev (v :: elements))), stack')
      | FObject members k :: stack', TComma =>
          Some (PKey ((k, v) :: members), stack')
      | FObject members k :: stack', TRBrace =>
          Some (PAfter (Object (rev ((k, v) :: members))), stack')
      | _, _ => None
      end
  end.

Fixpoint parse_tokens (m : mode) (stack : list frame) (ts : list token)
  : option value :=
  match ts with
  | [] =>
      match m, stack with
      | PAfter v, [] => Some v
      | _, _ => None
      end
  | t :: ts' =>
      match parse_step m stack t with
      | Some (m', stack') => parse_tokens m' stack' ts'
      | None => None
      end
  end.

(** [JSON.parse(text)]; [None] when it throws [SyntaxError]. *)
Definition parse (text : string) : option value :=
  match lex LIdle text with
  | Some ts => parse_tokens PValue [] ts
  | None => None
  end.

(** [String(x)] of a string that may be [undefined]. *)
Definition text_arg (x : option string) : string :=
  match x with Some s => s | None => "undefined" end.

(** *** Property access on parsed values *)

(** The value of the last member written under [k]. *)
Fixpoint lookup (k : string) (members : list (string * value)) : option value :=
  match members with
  | [] => None
  | (k', v) :: rest =>
      match lookup k rest with
      | Some v' => Some v'
      | None => if String.eqb k' k then Some v else None
      end
  end.

(** First UTF-16 code unit of a text, as a text. *)
Definition first_unit (s : string) : option string :=
  match s with
  | EmptyString => None
  | String c0 rest =>
      let n := N_of_ascii c0 in
      if ((240 <=? n) && (n <? 248))%N then
        match rest with
        | String c1 (String c2 _) =>
            let cp := ((n mod 8) * 262144 + (N_of_ascii c1 mod 64) * 4096
                       + (N_of_ascii c2 mod 64) * 64)%N in
            Some (string_of_list_ascii (utf8 (55296 + (cp - 65536) / 1024)%N))
        | _ => Some (String c0 EmptyString)
        end
      else if ((224 <=? n) && (n <? 240))%N then Some (substring 0 3 s)
      else if ((192 <=? n) && (n <? 224))%N then Some (substring 0 2 s)
      else Some (String c0 EmptyString)
  end.

(** [v.k] for a key [k] that is neither an index nor a name the
    prototypes define; [None] when the access throws [TypeError]. *)
Definition member (v : value) (k : string) : option value :=
  match v with
  | Undefined | Null => None
  | Object members =>
      Some (match lookup k members with Some x => x | None => Undefined end)
  | _ => Some Undefined
  end.

(** [v[0]]; [None] when the access throws [TypeError]. *)
Definition first (v : value) : option value :=
  match v with
  | Undefined | Null => None
  | Array l => Some (match l with x :: _ => x | [] => Undefined end)
  | Object members =>
      Some (match lookup "0" members with Some x => x | None => Undefined end)
  | Str s => Some (match first_unit s with Some c => Str c | None => Undefined end)
  | Bool _ | Number _ => Some Undefined
  end.

End JSON.

(* ================================================================= *)
(** ** js/modules/api.js *)

Module Api.
Import JSString.

(** *** The remote service and what the program does to its environment *)

(** The JSON body of a reply: [{code, msg, data}]. *)
Record Response (D : Type) : Type := {
  code : Z;
  msg : option string;
  data : option D
}.
Arguments code {D} _.
Arguments msg {D} _.
Arguments data {D} _.

(** What [fetch] followed by [response.json()] gives: a rejection or a
    body. *)
Inductive Reply (D : Type) : Type :=
| Rejected (e : JSError)
| Resolved (r : Response D).
Arguments Rejected {D} e.
Arguments Resolved {D} r.

Record CreateData : Type := { taskId : string }.

(** The [data] of a reply to [recordInfo].  [None] is a member that is
    missing, read as [undefined]; a member given as [null] is not
    represented. *)
Record TaskData : Type := {
  state : string;
  failMsg : option string;
  resultJson : option string
}.

(** The service: its reply to [createTask], and its reply to the [k]-th
    [recordInfo] request, counted from 0. *)
Record Remote : Type := {
  on_createTask : Reply CreateData;
  on_recordInfo : nat -> Reply TaskData
}.

Record Payload : Type := {
  model : string;
  prompt : string;
  aspect_ratio : string;
  resolution : string;
  output_format : string
}.

Record Headers : Type := { Authorization : string; Content_Type : string }.

Record ProgressInfo : Type := {
  p_state : string;
  p_attempts : nat;
  p_maxAttempts : nat
}.

Inductive Event : Type :=
| PostCreateTask (url : string) (h : Headers) (body : Payload)
| GetRecordInfo (url : string) (h : Headers)
| OnProgress (p : ProgressInfo)
| Timer (ms : nat).

(** A progress callback: [Some e] when the call throws [e]. *)
Definition Callback : Type := ProgressInfo -> option JSError.

Record KieAIClient : Type := {
  apiKey : string;
  baseUrl : string;
  headers : Headers
}.

Record Settings : Type := {
  s_resolution : string;
  s_format : string;
  s_aspectRatio : string
}.

(** An options object: each member is missing ([None]) or a text; a
    member that is present with the value [undefined] is not
    represented. *)
Record Options : Type := {
  o_resolution : option string;
  o_format : option string;
  o_aspectRatio : option string
}.

Definition no_options : Options :=
  {| o_resolution := None; o_format := None; o_aspectRatio := None |}.

(** The [APIManager] object ([client], [settings]) in its environment:
    the entry of [localStorage] under ['kie_ai_api_key'], the remote
    service, the number of [recordInfo] requests made and everything done
    so far, oldest first. *)
Record World : Type := {
  client : option KieAIClient;
  settings : Settings;
  storage : option string;
  remote : Remote;
  polls : nat;
  trace : list Event
}.

Definition emit (e : Event) : M World unit :=
  modify (fun w =>
    {| client := client w; settings := settings w; storage := storage w;
       remote := remote w; polls := polls w; trace := trace w ++ [e] |}).

Definition count_poll : M World unit :=
  modify (fun w =>
    {| client := client w; settings := settings w; storage := storage w;
       remote := remote w; polls := S (polls w); trace := trace w |}).

Definition set_client (c : option KieAIClient) : M World unit :=
  modify (fun w =>
    {| client := c; settings := settings w; storage := storage w;
       remote := remote w; polls := polls w; trace := trace w |}).

(** [await new Promise(resolve => setTimeout(resolve, interval))]. *)
Definition sleep (interval : nat) : M World unit := emit (Timer interval).

(** *** KieAIClient *)

Definition new_KieAIClient (key : string) : KieAIClient :=
  {| apiKey := key;
     baseUrl := "https://api.kie.ai/api/v1/jobs";
     headers := {| Authorization := "Bearer " ++ key;
                   Content_Type := "application/json" |} |}.

Definition errorMap (c : Z) : option string :=
  if (c =? 400)%Z then Some "请求参数错误"
  else if (c =? 401)%Z then Some "API Key无效，请检查配置"
  else if (c =? 402)%Z then Some "账户余额不足"
  else if (c =? 404)%Z then Some "资源未找到"
  else if (c =? 422)%Z then Some "参数验证失败"
  else if (c =? 429)%Z then Some "请求过于频繁，请稍后重试"
  else if (c =? 500)%Z then Some "服务器错误，请稍后重试"
  else None.

Definition getErrorMessage (c : Z) (message : option string) : string :=
  match errorMap c with
  | Some m => m
  | None => or_default message "未知错误"
  end.

(** The checks both request methods make on a reply; their [catch]
    rethrows what it caught. *)
Definition checked {D} (r : Reply D) : M World (Response D) :=
  match r with
  | Rejected e => throw e
  | Resolved d =>
      if (code d =? 200)%Z then ret d
      else throw (Error (getErrorMessage (code d) (msg d)))
  end.

Definition createTask (c : KieAIClient) (p : string) (options : Options)
  : M World (Response CreateData) :=
  let payload :=
    {| model := "nano-banana-pro";
       prompt := p;
       aspect_ratio := or_default (o_aspectRatio options) "3:4";
       resolution := or_default (o_resolution options) "2K";
       output_format := or_default (o_format options) "png" |} in
  emit (PostCreateTask (baseUrl c ++ "/createTask") (headers c) payload) ;;;
  w <- current ;;
  checked (on_createTask (remote w)).

Definition queryTask (c : KieAIClient) (task : string)
  : M World (Response TaskData) :=
  emit (GetRecordInfo (baseUrl c ++ "/recordInfo?taskId=" ++ task) (headers c)) ;;;
  w <- current ;;
  count_poll ;;;
  checked (on_recordInfo (remote w) (polls w)).

(** [result.data] where a member of it is read next. *)
Definition data_of {D} (r : Response D) (field : string) : M World D :=
  match data r with
  | Some d => ret d
  | None =>
      throw (TypeError ("Cannot read properties of undefined (reading '"
                        ++ field ++ "')"))
  end.

Definition call_progress (onProgress : option Callback) (p : ProgressInfo)
  : M World unit :=
  match onProgress with
  | None => ret tt
  | Some f =>
      emit (OnProgress p) ;;;
      match f p with
      | Some e => throw e
      | None => ret tt
      end
  end.

(** How one turn of the polling loop ends when it does not throw:
    [return result], or on to the next turn with the new [attempts]. *)
Inductive Turn : Type :=
| Done (result : Response TaskData)
| Again (attempts : nat).

(** The [try] block of one turn of the polling loop. *)
Definition try_block (c : KieAIClient) (task : string)
           (maxAttempts interval : nat) (onProgress : option Callback)
           (attempts : nat) : M World Turn :=
  result <- queryTask c task ;;
  d <- data_of result "state" ;;
  let st := state d in
  call_progress onProgress
    {| p_state := st;
       p_attempts := attempts + 1;
       p_maxAttempts := maxAttempts |} ;;;
  if String.eqb st "success" then ret (Done result)
  else if String.eqb st "fail" then
    throw (Error (or_default (failMsg d) "任务执行失败"))
  else
    sleep interval ;;;
    ret (Again (attempts + 1)).

(** Its [catch] block. *)
Definition catch_block (maxAttempts attempts : nat) (error : JSError)
  : M World Turn :=
  if (attempts =? maxAttempts - 1)%nat then throw error
  else ret (Again (attempts + 1)).

(** The [while (attempts < maxAttempts)] loop of [pollUntilComplete];
    [fuel] bounds the number of turns. *)
Fixpoint poll_loop (fuel : nat) (c : KieAIClient) (task : string)
         (maxAttempts interval : nat) (onProgress : option Callback)
         (attempts : nat) : M World (Response TaskData) :=
  if (attempts <? maxAttempts)%nat then
    match fuel with
    | O => fun w => (OutOfFuel, w)
    | S fuel' =>
        turn <-
          try_catch
            (try_block c task maxAttempts interval onProgress attempts)
            (catch_block maxAttempts attempts) ;;
        match turn with
        | Done result => ret result
        | Again attempts' =>
            poll_loop fuel' c task maxAttempts interval onProgress attempts'
        end
    end
  else throw (Error "任务超时，请稍后重试").

Definition pollUntilComplete (c : KieAIClient) (task : string)
           (maxAttempts interval : nat) (onProgress : option Callback)
  : M World (Response TaskData) :=
  poll_loop maxAttempts c task maxAttempts interval onProgress 0.

(** *** APIManager *)

Definition default_settings : Settings :=
  {| s_resolution := "2K"; s_format := "png"; s_aspectRatio := "3:4" |}.

(** [encoded ? atob(encoded) : null], [null] too when [atob] throws. *)
Definition getApiKey : M World (option string) :=
  w <- current ;;
  ret (match storage w with
       | Some encoded =>
           if truthy encoded then Base64.atob encoded else None
       | None => None
       end).

Definition isConfigured : M World bool :=
  k <- getApiKey ;;
  ret (match k with Some key => truthy key | None => false end).

Definition not_configured {A} : M World A :=
  throw (Error "API Key未配置，请先设置API Key").

(** [{...this.settings, ...options}]. *)
Definition merge (s : Settings) (o : Options) : Options :=
  {| o_resolution :=
       Some (match o_resolution o with Some v => v | None => s_resolution s end);
     o_format :=
       Some (match o_format o with Some v => v | None => s_format s end);
     o_aspectRatio :=
       Some (match o_aspectRatio o with Some v => v | None => s_aspectRatio s end) |}.

Definition ensure_client : M World KieAIClient :=
  w <- current ;;
  match client w with
  | Some c => ret c
  | None =>
      k <- getApiKey ;;
      match k with
      | Some key =>
          if truthy key then
            set_client (Some (new_KieAIClient key)) ;;; ret (new_KieAIClient key)
          else not_configured
      | None => not_configured
      end
  end.

Definition type_error_reading {A} (what field : string) : M World A :=
  throw (TypeError ("Cannot read properties of " ++ what
                    ++ " (reading '" ++ field ++ "')")).

Definition generateImage (p : string) (options : Options)
           (onProgress : option Callback) : M World JSON.value :=
  configured <- isConfigured ;;
  if negb configured then not_configured
  else
    c <- ensure_client ;;
    w <- current ;;
    let mergedOptions := merge (settings w) options in
    createResult <- createTask c p mergedOptions ;;
    created <- data_of createResult "taskId" ;;
    let task := taskId created in
    result <- pollUntilComplete c task 30 2000 onProgress ;;
    d <- data_of result "resultJson" ;;
    match JSON.parse (JSON.text_arg (resultJson d)) with
    | None => throw (SyntaxError "Unexpected token in JSON")
    | Some parsed =>
        match JSON.member parsed "resultUrls" with
        | None => type_error_reading "null" "resultUrls"
        | Some urls =>
            match JSON.first urls with
            | None =>
                type_error_reading
                  (match urls with JSON.Null => "null" | _ => "undefined" end) "0"
            | Some imageUrl =>
                if negb (JSON.truthy imageUrl) then
                  throw (Error "图片生成失败，未获取到图片URL")
                else ret imageUrl
            end
        end
    end.

End Api.

(* ================================================================= *)
(** ** Vocabulary of the statements *)

Module Session.
Import Business.

(** What [addMessage] stores for [message] in world [w]: both clock
    readings are taken before the push, the id first. *)
Definition stored (message : MessageInit) (w : World) : Message :=
  {| m_type := mi_type message;
     m_content := mi_content message;
     m_prompt := mi_prompt message;
     id := Number_toString (clock w (reads w));
     timestamp := clock w (S (reads w)) |}.

Definition user_message (input : string) : MessageInit :=
  {| mi_type := user; mi_content := input; mi_prompt := None |}.

Definition idle_world : World :=
  {| this := new_ConversationManager; clock := fun _ => 1700000000000%Z; reads := 0 |}.

(** A session opened at 1700000000000 ms whose first input is handled
    250 ms later, all of it within one millisecond. *)
Definition one_tick_clock (k : nat) : Z :=
  if (k <? 2)%nat then 1700000000000%Z else 1700000000250%Z.

Definition fresh_session : World :=
  {| this := new_ConversationManager; clock := one_tick_clock; reads := 0 |}.

End Session.


Module Template.
Import JSString Business.

(** A template seen as fixed text interrupted by placeholder sites. *)
Inductive piece : Type :=
| Text (s : string)
| Slot (placeholder : string).

Definition content (p : piece) : string :=
  match p with Text s => s | Slot ph => ph end.

Fixpoint render (l : list piece) : string :=
  match l with
  | [] => EmptyString
  | p :: l' => content p ++ render l'
  end.

(** The placeholders met, site after site. *)
Fixpoint slots (l : list piece) : list string :=
  match l with
  | [] => []
  | Text _ :: l' => slots l'
  | Slot ph :: l' => ph :: slots l'
  end.

(** Put [v] at every site of [ph]. *)
Definition fill (ph v : string) (l : list piece) : list piece :=
  map (fun p =>
         match p with
         | Slot x => if String.eqb x ph then Text v else Slot x
         | Text s => Text s
         end) l.

(** The template of [PromptGenerator], cut at its placeholder sites. *)
Definition template_pieces : list piece :=
  [ Text "请生成一张儿童识字小报《";
    Slot ph_theme;
    Text "》，竖版 A4，学习小报版式，适合 5–9 岁孩子 认字与看图识物。

# 一、小报标题区（顶部）

**顶部居中大标题**：《";
    Slot ph_title;
    Text "》
* **风格**：十字小报 / 儿童学习报感
* **文本要求**：大字、醒目、卡通手写体、彩色描边
* **装饰**：周围添加与 ";
    Slot ph_theme;
    Text " 相关的贴纸风装饰，颜色鲜艳

# 二、小报主体（中间主画面）

画面中心是一幅 **卡通插画风的「";
    Slot ph_theme;
    Text "」场景**：
* **整体气氛**：明亮、温暖、积极
* **构图**：物体边界清晰，方便对应文字，不要过于拥挤。

**场景分区与核心内容**
1.  **核心区域 A（主要对象）**：表现 ";
    Slot ph_theme;
    Text " 的核心活动。
2.  **核心区域 B（配套设施）**：展示相关的工具或物品。
3.  **核心区域 C（环境背景）**：体现环境特征（如墙面、指示牌等）。

**主题人物**
* **角色**：1 位可爱卡通人物（职业/身份：与 ";
    Slot ph_theme;
    Text " 匹配）。
* **动作**：正在进行与场景相关的自然互动。

# 三、必画物体与识字清单（Generated Content）

**请务必在画面中清晰绘制以下物体，并为其预留贴标签的位置：**

**1. 核心角色与设施：**
";
    Slot ph_characters;
    Text "

**2. 常见物品/工具：**
";
    Slot ph_items;
    Text "

**3. 环境与装饰：**
";
    Slot ph_environment;
    Text "

*(注意：画面中的物体数量不限于此，但以上列表必须作为重点描绘对象)*

# 四、识字标注规则

对上述清单中的物体，贴上中文识字标签：
* **格式**：两行制（第一行拼音带声调，第二行简体汉字）。
* **样式**：彩色小贴纸风格，白底黑字或深色字，清晰可读。
* **排版**：标签靠近对应的物体，不遮挡主体。

# 五、画风参数
* **风格**：儿童绘本风 + 识字小报风
* **色彩**：高饱和、明快、温暖 (High Saturation, Warm Tone)
* **质量**：8k resolution, high detail, vector illustration style, clean lines." ].

(** A text that contains neither [$] nor an opening brace. *)
Fixpoint plain (s : string) : bool :=
  match s with
  | EmptyString => true
  | String c s' => negb (Ascii.eqb c "$") && negb (Ascii.eqb c "{") && plain s'
  end.

(** The value [generatePrompt] has for each placeholder. *)
Definition value_of (theme title : string) (f : FormattedVocabs) (ph : string)
  : string :=
  if String.eqb ph ph_theme then theme
  else if String.eqb ph ph_title then title
  else if String.eqb ph ph_characters then f_characters f
  else if String.eqb ph ph_items then f_items f
  else if String.eqb ph ph_environment then f_environment f
  else ph.

(** Every site replaced by the value of its placeholder. *)
Definition filled (theme title : string) (f : FormattedVocabs) (l : list piece)
  : string :=
  render (map (fun p =>
                 match p with
                 | Slot ph => Text (value_of theme title f ph)
                 | Text s => Text s
                 end) l).

(** [p] and [t] agree as far as both go. *)
Fixpoint agree (p t : string) : bool :=
  match p, t with
  | String a p', String b t' => Ascii.eqb a b && agree p' t'
  | _, _ => true
  end.

(** No occurrence of [pat] can start inside [seg], whatever follows. *)
Fixpoint no_overlap (pat seg : string) : bool :=
  match seg with
  | EmptyString => true
  | String _ seg' => negb (agree pat seg) && no_overlap pat seg'
  end.

(** A piece in which [pat] cannot start, or a site of [pat] itself. *)
Definition inertb (pat : string) (p : piece) : bool :=
  match p with
  | Text s => no_overlap pat s
  | Slot x => String.eqb x pat || no_overlap pat x
  end.

(** The scan of [replace_g] when the replacement has no [$]. *)
Fixpoint replace_lit (pat repl : string) (skip : nat) (s : string) : string :=
  match s with
  | EmptyString => EmptyString
  | String c s' =>
      match skip with
      | S k => replace_lit pat repl k s'
      | O =>
          if startsWith s pat
          then repl ++ replace_lit pat repl (String.length pat - 1) s'
          else String c (replace_lit pat repl 0 s')
      end
  end.

Definition generator (vg : VocabularyGenerator) : PromptGenerator :=
  {| vocabularyGenerator := vg; pg_template := template |}.

Definition newline : string := String (ascii_of_nat 10) EmptyString.

(** In the template the placeholder [ph] is the line under the heading
    [heading]. *)
Definition under_heading (heading ph : string) : bool :=
  includes template (heading ++ newline ++ ph ++ newline).

(** A generator whose download failed: it holds the default themes. *)
Definition loaded_default : VocabularyGenerator :=
  loadThemes FetchFailed new_VocabularyGenerator.

End Template.


Module Lookup.
Import JSString Business.

(** [p] occurs in [s]. *)
Definition occurs_in (p s : string) : Prop :=
  exists a b, s = a ++ p ++ b.

(** A display name and a query are related when one contains the
    other. *)
Definition related (display query : string) : Prop :=
  occurs_in query display \/ occurs_in display query.

(** [th] is the first theme of [es] that satisfies [P]. *)
Definition first_such (P : Theme -> Prop) (es : list (string * Theme))
           (th : Theme) : Prop :=
  exists before k after,
    es = (before ++ (k, th) :: after)%list
    /\ P th
    /\ Forall (fun e => ~ P (snd e)) before.

(** The lookup as the specification words it, over the catalog in
    insertion order: the theme whose display name is the query, else
    the first theme whose display name is related to it. *)
Definition findTheme_insertion_order (catalog : Catalog) (query : string)
  : option Theme :=
  match find (fun kv => String.eqb (name (snd kv)) query) catalog with
  | Some kv => Some (snd kv)
  | None =>
      option_map snd
        (find (fun kv => includes (name (snd kv)) query
                         || includes query (name (snd kv))) catalog)
  end.

Definition loaded (catalog : Catalog) : VocabularyGenerator :=
  {| themes := Some catalog |}.

Definition bare_theme (display : string) : Theme :=
  {| name := display; icon := None; titles := [];
     vocabularies := generateDynamicVocabulary display |}.

(** A catalog whose second identifier is an array index. *)
Definition numbered_catalog : Catalog :=
  [ ("park", bare_theme "公园"); ("1", bare_theme "动物园") ].

Definition by_index {A} (x y : N * (string * A)) : Prop := (fst x <= fst y)%N.

Definition named {A} (kv : string * A) : bool :=
  match JSObject.array_index (fst kv) with
  | Some _ => false
  | None => true
  end.

End Lookup.


Module Scenario.
Import JSString Api.

Definition timeout_error : JSError := Error "任务超时，请稍后重试".

Definition missing_result : JSError := Error "图片生成失败，未获取到图片URL".

(** A body with code 200 and the given data. *)
Definition ok {D} (d : D) : Reply D :=
  Resolved {| code := 200; msg := Some "success"; data := Some d |}.

Definition in_state (st : string) : TaskData :=
  {| state := st; failMsg := None; resultJson := None |}.

Definition failed (reason : string) : TaskData :=
  {| state := "fail"; failMsg := Some reason; resultJson := None |}.

Definition succeeded (json : option string) : TaskData :=
  {| state := "success"; failMsg := None; resultJson := json |}.

Definition quote : string := String (ascii_of_nat 34) EmptyString.

(** The text [{"resultUrls":[...]}] for the given array content. *)
Definition result_json (elements : string) : string :=
  "{" ++ quote ++ "resultUrls" ++ quote ++ ":[" ++ elements ++ "]}".

Definition url_json : string :=
  result_json (quote ++ "https://x/y.png" ++ quote).

(** The world after a [recordInfo] request and what followed it. *)
Definition after_poll (c : KieAIClient) (task : string) (then_ : list Event)
           (w : World) : World :=
  {| client := client w; settings := settings w; storage := storage w;
     remote := remote w; polls := S (polls w);
     trace := (trace w
               ++ GetRecordInfo (baseUrl c ++ "/recordInfo?taskId=" ++ task)
                                (headers c) :: then_)%list |}.

Definition progress (st : string) (attempts maxAttempts : nat) : Event :=
  OnProgress {| p_state := st; p_attempts := attempts;
                p_maxAttempts := maxAttempts |}.

Fixpoint progress_calls (t : list Event) : list ProgressInfo :=
  match t with
  | [] => []
  | OnProgress p :: t' => p :: progress_calls t'
  | _ :: t' => progress_calls t'
  end.

(** An API manager with the key [sk-12345] stored, no client yet, in
    front of the given service. *)
Definition configured (r : Remote) : World :=
  {| client := None; settings := default_settings;
     storage := Some "c2stMTIzNDU="; remote := r; polls := 0; trace := [] |}.

Definition silent : Callback := fun _ => None.

(** A service that accepts the task and answers the polls from a list,
    repeating its last element for ever. *)
Definition scripted (first : TaskData) (more : list TaskData) : Remote :=
  {| on_createTask := ok {| taskId := "task-1" |};
     on_recordInfo := fun k => ok (nth k (first :: more) (last more first)) |}.

Definition client_in_use (key : string) (w : World) : KieAIClient :=
  match client w with
  | Some c => c
  | None => new_KieAIClient key
  end.

Definition create_request (c : KieAIClient) (p : string) (s : Settings)
           (o : Options) : Event :=
  PostCreateTask (baseUrl c ++ "/createTask") (headers c)
    {| model := "nano-banana-pro";
       prompt := p;
       aspect_ratio := or_default (o_aspectRatio (merge s o)) "3:4";
       resolution := or_default (o_resolution (merge s o)) "2K";
       output_format := or_default (o_format (merge s o)) "png" |}.

Definition poll_request (c : KieAIClient) (task : string) : Event :=
  GetRecordInfo (baseUrl c ++ "/recordInfo?taskId=" ++ task) (headers c).

(** The world in which polling starts: the client is in place and the
    task has been requested. *)
Definition task_created (c : KieAIClient) (p : string) (o : Options)
           (w : World) : World :=
  {| client := Some c; settings := settings w; storage := storage w;
     remote := remote w; polls := polls w;
     trace := (trace w ++ [create_request c p (settings w) o])%list |}.

(** What [generateImage] does with the result of the polling. *)
Definition extract_url (result : Response TaskData) : M World JSON.value :=
  d <- data_of result "resultJson" ;;
  match JSON.parse (JSON.text_arg (resultJson d)) with
  | None => throw (SyntaxError "Unexpected token in JSON")
  | Some parsed =>
      match JSON.member parsed "resultUrls" with
      | None => type_error_reading "null" "resultUrls"
      | Some urls =>
          match JSON.first urls with
          | None =>
              type_error_reading
                (match urls with JSON.Null => "null" | _ => "undefined" end)
                "0"
          | Some imageUrl =>
              if negb (JSON.truthy imageUrl) then throw missing_result
              else ret imageUrl
          end
      end
  end.

Definition two_then_success : Remote :=
  scripted (in_state "processing")
           [in_state "processing"; succeeded (Some url_json)].

Definition fail_then_success : Remote :=
  scripted (failed "quota exceeded") [succeeded (Some url_json)].

Definition always_fail : Remote := scripted (failed "quota exceeded") [].

Definition the_client : KieAIClient := new_KieAIClient "sk-12345".

Definition success_with (json : option string) : Remote :=
  scripted (succeeded json) [].

Definition network_error : JSError := TypeError "Failed to fetch".

Definition offline : Remote :=
  {| on_createTask := Rejected network_error;
     on_recordInfo := fun _ => Rejected network_error |}.

End Scenario.

(** *** Attempts of a polling call *)
Module Attempts.
Import JSString Api Scenario.

(** The world in which [pollUntilComplete] comes to the attempt numbered
    [k] (the first is numbered 0) when none of the attempts before it
    returned a result: what the [try] blocks of those attempts have
    done, whether they ended normally or in the [catch] block, which
    itself does nothing to the world. *)
Fixpoint reached (c : KieAIClient) (task : string) (n interval : nat)
         (onProgress : option Callback) (k : nat) (w : World) : World :=
  match k with
  | O => w
  | S k' =>
      snd (try_block c task n interval onProgress k'
             (reached c task n interval onProgress k' w))
  end.

(** None of the first [k] attempts returned a result. *)
Definition undecided (c : KieAIClient) (task : string) (n interval : nat)
           (onProgress : option Callback) (k : nat) (w : World) : Prop :=
  forall i r,
    i < k ->
    fst (try_block c task n interval onProgress i
           (reached c task n interval onProgress i w))
    <> Return (Done r).

(** A service whose first answer is lost on the way and whose second
    one reports the finished task. *)
Definition lost_then_success : Remote :=
  {| on_createTask := ok {| taskId := "task-1" |};
     on_recordInfo := fun k =>
       match k with
       | O => Rejected network_error
       | S _ => ok (succeeded (Some url_json))
       end |}.

End Attempts.


(* ================================================================= *)
(** ** The rest of api.js: key storage, settings, and [btoa] *)

Module Base64Encode.

Definition alphabet (n : N) : ascii :=
  if (n <? 26)%N then ascii_of_N (n + 65)
  else if (n <? 52)%N then ascii_of_N (n + 71)
  else if (n <? 62)%N then ascii_of_N (n - 4)
  else if (n =? 62)%N then "+"%char
  else "/"%char.

Definition pad : ascii := "="%char.

(** Three bytes give four characters; a last group of one or two bytes
    is completed with [=]. *)
Fixpoint encode (l : list ascii) : list ascii :=
  match l with
  | [] => []
  | [a] =>
      let n := N_of_ascii a in
      [alphabet (n / 4); alphabet ((n mod 4) * 16); pad; pad]%N
  | [a; b] =>
      let n := (N_of_ascii a * 256 + N_of_ascii b)%N in
      [alphabet (n / 1024); alphabet ((n / 16) mod 64);
       alphabet ((n mod 16) * 4); pad]%N
  | a :: b :: c :: rest =>
      let n := ((N_of_ascii a * 256 + N_of_ascii b) * 256 + N_of_ascii c)%N in
      (alphabet (n / 262144) :: alphabet ((n / 4096) mod 64)
       :: alphabet ((n / 64) mod 64) :: alphabet (n mod 64) :: encode rest)%N
  end.

(** The characters of a text as bytes when all of them are below U+0100;
    [None] when one is not.  In the UTF-8 form of a text a character
    below U+0080 is its own byte and one from U+0080 to U+00FF is the
    lead byte 0xC2 or 0xC3 with one continuation byte. *)
Fixpoint latin1 (l : list ascii) : option (list ascii) :=
  match l with
  | [] => Some []
  | c :: rest =>
      let n := N_of_ascii c in
      if (n <? 128)%N then option_map (cons c) (latin1 rest)
      else if ((n =? 194) || (n =? 195))%N then
        match rest with
        | d :: rest' =>
            let m := N_of_ascii d in
            if ((128 <=? m) && (m <? 192))%N then
              option_map (cons (ascii_of_N ((n - 192) * 64 + (m - 128))))
                         (latin1 rest')
            else None
        | [] => None
        end
      else None
  end.

(** [btoa(s)]; [None] when it throws [InvalidCharacterError]. *)
Definition btoa (s : string) : option string :=
  option_map (fun l => string_of_list_ascii (encode l))
             (latin1 (list_ascii_of_string s)).

(** The encoding without its padding. *)
Fixpoint encode_bare (l : list ascii) : list ascii :=
  match l with
  | [] => []
  | [a] =>
      let n := N_of_ascii a in
      [alphabet (n / 4); alphabet ((n mod 4) * 16)]%N
  | [a; b] =>
      let n := (N_of_ascii a * 256 + N_of_ascii b)%N in
      [alphabet (n / 1024); alphabet ((n / 16) mod 64); alphabet ((n mod 16) * 4)]%N
  | a :: b :: c :: rest =>
      let n := ((N_of_ascii a * 256 + N_of_ascii b) * 256 + N_of_ascii c)%N in
      (alphabet (n / 262144) :: alphabet ((n / 4096) mod 64)
       :: alphabet ((n / 64) mod 64) :: alphabet (n mod 64) :: encode_bare rest)%N
  end.

(** The padding [encode] ends with. *)
Fixpoint padding (l : list ascii) : list ascii :=
  match l with
  | [] => []
  | [_] => [pad; pad]
  | [_; _] => [pad]
  | _ :: _ :: _ :: rest => padding rest
  end.

(** A character [atob] neither skips nor takes for padding. *)
Definition clean (c : ascii) : Prop := Base64.is_space c = false /\ Base64.is_pad c = false.

(** Every character of the text is below U+0080. *)
Definition ascii_text (s : string) : Prop :=
  Forall (fun c => (N_of_ascii c < 128)%N) (list_ascii_of_string s).

End Base64Encode.

Module ApiConfig.
Import JSString Api.

(** [localStorage.setItem('kie_ai_api_key', v)] and
    [localStorage.removeItem('kie_ai_api_key')]; the storage takes what
    it is given. *)
Definition set_storage (v : option string) : M World unit :=
  modify (fun w =>
    {| client := client w; settings := settings w; storage := v;
       remote := remote w; polls := polls w; trace := trace w |}).


(** [KieAIClient.updateApiKey]. *)
Definition updateApiKey (newApiKey : string) (c : KieAIClient) : KieAIClient :=
  {| apiKey := newApiKey;
     baseUrl := baseUrl c;
     headers := {| Authorization := "Bearer " ++ newApiKey;
                   Content_Type := Content_Type (headers c) |} |}.

(** [APIManager.init]. *)
Definition init : M World unit :=
  k <- getApiKey ;;
  match k with
  | Some key =>
      if truthy key then set_client (Some (new_KieAIClient key)) else ret tt
  | None => ret tt
  end.

(** [new APIManager()] with the given storage entry, in front of the
    given service. *)
Definition new_APIManager (stored : option string) (r : Remote) : World :=
  snd (init {| client := None; settings := default_settings;
               storage := stored; remote := r; polls := 0; trace := [] |}).

(** [APIManager.saveApiKey]: the [catch] answers [false] when [btoa]
    throws. *)
Definition saveApiKey (key : string) : M World bool :=
  match Base64Encode.btoa key with
  | Some encoded =>
      set_storage (Some encoded) ;;;
      set_client (Some (new_KieAIClient key)) ;;;
      ret true
  | None => ret false
  end.

(** [APIManager.clearApiKey]. *)
Definition clearApiKey : M World unit :=
  set_storage None ;;;
  set_client None.



(** [APIManager.getSettings]. *)
Definition getSettings : M World Settings :=
  w <- current ;;
  ret (settings w).

End ApiConfig.

Module Polls.
Import JSString Api Scenario.

(** The service answers poll number [j] with a body of code 200 whose
    state is neither [success] nor [fail]. *)
Definition pending_at (w : World) (j : nat) : Prop :=
  exists r d,
    on_recordInfo (remote w) j = Resolved r
    /\ code r = 200%Z
    /\ data r = Some d
    /\ String.eqb (state d) "success" = false
    /\ String.eqb (state d) "fail" = false.

(** The state in the reply to poll number [j], if it has one. *)
Definition state_at (w : World) (j : nat) : string :=
  match on_recordInfo (remote w) j with
  | Resolved r => match data r with Some d => state d | None => "" end
  | Rejected _ => ""
  end.

(** The callback, if any, returns normally. *)
Definition quiet (onProgress : option Callback) : Prop :=
  match onProgress with
  | Some cb => forall info, cb info = None
  | None => True
  end.

(** The progress call of a turn, when there is a callback. *)
Definition report (onProgress : option Callback) (st : string)
           (attempts maxAttempts : nat) : list Event :=
  match onProgress with
  | Some _ => [progress st attempts maxAttempts]
  | None => []
  end.

(** The world after [k] turns that each saw a pending state, the first
    of them being attempt [a + 1]. *)
Fixpoint waited (c : KieAIClient) (task : string) (n interval : nat)
         (onProgress : option Callback) (k a : nat) (w : World) : World :=
  match k with
  | O => w
  | S k' =>
      waited c task n interval onProgress k' (a + 1)
        (after_poll c task
           (report onProgress (state_at w (polls w)) (a + 1) n ++ [Timer interval])
           w)
  end.

(** The exception a reply makes [queryTask], or the reading of
    [result.data.state] after it, raise; [None] when it raises none. *)
Definition reply_error (r : Reply TaskData) : option JSError :=
  match r with
  | Rejected e => Some e
  | Resolved b =>
      if (code b =? 200)%Z then
        match data b with
        | Some _ => None
        | None =>
            Some (TypeError "Cannot read properties of undefined (reading 'state')")
        end
      else Some (Error (getErrorMessage (code b) (msg b)))
  end.

(** The world after [k] turns whose reply raised an exception. *)
Fixpoint retried (c : KieAIClient) (task : string) (k : nat) (w : World)
  : World :=
  match k with
  | O => w
  | S k' => retried c task k' (after_poll c task [] w)
  end.

Fixpoint timers (t : list Event) : nat :=
  match t with
  | [] => 0
  | Timer _ :: t' => S (timers t')
  | _ :: t' => timers t'
  end.

Fixpoint requests (t : list Event) : nat :=
  match t with
  | [] => 0
  | (PostCreateTask _ _ _ | GetRecordInfo _ _) :: t' => S (requests t')
  | _ :: t' => requests t'
  end.

(** Calls of the callback, by their [attempts]. *)
Definition attempts_reported (t : list Event) : list nat :=
  map p_attempts (progress_calls t).

(** [count] attempts numbered from [from], when there is a callback to
    report them to. *)
Definition numbered (onProgress : option Callback) (from count : nat)
  : list nat :=
  match onProgress with
  | Some _ => seq from count
  | None => []
  end.

(** What the turn of attempt [a + 1] may add to the trace after its
    request. *)
Definition turn_event (n interval a : nat) (e : Event) : Prop :=
  match e with
  | OnProgress p => p_attempts p = a + 1 /\ p_maxAttempts p = n
  | Timer ms => ms = interval
  | _ => False
  end.

(** What [pollUntilComplete] may add to the trace. *)
Definition poll_event (c : KieAIClient) (task : string) (n interval : nat)
           (e : Event) : Prop :=
  match e with
  | GetRecordInfo url h =>
      url = baseUrl c ++ "/recordInfo?taskId=" ++ task /\ h = headers c
  | OnProgress p => 1 <= p_attempts p <= n /\ p_maxAttempts p = n
  | Timer ms => ms = interval
  | PostCreateTask _ _ _ => False
  end.

(** The stored entry does not give a usable key. *)
Definition no_key (stored : option string) : Prop :=
  match stored with
  | None => True
  | Some encoded =>
      truthy encoded = false
      \/ Base64.atob encoded = None
      \/ Base64.atob encoded = Some ""
  end.

(** The stored entry gives the key [key]. *)
Definition holds_key (stored : option string) (key : string) : Prop :=
  exists encoded,
    stored = Some encoded
    /\ truthy encoded = true
    /\ Base64.atob encoded = Some key
    /\ truthy key = true.

(** The exception a reply to [createTask] makes [createTask], or the
    reading of [createResult.data.taskId] after it, raise. *)
Definition create_error (r : Reply CreateData) : option JSError :=
  match r with
  | Rejected e => Some e
  | Resolved b =>
      if (code b =? 200)%Z then
        match data b with
        | Some _ => None
        | None =>
            Some (TypeError "Cannot read properties of undefined (reading 'taskId')")
        end
      else Some (Error (getErrorMessage (code b) (msg b)))
  end.

(** The value of a request field: the option when it is given, else the
    setting; the built-in default when that value is empty. *)
Definition pick (given : option string) (setting fallback : string) : string :=
  match given with
  | Some v => if truthy v then v else fallback
  | None => if truthy setting then setting else fallback
  end.

(** The request [createTask] sends for the prompt [p]. *)
Definition create_event (c : KieAIClient) (p : string) (s : Settings)
           (o : Options) : Event :=
  PostCreateTask (baseUrl c ++ "/createTask") (headers c)
    {| model := "nano-banana-pro";
       prompt := p;
       aspect_ratio := pick (o_aspectRatio o) (s_aspectRatio s) "3:4";
       resolution := pick (o_resolution o) (s_resolution s) "2K";
       output_format := pick (o_format o) (s_format s) "png" |}.

(** A service that accepts the task and answers [processing] to every
    poll. *)
Definition never_done : Remote := scripted (in_state "processing") [].

(** A service that accepts the task and reports [success] with an empty
    [resultUrls] at the first poll. *)
Definition success_without_url : Remote :=
  scripted (succeeded (Some (result_json ""))) [].

(** The error codes the client has a message of its own for. *)
Definition mapped_codes : list Z := [400; 401; 402; 404; 422; 429; 500]%Z.

Definition not_configured_error : JSError :=
  Error "API Key未配置，请先设置API Key".

End Polls.

(* ================================================================= *)
(** ** The rest of business.js: image generation manager and controller *)

Module Controller.
Import JSString Business.

Record ImageGenerationManager : Type := { promptGenerator : PromptGenerator }.

(** [ImageGenerationManager.generateImage], run on the API manager the
    module imports; its [catch] rethrows what it caught. *)
Definition generateImage (m : ImageGenerationManager) (theme title : string)
           (onProgress : option Api.Callback) : M Api.World JSON.value :=
  let prompt := generatePrompt (promptGenerator m) theme title in
  Api.generateImage prompt Api.no_options onProgress.


(** [BusinessController.startNewCreation], on the controller's
    conversation manager. *)
Definition startNewCreation : M World StartResult :=
  reset ;;;
  startConversation.

Record ThemeSelection : Type := {
  ts_theme : string;
  ts_titles : list string;
  ts_vocabularies : Vocabularies
}.

(** [BusinessController.handleThemeSelection], on the controller's
    vocabulary generator. *)
Definition handleThemeSelection (vg : VocabularyGenerator) (theme : string)
  : option ThemeSelection :=
  match getThemeByName vg theme with
  | Some themeData =>
      Some {| ts_theme := theme;
              ts_titles := titles themeData;
              ts_vocabularies := vocabularies themeData |}
  | None => None
  end.

Record ThemeInfo : Type := {
  ti_id : string;
  ti_name : string;
  ti_icon : option string;
  ti_titles : list string
}.

(** [VocabularyGenerator.getAvailableThemes]. *)
Definition getAvailableThemes (vg : VocabularyGenerator) : list ThemeInfo :=
  match themes vg with
  | None => []
  | Some ths =>
      map (fun kv =>
             {| ti_id := fst kv;
                ti_name := name (snd kv);
                ti_icon := icon (snd kv);
                ti_titles := titles (snd kv) |})
          (JSObject.entries ths)
  end.

End Controller.

Module Dialogue.
Import JSString Business Controller.

Definition welcome_text : string :=
  "请问这期儿童识字小报的主题/场景是什么？（如：超市、医院、公园）".

Definition title_question : string :=
  "请问小报的大标题是什么？（如：《走进超市》《快乐医院》）".

Definition prompt_ready : string := "提示词已生成，正在生成小报图片...".

Definition opening : string := "请生成一张儿童识字小报《".

(** What a caller may do with the conversation manager. *)
Inductive operation : Type :=
| Start
| Input (text : string)
| Reset
| NewCreation.

(** The world after an operation, whether it returned or threw. *)
Definition apply_operation (o : operation) (w : World) : World :=
  match o with
  | Start => snd (startConversation w)
  | Input text => snd (handleUserInput text w)
  | Reset => snd (reset w)
  | NewCreation => snd (startNewCreation w)
  end.

Fixpoint run (ops : list operation) (w : World) : World :=
  match ops with
  | [] => w
  | o :: rest => run rest (apply_operation o w)
  end.

(** Each reading of the clock is later than the one before. *)
Definition advancing (clock : nat -> Z) : Prop :=
  forall i j, i < j -> (clock i < clock j)%Z.

(** The ids of the history are the readings of the clock at pairwise
    different calls of [Date.now()] already made. *)
Definition ids_from_clock (w : World) : Prop :=
  exists calls,
    map id (messages (this w))
    = map (fun k => Number_toString (clock w k)) calls
    /\ NoDup calls
    /\ Forall (fun k => k < reads w) calls.

(** What the manager holds of the dialogue fits the step it is at: no
    theme before one was given, a theme and no title while the title is
    asked for, both once the prompt is generated. *)
Definition coherent (cm : ConversationManager) : Prop :=
  match state cm with
  | IDLE | ASKING_THEME => currentTheme cm = None /\ currentTitle cm = None
  | ASKING_TITLE => currentTheme cm <> None /\ currentTitle cm = None
  | GENERATING => currentTheme cm <> None /\ currentTitle cm <> None
  end.

(** A clock that moves on by a millisecond between two readings. *)
Definition ticking (k : nat) : Z := (1700000000000 + Z.of_nat k)%Z.

Definition ticking_session : World :=
  {| this := new_ConversationManager; clock := ticking; reads := 0 |}.

(** A manager that asks for the title of a paper about the
    supermarket. *)
Definition asking_title : World :=
  {| this := {| state := ASKING_TITLE; currentTheme := Some "超市";
                currentTitle := None; messages := [] |};
     clock := ticking; reads := 0 |}.


(** A catalog as [getAvailableThemes] shows it, in the catalog's own
    order. *)
Definition listed (catalog : Catalog) : list ThemeInfo :=
  map (fun kv =>
         {| ti_id := fst kv;
            ti_name := name (snd kv);
            ti_icon := icon (snd kv);
            ti_titles := titles (snd kv) |})
      catalog.

End Dialogue.


(* ================================================================= *)
(** ** Properties of the conversation flow *)

Section Conversation.
Import Business Session.

Lemma addMessage_run (message : MessageInit) (w : World) :
  addMessage message w
  = (Return tt,
     {| this := {| state := state (this w);
                   currentTheme := currentTheme (this w);
                   currentTitle := currentTitle (this w);
                   messages := (messages (this w) ++ [stored message w])%list |};
        clock := clock w;
        reads := S (S (reads w)) |}).
Proof. reflexivity. Qed.

(** The state the dispatch of [handleUserInput] sees is the one the
    call started in: the user message is pushed first and changes only
    the history and the clock. *)
Lemma handleUserInput_rejects (input : string) (w : World) :
  state (this w) = IDLE \/ state (this w) = GENERATING ->
  handleUserInput input w
  = (Throw (Error "Invalid conversation state"),
     snd (addMessage (user_message input) w)).
Proof.
  intros H. unfold handleUserInput, bind, current.
  change (addMessage {| mi_type := user; mi_content := input; mi_prompt := None |})
    with (addMessage (user_message input)).
  rewrite addMessage_run. cbn [snd this state].
  destruct H as [-> | ->]; reflexivity.
Qed.

(** C9.  In the states [IDLE] and [GENERATING], [handleUserInput] fails
    with the error "Invalid conversation state" for every input, and
    the current theme, the current title and the conversation state
    after the call are those before it. *)
Theorem handleUserInput_invalid_state (input : string) (w : World) :
  state (this w) = IDLE \/ state (this w) = GENERATING ->
  exists w',
    handleUserInput input w = (Throw (Error "Invalid conversation state"), w')
    /\ currentTheme (this w') = currentTheme (this w)
    /\ currentTitle (this w') = currentTitle (this w)
    /\ state (this w') = state (this w).
Proof.
  intros H. eexists. split.
  - apply handleUserInput_rejects, H.
  - rewrite addMessage_run. cbn. auto.
Qed.

(** The history after [handleUserInput] always starts with the history
    before it followed by the user's message. *)
Lemma handleUserInput_pushes_first (input : string) (w : World) :
  exists later,
    messages (this (snd (handleUserInput input w)))
    = (messages (this w) ++ stored (user_message input) w :: later)%list.
Proof.
  unfold handleUserInput, bind, current.
  change (addMessage {| mi_type := user; mi_content := input; mi_prompt := None |})
    with (addMessage (user_message input)).
  rewrite addMessage_run. cbn [snd this state].
  destruct (state (this w)).
  - exists []. reflexivity.
  - eexists. cbn. rewrite <- app_assoc. reflexivity.
  - eexists. cbn. rewrite <- app_assoc. reflexivity.
  - exists []. reflexivity.
Qed.

(** C10.  Whatever the conversation state, the history after
    [handleUserInput input] is the history before it, then a [user]
    message with content [input], then what the dispatch added; and a
    call made in [IDLE] or [GENERATING] raises "Invalid conversation
    state" while the history has grown by exactly that one message. *)
Theorem handleUserInput_push_precedes_dispatch (input : string) (w : World) :
  (exists m later,
      messages (this (snd (handleUserInput input w)))
      = (messages (this w) ++ m :: later)%list
      /\ m_type m = user /\ m_content m = input)
  /\ (state (this w) = IDLE \/ state (this w) = GENERATING ->
      fst (handleUserInput input w) = Throw (Error "Invalid conversation state")
      /\ (exists m,
             messages (this (snd (handleUserInput input w)))
             = (messages (this w) ++ [m])%list
             /\ m_type m = user /\ m_content m = input)
      /\ List.length (messages (this (snd (handleUserInput input w))))
         = S (List.length (messages (this w)))).
Proof.
  split.
  - destruct (handleUserInput_pushes_first input w) as [later E].
    exists (stored (user_message input) w), later. auto.
  - intros H. rewrite (handleUserInput_rejects input w H).
    rewrite addMessage_run. cbn [fst snd this messages].
    split; [reflexivity | split].
    + exists (stored (user_message input) w). auto.
    + rewrite length_app. cbn. lia.
Qed.

Lemma handleUserInput_invalid_state_witness :
  (state (this idle_world) = IDLE \/ state (this idle_world) = GENERATING)
  /\ exists w',
       handleUserInput "超市" idle_world
       = (Throw (Error "Invalid conversation state"), w')
       /\ currentTheme (this w') = currentTheme (this idle_world)
       /\ currentTitle (this w') = currentTitle (this idle_world)
       /\ state (this w') = state (this idle_world).
Proof.
  split; [left; reflexivity |].
  apply (handleUserInput_invalid_state "超市" idle_world).
  left; reflexivity.
Defined.

Lemma handleUserInput_push_precedes_dispatch_witness :
  (state (this idle_world) = IDLE \/ state (this idle_world) = GENERATING)
  /\ fst (handleUserInput "超市" idle_world)
     = Throw (Error "Invalid conversation state")
  /\ List.length (messages (this (snd (handleUserInput "超市" idle_world))))
     = S (List.length (messages (this idle_world))).
Proof.
  split; [left; reflexivity |].
  destruct (handleUserInput_push_precedes_dispatch "超市" idle_world) as [_ H].
  destruct (H (or_introl eq_refl)) as [E [_ L]].
  split; [exact E | exact L].
Defined.

(** C2, as the program behaves.  After [startConversation] and one
    [handleUserInput] handled within a single millisecond, the user's
    message and the system reply pushed by that call carry the same id,
    so the ids of the history are not pairwise distinct. *)
Theorem message_ids_collide :
  map id (messages (this (snd ((startConversation ;;; handleUserInput "超市")
                                 fresh_session))))
  = ["1700000000000"; "1700000000250"; "1700000000250"]
  /\ ~ NoDup (map id (messages (this (snd ((startConversation ;;;
                                           handleUserInput "超市")
                                            fresh_session))))).
Proof.
  assert (E : map id (messages (this (snd ((startConversation ;;;
                                            handleUserInput "超市")
                                             fresh_session))))
              = ["1700000000000"; "1700000000250"; "1700000000250"])
    by (vm_compute; reflexivity).
  split; [exact E |].
  rewrite E. intros H.
  inversion H as [| ? ? _ H1]; subst.
  inversion H1 as [| ? ? H2 _]; subst.
  apply H2. left. reflexivity.
Qed.

End Conversation.

(* ================================================================= *)
(** ** Properties of the prompt template *)

Section Replacement.
Import JSString Template.

Lemma startsWith_app (pat rest : string) : startsWith (pat ++ rest) pat = true.
Proof.
  unfold startsWith. induction pat as [| a p IH]; cbn.
  - destruct rest; reflexivity.
  - destruct (ascii_dec a a) as [_ | N]; [exact IH | contradiction].
Qed.

Lemma agree_false (pat t rest : string) :
  agree pat t = false -> startsWith (t ++ rest) pat = false.
Proof.
  unfold startsWith. revert t.
  induction pat as [| a p IH]; intros [| b t] H; cbn in *; try discriminate.
  destruct (ascii_dec a b) as [-> | N]; [| reflexivity].
  rewrite Ascii.eqb_refl in H. apply IH, H.
Qed.

Lemma GetSubstitution_plain (matched str : string) (pos : nat) (r : string) :
  plain r = true -> GetSubstitution matched str pos r = r.
Proof.
  induction r as [| c r IH]; [reflexivity |].
  cbn [plain GetSubstitution]. intros H.
  apply andb_true_iff in H as [H Hr]. apply andb_true_iff in H as [Hd _].
  apply negb_true_iff in Hd. rewrite Hd, (IH Hr). reflexivity.
Qed.

Lemma replace_scan_lit (pat repl str : string) :
  plain repl = true ->
  forall s skip pos,
    replace_scan pat repl str skip pos s = replace_lit pat repl skip s.
Proof.
  intros P. induction s as [| c s IH]; intros skip pos; [reflexivity |].
  cbn [replace_scan replace_lit]. destruct skip as [| k]; [| apply IH].
  destruct (startsWith (String c s) pat).
  - rewrite (GetSubstitution_plain _ _ _ _ P), IH. reflexivity.
  - rewrite IH. reflexivity.
Qed.

Lemma replace_lit_skip (pat repl u rest : string) :
  replace_lit pat repl (String.length u) (u ++ rest) = replace_lit pat repl 0 rest.
Proof.
  induction u as [| c u IH]; cbn [String.length append replace_lit].
  - destruct rest; reflexivity.
  - exact IH.
Qed.

Lemma replace_lit_inert (pat repl seg : string) :
  no_overlap pat seg = true ->
  forall rest,
    replace_lit pat repl 0 (seg ++ rest) = seg ++ replace_lit pat repl 0 rest.
Proof.
  induction seg as [| c seg IH]; intros H rest; [reflexivity |].
  cbn [no_overlap] in H. apply andb_true_iff in H as [A N].
  apply negb_true_iff in A.
  cbn [append replace_lit].
  change (String c (seg ++ rest)) with (String c seg ++ rest).
  rewrite (agree_false _ _ rest A), (IH N). reflexivity.
Qed.

Lemma replace_lit_match (pat repl rest : string) :
  pat <> EmptyString ->
  replace_lit pat repl 0 (pat ++ rest) = repl ++ replace_lit pat repl 0 rest.
Proof.
  intros NE. destruct pat as [| c p]; [contradiction |].
  cbn [append replace_lit].
  change (String c (p ++ rest)) with (String c p ++ rest).
  rewrite startsWith_app. cbn [String.length Nat.sub].
  rewrite Nat.sub_0_r, replace_lit_skip. reflexivity.
Qed.

Lemma agree_refl (p : string) : agree p p = true.
Proof.
  induction p as [| a p IH]; [reflexivity |].
  cbn. rewrite Ascii.eqb_refl. exact IH.
Qed.

Lemma no_overlap_self (pat : string) :
  pat <> EmptyString -> no_overlap pat pat = false.
Proof.
  destruct pat as [| c p]; [contradiction | intros _].
  cbn [no_overlap]. rewrite agree_refl. reflexivity.
Qed.

Lemma replace_lit_render (pat repl : string) (l : list piece) :
  pat <> EmptyString ->
  forallb (inertb pat) l = true ->
  replace_lit pat repl 0 (render l) = render (fill pat repl l).
Proof.
  intros NE. induction l as [| p l IH]; intros H; [reflexivity |].
  cbn [forallb] in H. apply andb_true_iff in H as [Hp Hl].
  cbn [render fill map]. fold (fill pat repl l).
  destruct p as [s | x]; cbn [content inertb] in *.
  - rewrite (replace_lit_inert _ _ _ Hp), (IH Hl). reflexivity.
  - destruct (String.eqb x pat) eqn:E.
    + apply String.eqb_eq in E. subst x. cbn [content].
      rewrite (replace_lit_match _ _ _ NE), (IH Hl). reflexivity.
    + cbn [orb] in Hp. cbn [content].
      rewrite (replace_lit_inert _ _ _ Hp), (IH Hl). reflexivity.
Qed.

Lemma replace_g_render (pat repl : string) (l : list piece) :
  pat <> EmptyString ->
  plain repl = true ->
  forallb (inertb pat) l = true ->
  replace_g pat repl (render l) = render (fill pat repl l).
Proof.
  intros NE P H. unfold replace_g.
  rewrite (replace_scan_lit _ _ _ P). apply replace_lit_render; assumption.
Qed.

(** A plain text cannot hold the start of a placeholder. *)
Lemma plain_no_overlap (p t : string) :
  plain t = true -> no_overlap (String "{" p) t = true.
Proof.
  induction t as [| c t IH]; [reflexivity |].
  cbn [plain no_overlap agree]. intros H.
  apply andb_true_iff in H as [H Ht]. apply andb_true_iff in H as [_ Hb].
  apply negb_true_iff in Hb.
  rewrite (Ascii.eqb_sym "{" c), Hb. cbn. apply IH, Ht.
Qed.

Lemma inertb_fill (pat ph v : string) (l : list piece) :
  no_overlap pat v = true ->
  forallb (inertb pat) l = true ->
  forallb (inertb pat) (fill ph v l) = true.
Proof.
  intros Hv. induction l as [| p l IH]; intros H; [reflexivity |].
  cbn [forallb] in H. apply andb_true_iff in H as [Hp Hl].
  cbn [fill map forallb]. fold (fill ph v l). rewrite (IH Hl), andb_true_r.
  destruct p as [s | x]; [exact Hp |].
  destruct (String.eqb x ph); [exact Hv | exact Hp].
Qed.

End Replacement.

Section Prompt.
Import JSString Business Template.

Lemma template_cut : render template_pieces = template.
Proof. vm_compute. reflexivity. Qed.

(** C7, amended.  The template holds nine placeholder sites of five
    placeholders: the theme placeholder at five sites, the title
    placeholder and each of the three list placeholders at one site,
    which for a list is the line under the heading of its own section.
    When the theme, the title and the three formatted lists contain
    neither [$] nor an opening brace, the result of [generatePrompt] is
    the template with every one of the nine sites replaced by the value
    of its placeholder and the text between the sites unchanged. *)
Theorem generatePrompt_fills_every_site :
  render template_pieces = template
  /\ slots template_pieces
     = [ph_theme; ph_title; ph_theme; ph_theme; ph_theme; ph_theme;
        ph_characters; ph_items; ph_environment]
  /\ (count_sites ph_theme template = 5
      /\ count_sites ph_title template = 1
      /\ count_sites ph_characters template = 1
      /\ count_sites ph_items template = 1
      /\ count_sites ph_environment template = 1
      /\ count_sites "{{" template = 9)
  /\ (under_heading "**1. 核心角色与设施：**" ph_characters = true
      /\ under_heading "**2. 常见物品/工具：**" ph_items = true
      /\ under_heading "**3. 环境与装饰：**" ph_environment = true)
  /\ forall (vg : VocabularyGenerator) (theme title : string),
      let f := formatVocabularies (generateVocabulary vg theme) in
      plain theme = true ->
      plain title = true ->
      plain (f_characters f) = true ->
      plain (f_items f) = true ->
      plain (f_environment f) = true ->
      generatePrompt (generator vg) theme title
      = filled theme title f template_pieces.
Proof.
  split; [apply template_cut |].
  split; [reflexivity |].
  split; [vm_compute; repeat split; reflexivity |].
  split; [vm_compute; repeat split; reflexivity |].
  intros vg theme title f Pth Pti Pc Pi Pe.
  unfold generatePrompt. cbn [pg_template vocabularyGenerator generator].
  fold f. rewrite <- template_cut.
  assert (NE : forall p, String "{" p <> EmptyString) by (intros p; discriminate).
  rewrite (replace_g_render ph_theme theme);
    [| apply NE | exact Pth | vm_compute; reflexivity].
  rewrite (replace_g_render ph_title title);
    [| apply NE | exact Pti
     | apply inertb_fill; [apply plain_no_overlap, Pth | vm_compute; reflexivity]].
  rewrite (replace_g_render ph_characters (f_characters f));
    [| apply NE | exact Pc
     | repeat (apply inertb_fill; [apply plain_no_overlap; assumption |]);
       vm_compute; reflexivity].
  rewrite (replace_g_render ph_items (f_items f));
    [| apply NE | exact Pi
     | repeat (apply inertb_fill; [apply plain_no_overlap; assumption |]);
       vm_compute; reflexivity].
  rewrite (replace_g_render ph_environment (f_environment f));
    [| apply NE | exact Pe
     | repeat (apply inertb_fill; [apply plain_no_overlap; assumption |]);
       vm_compute; reflexivity].
  reflexivity.
Qed.

Lemma generatePrompt_fills_every_site_witness :
  plain "超市" = true
  /\ plain "走进超市" = true
  /\ plain (f_characters (formatVocabularies (generateVocabulary loaded_default "超市")))
     = true
  /\ plain (f_items (formatVocabularies (generateVocabulary loaded_default "超市")))
     = true
  /\ plain (f_environment (formatVocabularies (generateVocabulary loaded_default "超市")))
     = true
  /\ generatePrompt (generator loaded_default) "超市" "走进超市"
     = filled "超市" "走进超市"
         (formatVocabularies (generateVocabulary loaded_default "超市"))
         template_pieces.
Proof.
  repeat (split; [reflexivity |]).
  destruct generatePrompt_fills_every_site as [_ [_ [_ [_ H]]]].
  apply (H loaded_default "超市" "走进超市"); reflexivity.
Defined.

(** C7 as stated fails: the theme placeholder does not stand at two
    sites of the template but at five. *)
Lemma theme_placeholder_not_at_two_sites :
  ~ (count_sites ph_theme template = 2).
Proof. vm_compute. discriminate. Qed.

(** C6, as the program behaves.  With the title [$$] the prompt holds a
    single dollar sign at the title site and the title itself nowhere;
    a title that is the text of a later placeholder is overwritten by
    that placeholder's list. *)
Theorem generatePrompt_loses_title :
  includes (generatePrompt (generator loaded_default) "超市" "$$") "$$" = false
  /\ includes (generatePrompt (generator loaded_default) "超市" "$$") "《$》" = true
  /\ includes (generatePrompt (generator loaded_default) "超市" "{{常见物品工具}}")
       "{{常见物品工具}}" = false
  /\ includes (generatePrompt (generator loaded_default) "超市" "{{常见物品工具}}")
       "《píng guǒ 苹果, niú nǎi 牛奶》" = true.
Proof. vm_compute. repeat split; reflexivity. Qed.

End Prompt.

(* ================================================================= *)
(** ** Properties of the theme lookup *)

Section EntriesOrder.
Import JSObject Lookup.
Context {A : Type}.

Lemma insert_by_index_in (i : N) (kv : string * A) l x :
  In x (insert_by_index i kv l) <-> x = (i, kv) \/ In x l.
Proof.
  induction l as [| [j kv'] l IH]; cbn.
  - intuition.
  - destruct (i <? j)%N; cbn; [intuition |]. rewrite IH. intuition.
Qed.

Lemma insert_by_index_sorted (i : N) (kv : string * A) l :
  Sorted by_index l -> Sorted by_index (insert_by_index i kv l).
Proof.
  induction 1 as [| [j kv'] l S IH H]; cbn.
  - repeat constructor.
  - destruct (i <? j)%N eqn:E.
    + apply N.ltb_lt in E. constructor; [constructor; assumption |].
      constructor. unfold by_index. cbn. lia.
    + apply N.ltb_ge in E. constructor; [exact IH |].
      destruct l as [| [k kv''] l]; cbn.
      * constructor. unfold by_index. cbn. lia.
      * destruct (i <? k)%N; constructor; unfold by_index; cbn; [lia |].
        inversion H; subst. assumption.
Qed.

Lemma index_keys_sorted (o : t A) : Sorted by_index (index_keys o).
Proof.
  induction o as [| kv o IH]; cbn; [constructor |].
  destruct (array_index (fst kv)); [apply insert_by_index_sorted, IH | exact IH].
Qed.

Lemma index_keys_in (o : t A) i kv :
  In (i, kv) (index_keys o) <-> In kv o /\ array_index (fst kv) = Some i.
Proof.
  induction o as [| kv0 o IH]; cbn; [intuition |].
  destruct (array_index (fst kv0)) as [j |] eqn:E.
  - rewrite insert_by_index_in, IH. split.
    + intros [X | [X Y]]; [injection X as <- <-; auto | auto].
    + intros [[-> | X] Y]; [left; congruence | auto].
  - rewrite IH. split; [intuition |].
    intros [[-> | X] Y]; [congruence | auto].
Qed.

Lemma name_keys_filter (o : t A) : name_keys o = filter named o.
Proof.
  induction o as [| kv o IH]; cbn; [reflexivity |]. unfold named at 1.
  destruct (array_index (fst kv)); rewrite IH; reflexivity.
Qed.

(** [Object.entries]: the properties whose key is an array index, by
    ascending index, then the others as they were created. *)
Lemma entries_order (o : t A) :
  exists indexed,
    entries o = (map snd indexed ++ filter named o)%list
    /\ Sorted by_index indexed
    /\ forall i kv,
         In (i, kv) indexed <-> In kv o /\ array_index (fst kv) = Some i.
Proof.
  exists (index_keys o). unfold entries. rewrite name_keys_filter.
  split; [reflexivity | split; [apply index_keys_sorted |]].
  intros i kv. apply index_keys_in.
Qed.

End EntriesOrder.

Section ThemeLookup.
Import JSString Business Lookup.

Lemma startsWith_spec (s p : string) :
  startsWith s p = true <-> exists b, s = p ++ b.
Proof.
  unfold startsWith. revert s. induction p as [| a p IH]; intros s.
  - split; [intros _; exists s; reflexivity | intros _; destruct s; reflexivity].
  - destruct s as [| c s]; cbn.
    + split; [discriminate | intros [b E]; discriminate].
    + destruct (ascii_dec a c) as [-> | N].
      * rewrite IH. split; intros [b E]; exists b.
        -- rewrite E. reflexivity.
        -- injection E as E. exact E.
      * split; [discriminate | intros [b E]; injection E as E1 _; congruence].
Qed.

Lemma includes_spec (s p : string) :
  includes s p = true <-> occurs_in p s.
Proof.
  unfold occurs_in. induction s as [| c s IH]; cbn [includes].
  - rewrite orb_false_r, startsWith_spec. split.
    + intros [b E]. exists EmptyString, b. exact E.
    + intros [a [b E]]. destruct a; [exists b; exact E | discriminate].
  - rewrite orb_true_iff, startsWith_spec, IH. split.
    + intros [[b E] | [a [b E]]].
      * exists EmptyString, b. exact E.
      * exists (String c a), b. rewrite E. reflexivity.
    + intros [a [b E]]. destruct a as [| x a].
      * left. exists b. exact E.
      * right. injection E as _ E. exists a, b. exact E.
Qed.

Lemma related_spec (display query : string) :
  includes display query || includes query display = true
  <-> related display query.
Proof.
  unfold related. rewrite orb_true_iff, !includes_spec. reflexivity.
Qed.

Lemma first_such_here (P : Theme -> Prop) k th es :
  P th -> first_such P ((k, th) :: es) th.
Proof. intros H. exists [], k, es. repeat split; [exact H | constructor]. Qed.

Lemma first_such_later (P : Theme -> Prop) k th0 es th :
  ~ P th0 -> first_such P es th -> first_such P ((k, th0) :: es) th.
Proof.
  intros N (before & k' & after & -> & H & F).
  exists ((k, th0) :: before), k', after.
  repeat split; [exact H | constructor; [exact N | exact F]].
Qed.

Lemma find_exact_spec (es : list (string * Theme)) (query : string) :
  match find_exact es query with
  | Some th => first_such (fun t => name t = query) es th
  | None => Forall (fun e => name (snd e) <> query) es
  end.
Proof.
  induction es as [| [k th0] es IH]; cbn [find_exact]; [constructor |].
  destruct (String.eqb (name th0) query) eqn:E.
  - apply String.eqb_eq in E. apply first_such_here, E.
  - apply String.eqb_neq in E. destruct (find_exact es query).
    + apply first_such_later; assumption.
    + constructor; assumption.
Qed.

Lemma find_fuzzy_spec (es : list (string * Theme)) (query : string) :
  match find_fuzzy es query with
  | Some th => first_such (fun t => related (name t) query) es th
  | None => Forall (fun e => ~ related (name (snd e)) query) es
  end.
Proof.
  induction es as [| [k th0] es IH]; cbn [find_fuzzy]; [constructor |].
  destruct (includes (name th0) query || includes query (name th0)) eqn:E.
  - apply related_spec in E. apply first_such_here, E.
  - assert (N : ~ related (name th0) query)
      by (intros R; apply related_spec in R; congruence).
    destruct (find_fuzzy es query).
    + apply first_such_later; assumption.
    + constructor; assumption.
Qed.

Lemma keys_without_index (A : Type) (o : JSObject.t A) :
  Forall (fun kv => JSObject.array_index (fst kv) = None) o ->
  JSObject.index_keys o = [] /\ JSObject.name_keys o = o.
Proof.
  induction 1 as [| kv o H _ [I N]]; [split; reflexivity |].
  cbn [JSObject.index_keys JSObject.name_keys]. rewrite H, I, N.
  split; reflexivity.
Qed.

Lemma entries_without_index (A : Type) (o : JSObject.t A) :
  Forall (fun kv => JSObject.array_index (fst kv) = None) o ->
  JSObject.entries o = o.
Proof.
  intros H. destruct (keys_without_index A o H) as [I N].
  unfold JSObject.entries. rewrite I, N. reflexivity.
Qed.

(** C8, amended.  On a loaded catalog, [getThemeByName] returns the
    first theme in [Object.entries] order whose display name equals the
    query when there is one; otherwise the first theme in that order
    whose display name contains the query or is contained in it;
    otherwise nothing.  An exact match is thus preferred to every
    substring match.  [Object.entries] order puts the themes whose
    identifier is an array index first, by ascending index, and then the
    other themes in insertion order; it is the catalog's insertion order
    when no theme identifier is an array index. *)
Theorem getThemeByName_first_match (catalog : Catalog) (query : string) :
  let es := JSObject.entries catalog in
  match getThemeByName (loaded catalog) query with
  | Some th =>
      first_such (fun t => name t = query) es th
      \/ (Forall (fun e => name (snd e) <> query) es
          /\ first_such (fun t => related (name t) query) es th)
  | None =>
      Forall (fun e => name (snd e) <> query) es
      /\ Forall (fun e => ~ related (name (snd e)) query) es
  end
  /\ (exists indexed,
         es = (map snd indexed ++ filter named catalog)%list
         /\ Sorted by_index indexed
         /\ forall i kv,
              In (i, kv) indexed
              <-> In kv catalog /\ JSObject.array_index (fst kv) = Some i)
  /\ (Forall (fun kv => JSObject.array_index (fst kv) = None) catalog ->
      es = catalog).
Proof.
  intros es. split; [| split; [apply entries_order | apply entries_without_index]].
  unfold getThemeByName. cbn [themes loaded]. fold es.
  pose proof (find_exact_spec es query) as X.
  pose proof (find_fuzzy_spec es query) as Z.
  destruct (find_exact es query); [left; exact X |].
  destruct (find_fuzzy es query); [right |]; split; assumption.
Qed.

Lemma getThemeByName_first_match_witness :
  Forall (fun kv => JSObject.array_index (fst kv) = None) getDefaultThemes
  /\ JSObject.entries getDefaultThemes = getDefaultThemes
  /\ getThemeByName (loaded getDefaultThemes) "逛超市"
     = Some (snd (hd ("", bare_theme "") getDefaultThemes)).
Proof.
  assert (F : Forall (fun kv => JSObject.array_index (fst kv) = None)
                     getDefaultThemes)
    by (repeat constructor).
  split; [exact F | split].
  - exact (proj2 (proj2 (getThemeByName_first_match getDefaultThemes "逛超市")) F).
  - reflexivity.
Defined.

(** C8 as stated fails: in [numbered_catalog] the theme inserted first
    whose name contains the query is not the one returned. *)
Lemma getThemeByName_not_insertion_order :
  getThemeByName (loaded numbered_catalog) "园" = Some (bare_theme "动物园")
  /\ findTheme_insertion_order numbered_catalog "园" = Some (bare_theme "公园")
  /\ getThemeByName (loaded numbered_catalog) "园"
     <> findTheme_insertion_order numbered_catalog "园".
Proof.
  repeat split; try reflexivity. vm_compute. discriminate.
Qed.

End ThemeLookup.

(* ================================================================= *)
(** ** Properties of the remote job client *)

Section Polling.
Import JSString Api Scenario Attempts.

Variables (c : KieAIClient) (task : string) (n interval : nat)
          (onProgress : option Callback).

Local Abbreviation attempt := (try_block c task n interval onProgress).
Local Abbreviation loop fuel := (poll_loop fuel c task n interval onProgress).
Local Abbreviation at_attempt k w := (reached c task n interval onProgress k w).
Local Abbreviation none_returned k w := (undecided c task n interval onProgress k w).

(** A turn that does not end the call moves to the next attempt, and the
    model of a turn needs no fuel. *)
Lemma try_block_next (a : nat) (w : World) :
  match fst (attempt a w) with
  | Return (Again a') => a' = a + 1
  | OutOfFuel => False
  | _ => True
  end.
Proof.
  unfold try_block, queryTask, bind, current, emit, count_poll, modify, checked,
    data_of, call_progress, sleep, emit, modify, ret, throw.
  cbn.
  destruct (on_recordInfo (remote w) (polls w)) as [e | r]; cbn; [exact I |].
  destruct (code r =? 200)%Z; cbn; [| exact I].
  destruct (data r) as [d |]; cbn; [| exact I].
  destruct onProgress as [f |]; cbn.
  - destruct (f _); cbn; [exact I |].
    destruct (String.eqb (state d) "success"); cbn; [exact I |].
    destruct (String.eqb (state d) "fail"); cbn; [exact I | reflexivity].
  - destruct (String.eqb (state d) "success"); cbn; [exact I |].
    destruct (String.eqb (state d) "fail"); cbn; [exact I | reflexivity].
Qed.

Lemma loop_step (fuel a : nat) (w : World) :
  a < n ->
  loop (S fuel) a w
  = match attempt a w with
    | (Return (Done result), w') => (Return result, w')
    | (Return (Again a'), w') => loop fuel a' w'
    | (Throw e, w') =>
        if (a =? n - 1)%nat then (Throw e, w') else loop fuel (a + 1) w'
    | (OutOfFuel, w') => (OutOfFuel, w')
    end.
Proof.
  intros L. apply Nat.ltb_lt in L.
  cbn [poll_loop]. rewrite L.
  unfold bind at 1. unfold try_catch, catch_block.
  destruct (attempt a w) as [[[r | a'] | e |] w']; try reflexivity.
  destruct (a =? n - 1)%nat; reflexivity.
Qed.

Lemma loop_exit (fuel a : nat) (w : World) :
  n <= a -> loop fuel a w = (Throw timeout_error, w).
Proof.
  intros L. apply Nat.ltb_ge in L.
  destruct fuel; cbn [poll_loop]; rewrite L; reflexivity.
Qed.

(** With as much fuel as attempts remain the loop runs to its end. *)
Lemma loop_total (fuel : nat) :
  forall a w, n - a <= fuel -> fst (loop fuel a w) <> OutOfFuel.
Proof.
  induction fuel as [| fuel IH]; intros a w F.
  - rewrite loop_exit by lia. discriminate.
  - destruct (Nat.lt_ge_cases a n) as [L | G];
      [| rewrite loop_exit by lia; discriminate].
    rewrite (loop_step _ _ _ L).
    pose proof (try_block_next a w) as T.
    destruct (attempt a w) as [[[r | a'] | e |] w']; cbn [fst] in T.
    + discriminate.
    + subst a'. apply IH. lia.
    + destruct (a =? n - 1)%nat; [discriminate | apply IH; lia].
    + contradiction.
Qed.

(** Every attempt sends exactly one request. *)
Lemma attempt_polls (a : nat) (w : World) :
  polls (snd (attempt a w)) = S (polls w).
Proof.
  unfold try_block, queryTask, bind, current, emit, count_poll, modify, checked,
    data_of, call_progress, sleep, emit, modify, ret, throw.
  cbn.
  destruct (on_recordInfo (remote w) (polls w)) as [e | r]; cbn; [reflexivity |].
  destruct (code r =? 200)%Z; cbn; [| reflexivity].
  destruct (data r) as [d |]; cbn; [| reflexivity].
  destruct onProgress as [f |]; cbn.
  - destruct (f _); cbn; [reflexivity |].
    destruct (String.eqb (state d) "success"); cbn; [reflexivity |].
    destruct (String.eqb (state d) "fail"); cbn; reflexivity.
  - destruct (String.eqb (state d) "success"); cbn; [reflexivity |].
    destruct (String.eqb (state d) "fail"); cbn; reflexivity.
Qed.

Lemma reached_polls (k : nat) (w : World) :
  polls (at_attempt k w) = polls w + k.
Proof.
  induction k as [| k IH]; cbn [reached]; [lia |].
  rewrite attempt_polls, IH. lia.
Qed.

Lemma undecided_before (k j : nat) (w : World) :
  j <= k -> none_returned k w -> none_returned j w.
Proof. intros L U i r H. apply U. lia. Qed.

Lemma undecided_next (k : nat) (w : World) :
  none_returned k w ->
  (forall r, fst (attempt k (at_attempt k w)) <> Return (Done r)) ->
  none_returned (S k) w.
Proof.
  intros U H i r L. destruct (Nat.eq_dec i k) as [-> | N]; [apply H |].
  apply U. lia.
Qed.

(** As long as no attempt returned a result and the last attempt is not
    yet made, the call is at the next attempt, in the world the attempts
    made so far have left, whatever went wrong in them. *)
Lemma loop_reaches (k : nat) (w : World) :
  k < n ->
  none_returned k w ->
  pollUntilComplete c task n interval onProgress w
  = loop (n - k) k (at_attempt k w).
Proof.
  unfold pollUntilComplete. induction k as [| k IH]; intros L U.
  - rewrite Nat.sub_0_r. reflexivity.
  - rewrite IH; [| lia | apply (undecided_before (S k)); [lia | exact U]].
    replace (n - k) with (S (n - S k)) by lia.
    rewrite loop_step by lia. cbn [reached].
    pose proof (try_block_next k (at_attempt k w)) as T.
    pose proof (U k) as D.
    destruct (attempt k (at_attempt k w)) as [[[r | a'] | e |] w1];
      cbn [fst snd] in *.
    + exfalso. apply (D r); [lia | reflexivity].
    + subst a'. replace (k + 1) with (S k) by lia. reflexivity.
    + replace (k =? n - 1)%nat with false by (symmetry; apply Nat.eqb_neq; lia).
      replace (k + 1) with (S k) by lia. reflexivity.
    + contradiction.
Qed.

(** The loop never takes back a request and sends at most one for each
    attempt that remains. *)
Lemma loop_polls (fuel : nat) :
  forall a w,
    polls w <= polls (snd (loop fuel a w)) <= polls w + (n - a).
Proof.
  induction fuel as [| fuel IH]; intros a w.
  - destruct (Nat.lt_ge_cases a n) as [L | G].
    + apply Nat.ltb_lt in L. cbn [poll_loop]. rewrite L. cbn [snd]. lia.
    + rewrite loop_exit by exact G. cbn [snd]. lia.
  - destruct (Nat.lt_ge_cases a n) as [L | G];
      [| rewrite loop_exit by exact G; cbn [snd]; lia].
    rewrite loop_step by exact L.
    pose proof (attempt_polls a w) as P.
    pose proof (try_block_next a w) as T.
    destruct (attempt a w) as [[[r | a'] | e |] w1]; cbn [fst snd] in *.
    + lia.
    + subst a'. specialize (IH (a + 1) w1). lia.
    + destruct (a =? n - 1)%nat; [cbn [snd]; lia |].
      specialize (IH (a + 1) w1). lia.
    + contradiction.
Qed.

(** An attempt that sends its request sends the first request of what
    the loop does from there. *)
Lemma loop_polls_once (fuel a : nat) (w : World) :
  a < n -> S (polls w) <= polls (snd (loop (S fuel) a w)).
Proof.
  intros L. rewrite loop_step by exact L.
  pose proof (attempt_polls a w) as P.
  destruct (attempt a w) as [[[r | a'] | e |] w1]; cbn [fst snd] in *.
  - lia.
  - pose proof (proj1 (loop_polls fuel a' w1)). lia.
  - destruct (a =? n - 1)%nat; [cbn [snd]; lia |].
    pose proof (proj1 (loop_polls fuel (a + 1) w1)). lia.
  - lia.
Qed.

(** Either some attempt is the first to return a result, or none of the
    first [k] does. *)
Lemma first_result (k : nat) (w : World) :
  none_returned k w
  \/ exists i r, i < k /\ none_returned i w
                 /\ fst (attempt i (at_attempt i w)) = Return (Done r).
Proof.
  induction k as [| k [U | (i & r & L & U & E)]].
  - left. intros i r L. lia.
  - destruct (fst (attempt k (at_attempt k w))) as [[r | a'] | e |] eqn:E.
    + right. exists k, r. split; [lia | split; [exact U | exact E]].
    + left. apply undecided_next; [exact U |]. rewrite E. discriminate.
    + left. apply undecided_next; [exact U |]. rewrite E. discriminate.
    + left. apply undecided_next; [exact U |]. rewrite E. discriminate.
  - right. exists i, r. split; [lia | split; [exact U | exact E]].
Qed.

Lemma attempt_returns (k : nat) (w w1 : World) (r : Response TaskData) :
  k < n ->
  none_returned k w ->
  attempt k (at_attempt k w) = (Return (Done r), w1) ->
  pollUntilComplete c task n interval onProgress w = (Return r, w1).
Proof.
  intros L U E. rewrite (loop_reaches k w L U).
  replace (n - k) with (S (n - S k)) by lia.
  rewrite loop_step by exact L. rewrite E. reflexivity.
Qed.

Lemma last_attempt_throws (w w1 : World) (e : JSError) :
  0 < n ->
  none_returned (n - 1) w ->
  attempt (n - 1) (at_attempt (n - 1) w) = (Throw e, w1) ->
  pollUntilComplete c task n interval onProgress w = (Throw e, w1).
Proof.
  intros L U E. rewrite (loop_reaches (n - 1) w ltac:(lia) U).
  replace (n - (n - 1)) with 1 by lia.
  rewrite loop_step by lia. rewrite E, Nat.eqb_refl. reflexivity.
Qed.

Lemma last_attempt_pending (w w1 : World) (a' : nat) :
  0 < n ->
  none_returned (n - 1) w ->
  attempt (n - 1) (at_attempt (n - 1) w) = (Return (Again a'), w1) ->
  pollUntilComplete c task n interval onProgress w = (Throw timeout_error, w1).
Proof.
  intros L U E. rewrite (loop_reaches (n - 1) w ltac:(lia) U).
  replace (n - (n - 1)) with 1 by lia.
  rewrite loop_step by lia. rewrite E.
  pose proof (try_block_next (n - 1)
                (at_attempt (n - 1) w)) as T.
  rewrite E in T. cbn [fst] in T. subst a'.
  apply loop_exit. lia.
Qed.

(** C4.  In a call of [pollUntilComplete] with [maxAttempts = n], take
    the attempts in turn, each in the world the attempts before it have
    left.  An exception raised in an attempt before the last (a rejected
    request, a reply that is not accepted, a throwing callback, a task
    reported as failed) is swallowed: it is not the outcome of the
    call, the attempt is used up, having sent its one request, and the
    call goes on to send the next request, never more than [n] in all;
    in particular, when a later attempt is the first to return a result,
    the call returns that result, whatever was raised before.  The same
    exception raised in attempt [n] is the outcome of the call, in the
    world that attempt left.  Conversely an exception the caller
    receives is the one raised in attempt [n], or the time-out raised
    after the loop when attempt [n] ended without one (at once when
    [n = 0]); and the call always ends. *)
Theorem polling_error_only_from_last_attempt (w : World) :
  (forall k e w1,
      k + 1 < n ->
      none_returned k w ->
      attempt k (at_attempt k w) = (Throw e, w1) ->
      pollUntilComplete c task n interval onProgress w <> (Throw e, w1)
      /\ none_returned (k + 1) w
      /\ at_attempt (k + 1) w = w1
      /\ polls w1 = polls w + (k + 1)
      /\ polls w1 + 1 <= polls (snd (pollUntilComplete c task n interval onProgress w))
      /\ polls (snd (pollUntilComplete c task n interval onProgress w))
         <= polls w + n)
  /\ (forall k r w1,
         k < n ->
         none_returned k w ->
         attempt k (at_attempt k w) = (Return (Done r), w1) ->
         pollUntilComplete c task n interval onProgress w = (Return r, w1))
  /\ (forall e w1,
         0 < n ->
         none_returned (n - 1) w ->
         attempt (n - 1) (at_attempt (n - 1) w) = (Throw e, w1) ->
         pollUntilComplete c task n interval onProgress w = (Throw e, w1))
  /\ (forall e w',
         pollUntilComplete c task n interval onProgress w = (Throw e, w') ->
         (n = 0 /\ e = timeout_error /\ w' = w)
         \/ (0 < n
             /\ none_returned (n - 1) w
             /\ polls w' = polls w + n
             /\ (attempt (n - 1) (at_attempt (n - 1) w) = (Throw e, w')
                 \/ (e = timeout_error
                     /\ attempt (n - 1) (at_attempt (n - 1) w)
                        = (Return (Again n), w')))))
  /\ fst (pollUntilComplete c task n interval onProgress w) <> OutOfFuel.
Proof.
  split; [| split; [| split; [| split]]].
  - intros k e w1 L U E.
    assert (U1 : none_returned (k + 1) w).
    { replace (k + 1) with (S k) by lia. apply undecided_next; [exact U |].
      rewrite E. discriminate. }
    assert (R1 : at_attempt (k + 1) w = w1).
    { replace (k + 1) with (S k) by lia. cbn [reached]. rewrite E. reflexivity. }
    assert (P1 : polls w1 = polls w + (k + 1)) by (rewrite <- R1; apply reached_polls).
    assert (More : polls w1 + 1
                   <= polls (snd (pollUntilComplete c task n interval onProgress w))).
    { rewrite (loop_reaches (k + 1) w L U1), R1.
      replace (n - (k + 1)) with (S (n - (k + 2))) by lia.
      pose proof (loop_polls_once (n - (k + 2)) (k + 1) w1 L). lia. }
    split; [intros H; rewrite H in More; cbn [snd] in More; lia |].
    split; [exact U1 |]. split; [exact R1 |]. split; [exact P1 |].
    split; [exact More |].
    unfold pollUntilComplete. pose proof (proj2 (loop_polls n 0 w)). lia.
  - intros k r w1. apply attempt_returns.
  - intros e w1. apply last_attempt_throws.
  - intros e w' H. destruct n as [| m] eqn:N.
    + left. unfold pollUntilComplete in H. rewrite <- N in H.
      rewrite loop_exit in H by lia. injection H as <- <-. repeat split.
    + right. rewrite <- N in *. assert (L : 0 < n) by lia.
      destruct (first_result (n - 1) w) as [U | (i & r & Li & U & E)].
      2:{ destruct (attempt i (at_attempt i w)) as [o w1] eqn:A. cbn [fst] in E.
          subst o. rewrite (attempt_returns i w w1 r ltac:(lia) U A) in H.
          discriminate. }
      split; [exact L |]. split; [exact U |].
      pose proof (attempt_polls (n - 1) (at_attempt (n - 1) w)) as P.
      rewrite reached_polls in P.
      pose proof (try_block_next (n - 1)
                    (at_attempt (n - 1) w)) as T.
      destruct (attempt (n - 1) (at_attempt (n - 1) w)) as [[[r | a'] | e0 |] w1] eqn:A;
        cbn [fst snd] in *.
      * rewrite (attempt_returns (n - 1) w w1 r ltac:(lia) U A) in H. discriminate.
      * rewrite (last_attempt_pending w w1 a' L U A) in H. injection H as <- <-.
        split; [lia |]. right. split; [reflexivity |].
        subst a'. replace (n - 1 + 1) with n by lia. reflexivity.
      * rewrite (last_attempt_throws w w1 e0 L U A) in H. injection H as <- <-.
        split; [lia |]. left. reflexivity.
      * contradiction.
  - unfold pollUntilComplete. apply loop_total. lia.
Qed.

End Polling.

Section Generation.
Import JSString Api Scenario.

Lemma bind_return {S A B} (m : M S A) (k : A -> M S B) (s s' : S) (a : A) :
  m s = (Return a, s') -> bind m k s = k a s'.
Proof. intros E. unfold bind. rewrite E. reflexivity. Qed.

Lemma bind_throw {S A B} (m : M S A) (k : A -> M S B) (s s' : S) (e : JSError) :
  m s = (Throw e, s') -> bind m k s = (Throw e, s').
Proof. intros E. unfold bind. rewrite E. reflexivity. Qed.

(** A turn that sees a state other than [success] and [fail]. *)
Lemma try_block_pending (c : KieAIClient) (task : string) (n interval : nat)
      (cb : Callback) (a : nat) (w : World) (r : Response TaskData)
      (d : TaskData) :
  on_recordInfo (remote w) (polls w) = Resolved r ->
  code r = 200%Z ->
  data r = Some d ->
  cb {| p_state := state d; p_attempts := a + 1; p_maxAttempts := n |} = None ->
  String.eqb (state d) "success" = false ->
  String.eqb (state d) "fail" = false ->
  try_block c task n interval (Some cb) a w
  = (Return (Again (a + 1)),
     after_poll c task [progress (state d) (a + 1) n; Timer interval] w).
Proof.
  intros Hr Hc Hd Hcb Hs Hf.
  unfold try_block, queryTask, bind, current, emit, count_poll, modify, checked,
    data_of, call_progress, sleep, emit, modify, ret, throw.
  cbn. rewrite Hr. cbn. rewrite Hc. cbn. rewrite Hd. cbn. rewrite Hcb. cbn.
  rewrite Hs, Hf. cbn. unfold after_poll, progress. cbn.
  rewrite <- !app_assoc. reflexivity.
Qed.

(** A turn that sees the state [success]. *)
Lemma try_block_success (c : KieAIClient) (task : string) (n interval : nat)
      (cb : Callback) (a : nat) (w : World) (r : Response TaskData)
      (d : TaskData) :
  on_recordInfo (remote w) (polls w) = Resolved r ->
  code r = 200%Z ->
  data r = Some d ->
  cb {| p_state := state d; p_attempts := a + 1; p_maxAttempts := n |} = None ->
  state d = "success" ->
  try_block c task n interval (Some cb) a w
  = (Return (Done r), after_poll c task [progress "success" (a + 1) n] w).
Proof.
  intros Hr Hc Hd Hcb Hs.
  unfold try_block, queryTask, bind, current, emit, count_poll, modify, checked,
    data_of, call_progress, sleep, emit, modify, ret, throw.
  cbn. rewrite Hr. cbn. rewrite Hc. cbn. rewrite Hd. cbn. rewrite Hcb. cbn.
  rewrite Hs. cbn. unfold after_poll, progress. cbn.
  rewrite <- !app_assoc. reflexivity.
Qed.

(** A turn that sees the state [fail] raises the error made from
    [failMsg]. *)
Lemma try_block_fail (c : KieAIClient) (task : string) (n interval : nat)
      (cb : Callback) (a : nat) (w : World) (r : Response TaskData)
      (d : TaskData) :
  on_recordInfo (remote w) (polls w) = Resolved r ->
  code r = 200%Z ->
  data r = Some d ->
  cb {| p_state := state d; p_attempts := a + 1; p_maxAttempts := n |} = None ->
  state d = "fail" ->
  try_block c task n interval (Some cb) a w
  = (Throw (Error (or_default (failMsg d) "任务执行失败")),
     after_poll c task [progress "fail" (a + 1) n] w).
Proof.
  intros Hr Hc Hd Hcb Hs.
  unfold try_block, queryTask, bind, current, emit, count_poll, modify, checked,
    data_of, call_progress, sleep, emit, modify, ret, throw.
  cbn. rewrite Hr. cbn. rewrite Hc. cbn. rewrite Hd. cbn. rewrite Hcb. cbn.
  rewrite Hs. cbn. unfold after_poll, progress. cbn.
  rewrite <- !app_assoc. reflexivity.
Qed.

(** Before the last attempt that error is caught and the next poll is
    sent, without the wait; on the last attempt it is the outcome. *)
Lemma fail_state_by_attempt (c : KieAIClient) (task : string)
      (n interval : nat) (cb : Callback) (fuel a : nat) (w : World)
      (r : Response TaskData) (d : TaskData) :
  on_recordInfo (remote w) (polls w) = Resolved r ->
  code r = 200%Z ->
  data r = Some d ->
  cb {| p_state := state d; p_attempts := a + 1; p_maxAttempts := n |} = None ->
  state d = "fail" ->
  a < n ->
  poll_loop (S fuel) c task n interval (Some cb) a w
  = if (a =? n - 1)%nat
    then (Throw (Error (or_default (failMsg d) "任务执行失败")),
          after_poll c task [progress "fail" (a + 1) n] w)
    else poll_loop fuel c task n interval (Some cb) (a + 1)
           (after_poll c task [progress "fail" (a + 1) n] w).
Proof.
  intros Hr Hc Hd Hcb Hs L.
  rewrite loop_step by exact L.
  rewrite (try_block_fail c task n interval cb a w r d Hr Hc Hd Hcb Hs).
  reflexivity.
Qed.

End Generation.

Section Configured.
Import JSString Api Scenario.
Variables (st : Settings) (rem : Remote) (pl : nat) (tr : list Event)
          (encoded key : string).
Hypothesis (He : truthy encoded = true)
           (Ha : Base64.atob encoded = Some key)
           (Hk : truthy key = true).

Local Abbreviation world cl :=
  {| client := cl; settings := st; storage := Some encoded;
     remote := rem; polls := pl; trace := tr |}.

Lemma getApiKey_run cl : getApiKey (world cl) = (Return (Some key), world cl).
Proof.
  unfold getApiKey, bind, current, ret. cbn. rewrite He, Ha. reflexivity.
Qed.

Lemma isConfigured_run cl : isConfigured (world cl) = (Return true, world cl).
Proof.
  unfold isConfigured. rewrite (bind_return _ _ _ _ _ (getApiKey_run cl)).
  unfold ret. rewrite Hk. reflexivity.
Qed.

Lemma ensure_client_run cl :
  ensure_client (world cl)
  = (Return (client_in_use key (world cl)),
     world (Some (client_in_use key (world cl)))).
Proof.
  unfold ensure_client, client_in_use.
  rewrite (bind_return current _ _ _ _ eq_refl).
  cbn [client]. destruct cl as [c0 |]; [reflexivity |].
  rewrite (bind_return _ _ _ _ _ (getApiKey_run None)). rewrite Hk.
  reflexivity.
Qed.

Lemma generateImage_until_polling
      (p : string) (options : Options) (onProgress : option Callback)
      (cl : option KieAIClient) (task : string) :
  on_createTask rem = ok {| taskId := task |} ->
  generateImage p options onProgress (world cl)
  = bind (pollUntilComplete (client_in_use key (world cl)) task 30 2000
                            onProgress)
      extract_url
      (task_created (client_in_use key (world cl)) p options (world cl)).
Proof.
  intros Hc. unfold generateImage.
  rewrite (bind_return _ _ _ _ _ (isConfigured_run cl)). cbn [negb].
  rewrite (bind_return _ _ _ _ _ (ensure_client_run cl)).
  set (c := client_in_use key (world cl)).
  rewrite (bind_return current _ _ _ _ eq_refl). cbn [settings].
  erewrite (bind_return (createTask c p (merge st options)));
    [| unfold createTask, bind, current, emit, modify; cbn; rewrite Hc;
       reflexivity].
  erewrite bind_return; [| reflexivity].
  reflexivity.
Qed.

End Configured.

Section RunToCompletion.
Import JSString Api Scenario.

Lemma parse_url_json :
  JSON.parse url_json
  = Some (JSON.Object [("resultUrls", JSON.Array [JSON.Str "https://x/y.png"])]).
Proof. vm_compute. reflexivity. Qed.

Lemma progress_calls_app (t u : list Event) :
  progress_calls (t ++ u) = (progress_calls t ++ progress_calls u)%list.
Proof.
  induction t as [| e t IH]; [reflexivity |].
  destruct e; cbn; rewrite IH; reflexivity.
Qed.

(** C3.  With an API key configured, against a service that accepts the
    task, answers [processing] to the first two polls and [success] with
    [resultUrls] holding ["https://x/y.png"] to the third,
    [generateImage] returns that URL; [onProgress] is called exactly
    three times, with [attempts] 1, 2 and 3, each call coming right
    after the poll it reports and before anything is done about the
    polled state (the wait, or the return). *)
Theorem generateImage_processing_twice_then_success
        (p : string) (options : Options) (cb : Callback) (w : World)
        (encoded key task : string) :
  storage w = Some encoded ->
  truthy encoded = true ->
  Base64.atob encoded = Some key ->
  truthy key = true ->
  on_createTask (remote w) = ok {| taskId := task |} ->
  on_recordInfo (remote w) (polls w) = ok (in_state "processing") ->
  on_recordInfo (remote w) (S (polls w)) = ok (in_state "processing") ->
  on_recordInfo (remote w) (S (S (polls w))) = ok (succeeded (Some url_json)) ->
  (forall info, cb info = None) ->
  exists w',
    generateImage p options (Some cb) w
    = (Return (JSON.Str "https://x/y.png"), w')
    /\ trace w'
       = (trace w
          ++ [ create_request (client_in_use key w) p (settings w) options;
               poll_request (client_in_use key w) task;
               progress "processing" 1 30;
               Timer 2000;
               poll_request (client_in_use key w) task;
               progress "processing" 2 30;
               Timer 2000;
               poll_request (client_in_use key w) task;
               progress "success" 3 30 ])%list
    /\ progress_calls (trace w')
       = (progress_calls (trace w)
          ++ [ {| p_state := "processing"; p_attempts := 1; p_maxAttempts := 30 |};
               {| p_state := "processing"; p_attempts := 2; p_maxAttempts := 30 |};
               {| p_state := "success"; p_attempts := 3; p_maxAttempts := 30 |} ])%list.
Proof.
  intros Hs He Ha Hk Hc H0 H1 H2 Hcb.
  destruct w as [cl st sto rem pl tr].
  cbn [storage remote polls] in Hs, Hc, H0, H1, H2. subst sto.
  rewrite (generateImage_until_polling st rem pl tr encoded key He Ha Hk
             p options (Some cb) cl task Hc).
  set (w0 := {| client := cl; settings := st; storage := Some encoded;
                remote := rem; polls := pl; trace := tr |}).
  set (c := client_in_use key w0).
  unfold pollUntilComplete.
  assert (T : (trace w0 = tr)%list) by reflexivity.
  eexists. split; [| split].
  - erewrite bind_return.
    2:{ rewrite loop_step by lia.
        erewrite try_block_pending;
          [| exact H0 | reflexivity | reflexivity | apply Hcb
           | reflexivity | reflexivity ].
        rewrite loop_step by lia.
        erewrite try_block_pending;
          [| exact H1 | reflexivity | reflexivity | apply Hcb
           | reflexivity | reflexivity ].
        rewrite loop_step by lia.
        erewrite try_block_success;
          [| exact H2 | reflexivity | reflexivity | apply Hcb | reflexivity ].
        reflexivity. }
    unfold extract_url.
    erewrite bind_return by reflexivity.
    cbn [resultJson succeeded JSON.text_arg]. rewrite parse_url_json.
    reflexivity.
  - cbn. rewrite <- !app_assoc. reflexivity.
  - cbn [trace after_poll task_created]. rewrite <- !app_assoc.
    rewrite progress_calls_app. reflexivity.
Qed.

End RunToCompletion.

Section RunToCompletionExamples.
Import JSString Api Scenario.

Lemma generateImage_processing_twice_then_success_witness :
  storage (configured two_then_success) = Some "c2stMTIzNDU="
  /\ Base64.atob "c2stMTIzNDU=" = Some "sk-12345"
  /\ exists w',
       generateImage "prompt" no_options (Some silent) (configured two_then_success)
       = (Return (JSON.Str "https://x/y.png"), w')
       /\ progress_calls (trace w')
          = [ {| p_state := "processing"; p_attempts := 1; p_maxAttempts := 30 |};
              {| p_state := "processing"; p_attempts := 2; p_maxAttempts := 30 |};
              {| p_state := "success"; p_attempts := 3; p_maxAttempts := 30 |} ].
Proof.
  split; [reflexivity | split; [reflexivity |]].
  destruct (generateImage_processing_twice_then_success
              "prompt" no_options silent (configured two_then_success)
              "c2stMTIzNDU=" "sk-12345" "task-1")
    as [w' [E [_ P]]]; try reflexivity.
  exists w'. split; [exact E | exact P].
Defined.

End RunToCompletionExamples.

Section ClientExamples.
Import JSString Api Scenario Attempts.

(** C1, as the program behaves.  A poll that reports [fail] on the first
    of 30 attempts does not end the call: the error made from [failMsg]
    is caught like any other, a second poll is sent, and the call
    returns the [success] reported by it.  Against a service that reports
    [fail] every time, the call fails with the error carrying [failMsg]
    only after 30 polls. *)
Theorem fail_state_is_polled_again :
  pollUntilComplete the_client "task-1" 30 2000 (Some silent)
    (configured fail_then_success)
  = (Return {| code := 200; msg := Some "success";
               data := Some (succeeded (Some url_json)) |},
     {| client := None; settings := default_settings;
        storage := Some "c2stMTIzNDU="; remote := fail_then_success;
        polls := 2;
        trace := [ poll_request the_client "task-1"; progress "fail" 1 30;
                   poll_request the_client "task-1"; progress "success" 2 30 ] |})
  /\ fst (pollUntilComplete the_client "task-1" 30 2000 (Some silent)
            (configured always_fail))
     = Throw (Error "quota exceeded")
  /\ polls (snd (pollUntilComplete the_client "task-1" 30 2000 (Some silent)
                   (configured always_fail)))
     = 30.
Proof. vm_compute. repeat split; reflexivity. Qed.

(** C5, as the program behaves.  On [success], a result without
    [resultUrls] makes [generateImage] fail with a [TypeError], a missing
    or unparsable [resultJson] with a [SyntaxError]; the error
    "图片生成失败，未获取到图片URL" is raised when [resultUrls] is an
    empty array, and the first entry is returned when there is one. *)
Theorem generateImage_result_handling :
  fst (generateImage "prompt" no_options None
         (configured (success_with (Some "{}"))))
  = Throw (TypeError "Cannot read properties of undefined (reading '0')")
  /\ fst (generateImage "prompt" no_options None
            (configured (success_with None)))
     = Throw (SyntaxError "Unexpected token in JSON")
  /\ fst (generateImage "prompt" no_options None
            (configured (success_with (Some "<html>Bad Gateway</html>"))))
     = Throw (SyntaxError "Unexpected token in JSON")
  /\ fst (generateImage "prompt" no_options None
            (configured (success_with (Some (result_json "")))))
     = Throw missing_result
  /\ fst (generateImage "prompt" no_options None
            (configured (success_with (Some url_json))))
     = Return (JSON.Str "https://x/y.png").
Proof. vm_compute. repeat split; reflexivity. Qed.

Lemma polling_error_only_from_last_attempt_witness :
  (let w := configured lost_then_success in
   let w1 := after_poll the_client "task-1" [] w in
   try_block the_client "task-1" 3 2000 None 0 w = (Throw network_error, w1)
   /\ polls w1 + 1
      <= polls (snd (pollUntilComplete the_client "task-1" 3 2000 None w))
   /\ pollUntilComplete the_client "task-1" 3 2000 None w
      = (Return {| code := 200; msg := Some "success";
                   data := Some (succeeded (Some url_json)) |},
         after_poll the_client "task-1" [] w1))
  /\ (let w := configured offline in
      pollUntilComplete the_client "task-1" 3 2000 None w
      = (Throw network_error,
         after_poll the_client "task-1" []
           (after_poll the_client "task-1" []
              (after_poll the_client "task-1" [] w)))).
Proof.
  split.
  - destruct (polling_error_only_from_last_attempt
                the_client "task-1" 3 2000 None (configured lost_then_success))
      as (Early & Returned & _).
    assert (U : undecided the_client "task-1" 3 2000 None 0
                  (configured lost_then_success))
      by (intros i r L; lia).
    destruct (Early 0 network_error
                (after_poll the_client "task-1" [] (configured lost_then_success))
                ltac:(lia) U eq_refl)
      as (_ & U1 & _ & _ & More & _).
    split; [reflexivity |]. split; [exact More |].
    apply (Returned 1); [lia | exact U1 | reflexivity].
  - destruct (polling_error_only_from_last_attempt
                the_client "task-1" 3 2000 None (configured offline))
      as (_ & _ & Last & _).
    apply Last; [lia | | reflexivity].
    intros i r L. destruct i as [| [| i]]; [discriminate | discriminate | cbn in L; lia].
Defined.

End ClientExamples.


(* ================================================================= *)
(** ** Further properties of the polling loop *)

Section Turns.
Import JSString Api Scenario Polls.

Variables (c : KieAIClient) (task : string) (n interval : nat)
          (onProgress : option Callback).

Local Abbreviation turn := (try_block c task n interval onProgress).
Local Abbreviation loop fuel := (poll_loop fuel c task n interval onProgress).

Ltac open_turn :=
  unfold try_block, queryTask, bind, current, emit, count_poll, modify, checked,
    data_of, call_progress, sleep, emit, modify, ret, throw; cbn.

Lemma turn_pending (a : nat) (w : World) :
  pending_at w (polls w) ->
  quiet onProgress ->
  turn a w
  = (Return (Again (a + 1)),
     after_poll c task
       (report onProgress (state_at w (polls w)) (a + 1) n ++ [Timer interval]) w).
Proof.
  intros (r & d & Hr & Hc & Hd & Hs & Hf) Q.
  unfold state_at. open_turn. rewrite Hr. cbn. rewrite Hc. cbn. rewrite Hd. cbn.
  unfold after_poll, report, progress.
  destruct onProgress as [cb |]; cbn in *.
  - rewrite Q. cbn. rewrite Hs, Hf. cbn. rewrite <- !app_assoc. reflexivity.
  - rewrite Hs, Hf. cbn. rewrite <- !app_assoc. reflexivity.
Qed.

Lemma turn_success (a : nat) (w : World) (r : Response TaskData) (d : TaskData) :
  on_recordInfo (remote w) (polls w) = Resolved r ->
  code r = 200%Z ->
  data r = Some d ->
  state d = "success" ->
  quiet onProgress ->
  turn a w
  = (Return (Done r), after_poll c task (report onProgress "success" (a + 1) n) w).
Proof.
  intros Hr Hc Hd Hs Q.
  open_turn. rewrite Hr. cbn. rewrite Hc. cbn. rewrite Hd. cbn.
  unfold after_poll, report, progress.
  destruct onProgress as [cb |]; cbn in *.
  - rewrite Q. cbn. rewrite Hs. cbn. rewrite <- !app_assoc. reflexivity.
  - rewrite Hs. cbn. reflexivity.
Qed.

Lemma turn_error (a : nat) (w : World) (e : JSError) :
  reply_error (on_recordInfo (remote w) (polls w)) = Some e ->
  turn a w = (Throw e, after_poll c task [] w).
Proof.
  unfold reply_error. intros H. open_turn.
  destruct (on_recordInfo (remote w) (polls w)) as [e0 | b]; cbn.
  - injection H as <-. reflexivity.
  - destruct (code b =? 200)%Z; cbn.
    + destruct (data b); [discriminate | injection H as <-; reflexivity].
    + injection H as <-. reflexivity.
Qed.

(** One turn sends one request, changes nothing else of the manager and
    of the service, and adds to the trace the request and at most a
    progress call for this attempt and a wait. *)
Lemma turn_effect (a : nat) (w : World) :
  exists evs,
    snd (turn a w) = after_poll c task evs w
    /\ Forall (turn_event n interval a) evs.
Proof.
  assert (P : forall st, turn_event n interval a (progress st (a + 1) n))
    by (intros st; cbn; auto).
  assert (T : turn_event n interval a (Timer interval)) by reflexivity.
  open_turn. unfold after_poll.
  destruct (on_recordInfo (remote w) (polls w)) as [e0 | b]; cbn;
    [exists []; split; [reflexivity | constructor] |].
  destruct (code b =? 200)%Z; cbn;
    [| exists []; split; [reflexivity | constructor]].
  destruct (data b) as [d |]; cbn;
    [| exists []; split; [reflexivity | constructor]].
  destruct onProgress as [cb |]; cbn.
  - destruct (cb _); cbn;
      [exists [progress (state d) (a + 1) n]; split;
       [rewrite <- !app_assoc; reflexivity | constructor; [apply P | constructor]] |].
    destruct (String.eqb (state d) "success"); cbn;
      [exists [progress (state d) (a + 1) n]; split;
       [rewrite <- !app_assoc; reflexivity | constructor; [apply P | constructor]] |].
    destruct (String.eqb (state d) "fail"); cbn;
      [exists [progress (state d) (a + 1) n]; split;
       [rewrite <- !app_assoc; reflexivity | constructor; [apply P | constructor]] |].
    exists [progress (state d) (a + 1) n; Timer interval]. split;
      [rewrite <- !app_assoc; reflexivity
       | constructor; [apply P | constructor; [apply T | constructor]]].
  - destruct (String.eqb (state d) "success"); cbn;
      [exists []; split; [reflexivity | constructor] |].
    destruct (String.eqb (state d) "fail"); cbn;
      [exists []; split; [reflexivity | constructor] |].
    exists [Timer interval]. split;
      [rewrite <- !app_assoc; reflexivity | constructor; [apply T | constructor]].
Qed.

Lemma turn_event_poll_event (a : nat) (evs : list Event) :
  a < n ->
  Forall (turn_event n interval a) evs ->
  Forall (poll_event c task n interval) evs /\ requests evs = 0.
Proof.
  intros L. induction 1 as [| e evs He _ [IH1 IH2]]; [split; [constructor | reflexivity] |].
  destruct e as [? ? ? | ? ? | p | ms]; cbn in He; try contradiction.
  - split; [constructor; [cbn; lia | exact IH1] | exact IH2].
  - split; [constructor; [exact He | exact IH1] | exact IH2].
Qed.

End Turns.


Section Runs.
Import JSString Api Scenario Polls.

Variables (c : KieAIClient) (task : string) (n interval : nat)
          (onProgress : option Callback).

Local Abbreviation loop fuel := (poll_loop fuel c task n interval onProgress).
Local Abbreviation wait k a w := (waited c task n interval onProgress k a w).

Lemma timers_app (t u : list Event) : timers (t ++ u) = timers t + timers u.
Proof.
  induction t as [| e t IH]; [reflexivity |].
  destruct e; cbn; rewrite IH; reflexivity.
Qed.

Lemma requests_app (t u : list Event) : requests (t ++ u) = requests t + requests u.
Proof.
  induction t as [| e t IH]; [reflexivity |].
  destruct e; cbn; rewrite IH; reflexivity.
Qed.

Lemma attempts_reported_app (t u : list Event) :
  attempts_reported (t ++ u) = (attempts_reported t ++ attempts_reported u)%list.
Proof. unfold attempts_reported. rewrite progress_calls_app, map_app. reflexivity. Qed.

Lemma waited_world (k : nat) :
  forall a w,
    remote (wait k a w) = remote w
    /\ polls (wait k a w) = polls w + k
    /\ client (wait k a w) = client w
    /\ settings (wait k a w) = settings w
    /\ storage (wait k a w) = storage w
    /\ timers (trace (wait k a w)) = timers (trace w) + k
    /\ requests (trace (wait k a w)) = requests (trace w) + k
    /\ attempts_reported (trace (wait k a w))
       = (attempts_reported (trace w) ++ numbered onProgress (a + 1) k)%list.
Proof.
  induction k as [| k IH]; intros a w; cbn [waited].
  - repeat split; try lia. unfold numbered.
    destruct onProgress; cbn; rewrite app_nil_r; reflexivity.
  - destruct (IH (a + 1)
                (after_poll c task
                   (report onProgress (state_at w (polls w)) (a + 1) n
                    ++ [Timer interval]) w))
      as (R & P & C & Se & St & T & Q & A).
    rewrite R, P, C, Se, St, T, Q, A. cbn [after_poll remote polls client settings storage trace].
    repeat split; try lia.
    + rewrite timers_app. cbn [timers]. rewrite timers_app.
      unfold report, progress. destruct onProgress; cbn; lia.
    + rewrite requests_app. cbn [requests]. rewrite requests_app.
      unfold report, progress. destruct onProgress; cbn; lia.
    + rewrite attempts_reported_app. replace (a + 1 + 1) with (S (a + 1)) by lia.
      unfold numbered, report, progress, attempts_reported.
      destruct onProgress; cbn; rewrite <- app_assoc; reflexivity.
Qed.

Lemma loop_waits (k : nat) :
  forall fuel a w,
    a + k <= n ->
    (forall i, i < k -> pending_at w (polls w + i)) ->
    quiet onProgress ->
    loop (k + fuel) a w = loop fuel (a + k) (wait k a w).
Proof.
  induction k as [| k IH]; intros fuel a w L P Q.
  - cbn. rewrite Nat.add_0_r. reflexivity.
  - cbn [Nat.add waited]. rewrite loop_step by lia.
    assert (P0 : pending_at w (polls w))
      by (specialize (P 0 ltac:(lia)); rewrite Nat.add_0_r in P; exact P).
    rewrite (turn_pending c task n interval onProgress a w P0 Q).
    rewrite IH; [| lia | | exact Q].
    + replace (a + 1 + k) with (a + S k) by lia. reflexivity.
    + intros i Hi. specialize (P (S i) ltac:(lia)).
      unfold pending_at in *. cbn [after_poll remote polls].
      replace (S (polls w) + i) with (polls w + S i) by lia. exact P.
Qed.


(** X1.  Provided there is no progress callback or the callback never
    throws: when the first [k] polls ([k] below [maxAttempts]) are
    answered with code 200 and a state other than [success] and [fail],
    and the next one with code 200 and the state [success],
    [pollUntilComplete] returns the body of that poll after exactly
    [k + 1] requests and [k] waits, the callback, if there is one,
    having been called with [attempts] 1, 2, ..., [k + 1] in this
    order. *)
Theorem pollUntilComplete_returns_first_success
        (k : nat) (w : World) (r : Response TaskData) (d : TaskData) :
  k < n ->
  (forall i, i < k -> pending_at w (polls w + i)) ->
  on_recordInfo (remote w) (polls w + k) = Resolved r ->
  code r = 200%Z ->
  data r = Some d ->
  state d = "success" ->
  quiet onProgress ->
  exists w',
    pollUntilComplete c task n interval onProgress w = (Return r, w')
    /\ w' = after_poll c task (report onProgress "success" (k + 1) n) (wait k 0 w)
    /\ polls w' = polls w + k + 1
    /\ requests (trace w') = requests (trace w) + k + 1
    /\ timers (trace w') = timers (trace w) + k
    /\ attempts_reported (trace w')
       = (attempts_reported (trace w) ++ numbered onProgress 1 (k + 1))%list.
Proof.
  intros L P Hr Hc Hd Hs Q.
  destruct (waited_world k 0 w) as (R & Po & _ & _ & _ & T & Rq & A).
  eexists. split; [| split; [reflexivity |]].
  - unfold pollUntilComplete.
    replace n with (k + (n - k)) at 1 by lia.
    rewrite loop_waits by (try assumption; lia).
    replace (n - k) with (S (n - k - 1)) by lia.
    rewrite loop_step by lia.
    erewrite turn_success; [reflexivity | | exact Hc | exact Hd | exact Hs | exact Q].
    rewrite R, Po. exact Hr.
  - cbn [after_poll polls trace]. rewrite Po.
    rewrite requests_app, timers_app, attempts_reported_app, T, Rq, A.
    cbn [requests]. repeat split; try lia.
    + unfold report, progress. destruct onProgress; cbn; lia.
    + unfold report, progress. destruct onProgress; cbn; lia.
    + unfold report, progress, numbered, attempts_reported.
      destruct onProgress; cbn; [| rewrite !app_nil_r; reflexivity].
      rewrite <- app_assoc. f_equal.
      replace (k + 1) with (S k) by lia. rewrite seq_S. reflexivity.
Qed.

(** X2.  Provided there is no progress callback or the callback never
    throws: when each of the [maxAttempts] polls is answered with code
    200 and a state other than [success] and [fail],
    [pollUntilComplete] fails with the time-out error after exactly
    [maxAttempts] requests, as many waits, and, if there is a callback,
    calls of it numbered 1 to [maxAttempts]; with [maxAttempts = 0] it
    fails at once without a request. *)
Theorem pollUntilComplete_times_out (w : World) :
  (forall i, i < n -> pending_at w (polls w + i)) ->
  quiet onProgress ->
  exists w',
    pollUntilComplete c task n interval onProgress w = (Throw timeout_error, w')
    /\ w' = wait n 0 w
    /\ polls w' = polls w + n
    /\ requests (trace w') = requests (trace w) + n
    /\ timers (trace w') = timers (trace w) + n
    /\ attempts_reported (trace w')
       = (attempts_reported (trace w) ++ numbered onProgress 1 n)%list.
Proof.
  intros P Q.
  destruct (waited_world n 0 w) as (_ & Po & _ & _ & _ & T & Rq & A).
  eexists. split; [| split; [reflexivity |]].
  - unfold pollUntilComplete.
    replace n with (n + 0) at 1 by lia.
    rewrite loop_waits by (try assumption; lia).
    rewrite loop_exit by lia. reflexivity.
  - repeat split; assumption.
Qed.


Lemma retried_world (k : nat) :
  forall w,
    remote (retried c task k w) = remote w
    /\ polls (retried c task k w) = polls w + k
    /\ requests (trace (retried c task k w)) = requests (trace w) + k
    /\ timers (trace (retried c task k w)) = timers (trace w)
    /\ attempts_reported (trace (retried c task k w)) = attempts_reported (trace w).
Proof.
  induction k as [| k IH]; intros w; cbn [retried].
  - repeat split; lia.
  - destruct (IH (after_poll c task [] w)) as (R & P & Rq & T & A).
    rewrite R, P, Rq, T, A. cbn [after_poll remote polls trace].
    rewrite requests_app, timers_app, attempts_reported_app. cbn.
    rewrite app_nil_r. repeat split; lia.
Qed.

Lemma retried_last (k : nat) :
  forall w,
    retried c task (S k) w = after_poll c task [] (retried c task k w).
Proof.
  induction k as [| k IH]; intros w; [reflexivity |].
  change (retried c task (S (S k)) w)
    with (retried c task (S k) (after_poll c task [] w)).
  rewrite IH. reflexivity.
Qed.

Lemma loop_retries (k : nat) :
  forall fuel a w,
    a + k < n ->
    (forall i, i < k ->
       exists e, reply_error (on_recordInfo (remote w) (polls w + i)) = Some e) ->
    loop (k + fuel) a w = loop fuel (a + k) (retried c task k w).
Proof.
  induction k as [| k IH]; intros fuel a w L P.
  - cbn. rewrite Nat.add_0_r. reflexivity.
  - cbn [Nat.add retried]. rewrite loop_step by lia.
    destruct (P 0 ltac:(lia)) as [e He]. rewrite Nat.add_0_r in He.
    rewrite (turn_error c task n interval onProgress a w e He).
    replace (a =? n - 1)%nat with false by (symmetry; apply Nat.eqb_neq; lia).
    rewrite IH; [| lia |].
    + replace (a + 1 + k) with (a + S k) by lia. reflexivity.
    + intros i Hi. specialize (P (S i) ltac:(lia)).
      cbn [after_poll remote polls].
      replace (S (polls w) + i) with (polls w + S i) by lia. exact P.
Qed.

(** X3.  When every one of the [maxAttempts] polls fails (the request is
    rejected, the body has a code other than 200, or it has no [data]),
    [pollUntilComplete] sends all [maxAttempts] requests one after the
    other without any wait and without calling the callback, and then
    fails with the error of the last poll. *)
Theorem pollUntilComplete_retries_without_wait (w : World) (e : JSError) :
  0 < n ->
  (forall i, i < n ->
     exists e', reply_error (on_recordInfo (remote w) (polls w + i)) = Some e') ->
  reply_error (on_recordInfo (remote w) (polls w + (n - 1))) = Some e ->
  exists w',
    pollUntilComplete c task n interval onProgress w = (Throw e, w')
    /\ w' = retried c task n w
    /\ polls w' = polls w + n
    /\ requests (trace w') = requests (trace w) + n
    /\ timers (trace w') = timers (trace w)
    /\ attempts_reported (trace w') = attempts_reported (trace w).
Proof.
  intros L P Hlast.
  destruct (retried_world n w) as (_ & Po & Rq & T & A).
  eexists. split; [| split; [reflexivity | repeat split; assumption]].
  unfold pollUntilComplete.
  destruct (retried_world (n - 1) w) as (R1 & P1 & _).
  replace n with ((n - 1) + 1) at 1 by lia.
  rewrite loop_retries; [| lia | intros i Hi; apply P; lia].
  cbn [Nat.add]. rewrite loop_step by lia.
  erewrite turn_error by (rewrite R1, P1; exact Hlast).
  rewrite Nat.eqb_refl, <- retried_last.
  replace (S (n - 1)) with n by lia. reflexivity.
Qed.

Lemma loop_bounded (fuel : nat) :
  forall a w,
    a <= n ->
    exists evs,
      trace (snd (loop fuel a w)) = (trace w ++ evs)%list
      /\ Forall (poll_event c task n interval) evs
      /\ polls (snd (loop fuel a w)) = polls w + requests evs
      /\ requests evs <= n - a
      /\ remote (snd (loop fuel a w)) = remote w
      /\ client (snd (loop fuel a w)) = client w
      /\ settings (snd (loop fuel a w)) = settings w
      /\ storage (snd (loop fuel a w)) = storage w.
Proof.
  assert (Stop : forall w : World,
             exists evs,
               trace w = (trace w ++ evs)%list
               /\ Forall (poll_event c task n interval) evs
               /\ polls w = polls w + requests evs
               /\ requests evs <= 0
               /\ remote w = remote w /\ client w = client w
               /\ settings w = settings w /\ storage w = storage w).
  { intros w. exists []. rewrite app_nil_r. cbn. repeat split; try lia. constructor. }
  induction fuel as [| fuel IH]; intros a w A.
  - destruct (Nat.lt_ge_cases a n) as [L | G].
    + apply Nat.ltb_lt in L. cbn [poll_loop]. rewrite L. cbn [snd].
      destruct (Stop w) as (evs & H). exists evs.
      repeat match goal with H : _ /\ _ |- _ => destruct H end.
      repeat split; try assumption; lia.
    + rewrite loop_exit by exact G. cbn [snd].
      destruct (Stop w) as (evs & H). exists evs.
      repeat match goal with H : _ /\ _ |- _ => destruct H end.
      repeat split; try assumption; lia.
  - destruct (Nat.lt_ge_cases a n) as [L | G].
    2:{ rewrite loop_exit by exact G. cbn [snd].
        destruct (Stop w) as (evs & H). exists evs.
        repeat match goal with H : _ /\ _ |- _ => destruct H end.
        repeat split; try assumption; lia. }
    rewrite loop_step by exact L.
    destruct (turn_effect c task n interval onProgress a w) as (evs1 & E1 & F1).
    destruct (turn_event_poll_event c task n interval a evs1 L F1) as [F1' Z1].
    pose proof (try_block_next c task n interval onProgress a w) as Nx.
    assert (Here :
              exists evs,
                trace (after_poll c task evs1 w) = (trace w ++ evs)%list
                /\ Forall (poll_event c task n interval) evs
                /\ polls (after_poll c task evs1 w) = polls w + requests evs
                /\ requests evs <= n - a
                /\ remote (after_poll c task evs1 w) = remote w
                /\ client (after_poll c task evs1 w) = client w
                /\ settings (after_poll c task evs1 w) = settings w
                /\ storage (after_poll c task evs1 w) = storage w).
    { exists (poll_request c task :: evs1). cbn [after_poll trace polls requests poll_request].
      rewrite Z1. repeat split; try lia.
      constructor; [cbn; auto | exact F1']. }
    assert (Later :
              a + 1 <= n ->
              exists evs,
                trace (snd (loop fuel (a + 1) (after_poll c task evs1 w)))
                = (trace w ++ evs)%list
                /\ Forall (poll_event c task n interval) evs
                /\ polls (snd (loop fuel (a + 1) (after_poll c task evs1 w)))
                   = polls w + requests evs
                /\ requests evs <= n - a
                /\ remote (snd (loop fuel (a + 1) (after_poll c task evs1 w))) = remote w
                /\ client (snd (loop fuel (a + 1) (after_poll c task evs1 w))) = client w
                /\ settings (snd (loop fuel (a + 1) (after_poll c task evs1 w))) = settings w
                /\ storage (snd (loop fuel (a + 1) (after_poll c task evs1 w))) = storage w).
    { intros A1.
      destruct (IH (a + 1) (after_poll c task evs1 w) A1)
        as (evs2 & T2 & F2 & P2 & B2 & R2 & C2 & S2 & St2).
      exists ((poll_request c task :: evs1) ++ evs2)%list.
      rewrite T2, P2, R2, C2, S2, St2.
      cbn [after_poll trace polls remote client settings storage].
      rewrite requests_app. cbn [requests poll_request]. rewrite Z1.
      repeat split; try lia.
      - rewrite <- app_assoc. reflexivity.
      - apply Forall_app. split; [| exact F2].
        constructor; [cbn; auto | exact F1']. }
    destruct (try_block c task n interval onProgress a w)
      as [[[r | a'] | e0 |] w1] eqn:E; cbn [fst snd] in Nx, E1; subst w1.
    + cbn [snd]. exact Here.
    + subst a'. apply Later. lia.
    + destruct (a =? n - 1)%nat eqn:Q; [cbn [snd]; exact Here |].
      apply Nat.eqb_neq in Q. apply Later. lia.
    + contradiction.
Qed.

(** X4.  Whatever the service answers and whatever the callback does,
    [pollUntilComplete] sends at most [maxAttempts] requests; what it
    adds to the trace are [recordInfo] requests for its task with the
    client's headers, progress calls whose [attempts] lie between 1 and
    [maxAttempts], and waits of [interval]; it never posts a task and
    leaves the client, the settings and the stored key as they were. *)
Theorem pollUntilComplete_stays_in_bounds (w : World) :
  exists evs,
    trace (snd (pollUntilComplete c task n interval onProgress w))
    = (trace w ++ evs)%list
    /\ Forall (poll_event c task n interval) evs
    /\ polls (snd (pollUntilComplete c task n interval onProgress w))
       = polls w + requests evs
    /\ requests evs <= n
    /\ client (snd (pollUntilComplete c task n interval onProgress w)) = client w
    /\ settings (snd (pollUntilComplete c task n interval onProgress w)) = settings w
    /\ storage (snd (pollUntilComplete c task n interval onProgress w)) = storage w.
Proof.
  unfold pollUntilComplete.
  destruct (loop_bounded n 0 w ltac:(lia)) as (evs & T & F & P & B & _ & C & S1 & St).
  exists evs. repeat split; try assumption. lia.
Qed.

End Runs.


(* ================================================================= *)
(** ** [atob] after [btoa] *)

Section Base64RoundTrip.
Import Base64 Base64Encode.

Ltac to_Z :=
  repeat match goal with
         | H : (_ < _)%N |- _ => apply N2Z.inj_lt in H
         end;
  try match goal with
      | |- (_ < _)%N => apply N2Z.inj_lt
      | |- @eq N _ _ => apply N2Z.inj
      end;
  repeat rewrite ?N2Z.inj_add, ?N2Z.inj_mul, ?N2Z.inj_div, ?N2Z.inj_mod in *;
  repeat match goal with
         | |- context [Z.of_N ?x] =>
             lazymatch x with
             | N0 => fail
             | Npos _ => fail
             | _ => let z := fresh "z" in
                    pose proof (N2Z.is_nonneg x);
                    set (z := Z.of_N x) in *; clearbody z
             end
         end;
  cbn [Z.of_N] in *.

Ltac arith := to_Z; Z.div_mod_to_equations; lia.

Lemma alphabet_facts (v : N) :
  (v < 64)%N ->
  sextet (alphabet v) = Some v
  /\ is_space (alphabet v) = false
  /\ is_pad (alphabet v) = false.
Proof.
  intros H.
  assert (E : v = N.of_nat (N.to_nat v)) by (rewrite N2Nat.id; reflexivity).
  assert (L : N.to_nat v < 64) by lia.
  rewrite E. clear E H. generalize dependent (N.to_nat v). intros k L.
  do 64 (destruct k as [| k]; [vm_compute; repeat split; reflexivity |]).
  lia.
Qed.

Lemma byte_of_ascii (a : ascii) : byte (N_of_ascii a) = a.
Proof.
  unfold byte. rewrite N.mod_small by apply N_ascii_bounded.
  apply ascii_N_embedding.
Qed.

Lemma byte_low (m : N) (a : ascii) :
  (m mod 256 = N_of_ascii a)%N -> byte m = a.
Proof. unfold byte. intros ->. apply ascii_N_embedding. Qed.

Lemma by_threes (P : list ascii -> Prop) :
  P [] ->
  (forall a, P [a]) ->
  (forall a b, P [a; b]) ->
  (forall a b c rest, P rest -> P (a :: b :: c :: rest)) ->
  forall l, P l.
Proof.
  intros H0 H1 H2 H3.
  assert (A : forall l, P l /\ (forall a, P (a :: l)) /\ (forall a b, P (a :: b :: l))).
  { induction l as [| x l (IH0 & IH1 & IH2)].
    - repeat split; auto.
    - repeat split; auto. }
  intros l. apply A.
Qed.

Lemma decode_encode_bare (l : list ascii) : decode (encode_bare l) = Some l.
Proof.
  induction l as [| a | a b | a b c rest IH] using by_threes.
  - reflexivity.
  - pose proof (N_ascii_bounded a) as Ba. cbn [encode_bare decode].
    destruct (alphabet_facts (N_of_ascii a / 4)) as (-> & _); [arith |].
    destruct (alphabet_facts ((N_of_ascii a mod 4) * 16)) as (-> & _); [arith |].
    f_equal. f_equal. apply byte_low. arith.
  - pose proof (N_ascii_bounded a) as Ba. pose proof (N_ascii_bounded b) as Bb.
    cbn [encode_bare decode].
    destruct (alphabet_facts ((N_of_ascii a * 256 + N_of_ascii b) / 1024))
      as (-> & _); [arith |].
    destruct (alphabet_facts (((N_of_ascii a * 256 + N_of_ascii b) / 16) mod 64))
      as (-> & _); [arith |].
    destruct (alphabet_facts (((N_of_ascii a * 256 + N_of_ascii b) mod 16) * 4))
      as (-> & _); [arith |].
    f_equal. f_equal; [| f_equal]; apply byte_low; arith.
  - pose proof (N_ascii_bounded a) as Ba. pose proof (N_ascii_bounded b) as Bb.
    pose proof (N_ascii_bounded c) as Bc.
    cbn [encode_bare decode]. rewrite IH.
    destruct (alphabet_facts
                (((N_of_ascii a * 256 + N_of_ascii b) * 256 + N_of_ascii c) / 262144))
      as (-> & _); [arith |].
    destruct (alphabet_facts
                ((((N_of_ascii a * 256 + N_of_ascii b) * 256 + N_of_ascii c) / 4096)
                 mod 64))
      as (-> & _); [arith |].
    destruct (alphabet_facts
                ((((N_of_ascii a * 256 + N_of_ascii b) * 256 + N_of_ascii c) / 64)
                 mod 64))
      as (-> & _); [arith |].
    destruct (alphabet_facts
                (((N_of_ascii a * 256 + N_of_ascii b) * 256 + N_of_ascii c) mod 64))
      as (-> & _); [arith |].
    destruct (encode_bare rest) as [| e1 [| e2 [| e3 [| e4 more]]]] eqn:E;
      (f_equal; f_equal; [| f_equal; [| f_equal]]; apply byte_low; arith).
Qed.

Lemma alphabet_clean (v : N) :
  is_space (alphabet v) = false /\ is_pad (alphabet v) = false.
Proof.
  destruct (N.lt_ge_cases v 64) as [L | G]; [apply alphabet_facts, L |].
  unfold alphabet.
  replace (v <? 26)%N with false by (symmetry; apply N.ltb_ge; lia).
  replace (v <? 52)%N with false by (symmetry; apply N.ltb_ge; lia).
  replace (v <? 62)%N with false by (symmetry; apply N.ltb_ge; lia).
  replace (v =? 62)%N with false by (symmetry; apply N.eqb_neq; lia).
  split; reflexivity.
Qed.

Lemma encode_bare_clean (l : list ascii) : Forall clean (encode_bare l).
Proof.
  induction l as [| a | a b | a b c rest IH] using by_threes;
    cbn [encode_bare]; repeat (constructor; [apply alphabet_clean |]);
    try constructor. exact IH.
Qed.

Lemma encode_split (l : list ascii) :
  encode l = (encode_bare l ++ padding l)%list
  /\ (List.length (encode l) mod 4 = 0)%nat
  /\ (padding l = [] \/ padding l = [pad] \/ padding l = [pad; pad]).
Proof.
  induction l as [| a | a b | a b c rest (E & L & P)] using by_threes;
    try (cbn; auto; fail).
  cbn [encode encode_bare padding]. rewrite E. repeat split; [| exact P].
  rewrite <- E. cbn [List.length].
  replace (S (S (S (S (List.length (encode rest))))))
    with (List.length (encode rest) + 1 * 4) by lia.
  rewrite Nat.Div0.mod_add. exact L.
Qed.

Lemma strip_padding_encode (l : list ascii) :
  strip_padding (encode l) = encode_bare l.
Proof.
  destruct (encode_split l) as (E & L & P).
  pose proof (encode_bare_clean l) as C.
  unfold strip_padding. rewrite L. cbn [Nat.eqb]. rewrite E in *.
  rewrite rev_app_distr.
  apply Forall_rev in C.
  destruct P as [Q | [Q | Q]]; rewrite Q in *; cbn [rev app].
  - rewrite app_nil_r in *.
    destruct (rev (encode_bare l)) as [| p [| q r]] eqn:R; try reflexivity.
    inversion C as [| ? ? [_ Hp] _]; subst. rewrite Hp. reflexivity.
  - destruct (rev (encode_bare l)) as [| q r] eqn:R.
    + apply (f_equal (@List.length ascii)) in R. rewrite length_rev in R.
      rewrite length_app in L. cbn [List.length] in L, R. rewrite R in L.
      vm_compute in L. discriminate.
    + inversion C as [| ? ? [_ Hq] _]; subst.
      change (is_pad pad) with true. cbn iota. rewrite Hq.
      apply (f_equal (@rev ascii)) in R. rewrite rev_involutive in R.
      rewrite R. reflexivity.
  - change (is_pad pad) with true. cbn iota.
    apply rev_involutive.
Qed.

Lemma encode_no_space (l : list ascii) :
  filter (fun c => negb (is_space c)) (encode l) = encode l.
Proof.
  destruct (encode_split l) as (E & _ & P).
  apply forallb_filter_id. apply forallb_forall. intros x Hx.
  rewrite E in Hx. apply in_app_or in Hx as [Hx | Hx].
  - pose proof (encode_bare_clean l) as C. rewrite Forall_forall in C.
    destruct (C x Hx) as [-> _]. reflexivity.
  - destruct P as [Q | [Q | Q]]; rewrite Q in Hx; cbn in Hx;
      repeat destruct Hx as [<- | Hx]; try contradiction; reflexivity.
Qed.

Lemma latin1_ascii (l : list ascii) :
  Forall (fun c => (N_of_ascii c < 128)%N) l -> latin1 l = Some l.
Proof.
  induction 1 as [| c l H _ IH]; [reflexivity |].
  cbn [latin1]. apply N.ltb_lt in H. rewrite H, IH. reflexivity.
Qed.

Lemma character_ascii (l : list ascii) :
  Forall (fun c => (N_of_ascii c < 128)%N) l -> flat_map character l = l.
Proof.
  induction 1 as [| c l H _ IH]; [reflexivity |].
  cbn [flat_map]. unfold character at 1. apply N.ltb_lt in H.
  rewrite H, IH. reflexivity.
Qed.

Lemma atob_btoa (s : string) :
  ascii_text s ->
  exists encoded, btoa s = Some encoded /\ atob encoded = Some s.
Proof.
  intros A. unfold btoa, atob. rewrite (latin1_ascii _ A). cbn [option_map].
  eexists. split; [reflexivity |].
  rewrite list_ascii_of_string_of_list_ascii, encode_no_space,
    strip_padding_encode, decode_encode_bare.
  cbn [option_map]. rewrite (character_ascii _ A).
  rewrite string_of_list_ascii_of_string. reflexivity.
Qed.

(** The encoding of a non-empty text is not empty. *)
Lemma btoa_truthy (s encoded : string) :
  btoa s = Some encoded -> JSString.truthy s = true -> JSString.truthy encoded = true.
Proof.
  unfold btoa. destruct s as [| c s]; [discriminate |].
  cbn [list_ascii_of_string]. intros H _.
  destruct (latin1 (c :: list_ascii_of_string s)) as [l |] eqn:E; [| discriminate].
  injection H as <-.
  destruct l as [| x [| y [| z l]]]; try reflexivity.
  cbn [latin1] in E.
  destruct (N_of_ascii c <? 128)%N.
  - destruct (latin1 (list_ascii_of_string s)); discriminate.
  - destruct ((N_of_ascii c =? 194) || (N_of_ascii c =? 195))%N; [| discriminate].
    destruct (list_ascii_of_string s) as [| d r]; [discriminate |].
    destruct ((128 <=? N_of_ascii d) && (N_of_ascii d <? 192))%N; [| discriminate].
    destruct (latin1 r); discriminate.
Qed.

End Base64RoundTrip.


(* ================================================================= *)
(** ** Properties of the key storage and of the settings *)

Section KeyStorage.
Import JSString Api Scenario Polls ApiConfig Base64Encode.

Lemma getApiKey_no_key (w : World) :
  no_key (storage w) ->
  exists k, getApiKey w = (Return k, w)
            /\ match k with Some key => truthy key = false | None => True end.
Proof.
  unfold getApiKey, bind, current, ret, no_key.
  destruct (storage w) as [encoded |]; [| intros _; exists None; auto].
  intros [H | [H | H]]; rewrite H.
  - exists None. auto.
  - destruct (truthy encoded); exists None; auto.
  - destruct (truthy encoded); [exists (Some "") | exists None]; auto.
Qed.

(** X5.  When the stored entry gives no usable key (there is none, it is
    empty, it is not base64 text, or it decodes to the empty text),
    [generateImage] fails with the error "API Key未配置，请先设置API Key"
    before doing anything: no request is sent and the manager is left as
    it was, even when it still holds a client. *)
Theorem generateImage_without_key
        (p : string) (options : Options) (onProgress : option Callback)
        (w : World) :
  no_key (storage w) ->
  generateImage p options onProgress w = (Throw not_configured_error, w).
Proof.
  intros H. destruct (getApiKey_no_key w H) as (k & E & F).
  unfold generateImage, isConfigured.
  unfold bind at 1. unfold bind at 1. rewrite E. unfold ret at 1.
  destruct k as [key |]; [rewrite F |]; reflexivity.
Qed.

Lemma generateImage_without_key_witness :
  no_key (Some "not base64!")
  /\ generateImage "prompt" no_options None
       {| client := Some the_client; settings := default_settings;
          storage := Some "not base64!"; remote := offline; polls := 0; trace := [] |}
     = (Throw not_configured_error,
        {| client := Some the_client; settings := default_settings;
           storage := Some "not base64!"; remote := offline; polls := 0; trace := [] |}).
Proof.
  assert (N : no_key (Some "not base64!")) by (right; left; reflexivity).
  split; [exact N |].
  apply (generateImage_without_key "prompt" no_options None
           {| client := Some the_client; settings := default_settings;
              storage := Some "not base64!"; remote := offline; polls := 0; trace := [] |}).
  exact N.
Defined.

(** X6.  Saving a non-empty key made of ASCII characters succeeds, and
    afterwards [getApiKey] returns exactly that key, [isConfigured] is
    true and the client is a new one for that key; the settings, the
    trace and the service are untouched. *)
Theorem saveApiKey_then_getApiKey (key : string) (w : World) :
  ascii_text key ->
  truthy key = true ->
  exists w',
    saveApiKey key w = (Return true, w')
    /\ getApiKey w' = (Return (Some key), w')
    /\ isConfigured w' = (Return true, w')
    /\ client w' = Some (new_KieAIClient key)
    /\ settings w' = settings w
    /\ remote w' = remote w
    /\ polls w' = polls w
    /\ trace w' = trace w.
Proof.
  intros A T. destruct (atob_btoa key A) as (encoded & B & D).
  pose proof (btoa_truthy key encoded B T) as Te.
  unfold saveApiKey. rewrite B.
  exists {| client := Some (new_KieAIClient key); settings := settings w;
            storage := Some encoded; remote := remote w; polls := polls w;
            trace := trace w |}.
  assert (G : forall cl st rem pl tr,
             getApiKey {| client := cl; settings := st; storage := Some encoded;
                          remote := rem; polls := pl; trace := tr |}
             = (Return (Some key),
                {| client := cl; settings := st; storage := Some encoded;
                   remote := rem; polls := pl; trace := tr |})).
  { intros. unfold getApiKey, bind, current, ret. cbn. rewrite Te, D. reflexivity. }
  split; [reflexivity |].
  split; [apply G |].
  split; [unfold isConfigured, bind; rewrite G; unfold ret; rewrite T; reflexivity |].
  repeat split.
Qed.

Lemma saveApiKey_then_getApiKey_witness :
  ascii_text "sk-12345"
  /\ truthy "sk-12345" = true
  /\ exists w',
       saveApiKey "sk-12345" (configured offline) = (Return true, w')
       /\ getApiKey w' = (Return (Some "sk-12345"), w')
       /\ storage w' = Some "c2stMTIzNDU=".
Proof.
  assert (A : ascii_text "sk-12345")
    by (unfold ascii_text; cbn; repeat constructor).
  split; [exact A | split; [reflexivity |]].
  destruct (saveApiKey_then_getApiKey "sk-12345" (configured offline) A eq_refl)
    as (w' & S1 & G & _).
  exists w'. split; [exact S1 | split; [exact G |]].
  vm_compute in S1. injection S1 as <-. reflexivity.
Defined.

Lemma latin1_wide (n : nat) :
  forall l,
    List.length l <= n ->
    Exists (fun c => (196 <= N_of_ascii c)%N) l ->
    latin1 l = None.
Proof.
  induction n as [| n IH]; intros l L E.
  - destruct l; [inversion E | cbn in L; lia].
  - destruct l as [| c rest]; [inversion E |].
    cbn [latin1]. cbn [List.length] in L.
    destruct (N_of_ascii c <? 128)%N eqn:C1.
    + apply N.ltb_lt in C1.
      inversion E as [? ? W | ? ? W]; subst; [lia |].
      rewrite (IH rest ltac:(lia) W). reflexivity.
    + destruct ((N_of_ascii c =? 194) || (N_of_ascii c =? 195))%N eqn:C2;
        [| reflexivity].
      apply orb_true_iff in C2. rewrite !N.eqb_eq in C2.
      destruct rest as [| d rest']; [reflexivity |].
      destruct ((128 <=? N_of_ascii d) && (N_of_ascii d <? 192))%N eqn:C3;
        [| reflexivity].
      apply andb_true_iff in C3 as [_ C3]. apply N.ltb_lt in C3.
      inversion E as [? ? W | ? ? W]; subst; [lia |].
      inversion W as [? ? W' | ? ? W']; subst; [lia |].
      cbn [List.length] in L.
      rewrite (IH rest' ltac:(lia) W'). reflexivity.
Qed.

(** X7.  A key that holds a character from U+0100 up (in UTF-8 such a
    character has a byte of 0xC4 or more, and no other character has)
    is not saved: [saveApiKey] returns [false] and the stored entry, the
    client and everything else stay as they were. *)
Theorem saveApiKey_rejects_wide_character (key : string) (w : World) :
  Exists (fun c => (196 <= N_of_ascii c)%N) (list_ascii_of_string key) ->
  saveApiKey key w = (Return false, w).
Proof.
  intros E. unfold saveApiKey, btoa.
  rewrite (latin1_wide _ _ (Nat.le_refl _) E). reflexivity.
Qed.

Lemma saveApiKey_rejects_wide_character_witness :
  Exists (fun c => (196 <= N_of_ascii c)%N) (list_ascii_of_string "密钥")
  /\ saveApiKey "密钥" (configured offline) = (Return false, configured offline).
Proof.
  assert (E : Exists (fun c => (196 <= N_of_ascii c)%N) (list_ascii_of_string "密钥"))
    by (apply Exists_cons_hd; vm_compute; discriminate).
  split; [exact E |].
  apply (saveApiKey_rejects_wide_character "密钥" (configured offline) E).
Defined.

(** X8.  Saving the empty key reports success and installs a client, yet
    the manager is not configured afterwards: [isConfigured] is false and
    [generateImage] fails with the missing-key error without a request. *)
Theorem saveApiKey_empty_key
        (w : World) (p : string) (options : Options)
        (onProgress : option Callback) :
  exists w',
    saveApiKey "" w = (Return true, w')
    /\ storage w' = Some ""
    /\ client w' = Some (new_KieAIClient "")
    /\ isConfigured w' = (Return false, w')
    /\ generateImage p options onProgress w' = (Throw not_configured_error, w').
Proof.
  eexists. split; [reflexivity |]. cbn [storage client].
  repeat split.
Qed.

(** X9.  After [clearApiKey] the stored entry and the client are gone,
    and [generateImage] fails with the missing-key error without sending
    anything, whatever key and client the manager held before. *)
Theorem clearApiKey_disables_generation
        (w : World) (p : string) (options : Options)
        (onProgress : option Callback) :
  exists w',
    clearApiKey w = (Return tt, w')
    /\ storage w' = None
    /\ client w' = None
    /\ settings w' = settings w
    /\ trace w' = trace w
    /\ generateImage p options onProgress w' = (Throw not_configured_error, w').
Proof.
  eexists. split; [reflexivity |]. cbn [storage client settings trace].
  repeat split.
Qed.

(** X10.  A new [APIManager] holds a client exactly when the stored
    entry gives a usable key, and then the client is one for the decoded
    key; its settings are 2K, png and 3:4. *)
Theorem new_APIManager_client (stored : option string) (r : Remote) :
  (no_key stored -> client (new_APIManager stored r) = None)
  /\ (forall encoded key,
         stored = Some encoded ->
         truthy encoded = true ->
         Base64.atob encoded = Some key ->
         truthy key = true ->
         client (new_APIManager stored r) = Some (new_KieAIClient key))
  /\ settings (new_APIManager stored r) = default_settings
  /\ storage (new_APIManager stored r) = stored.
Proof.
  unfold new_APIManager, init.
  set (w0 := {| client := None; settings := default_settings; storage := stored;
                remote := r; polls := 0; trace := [] |}).
  repeat split.
  - intros N. destruct (getApiKey_no_key w0 N) as (k & E & F).
    unfold bind. rewrite E. destruct k as [key |]; [rewrite F |]; reflexivity.
  - intros encoded key -> Te D Tk.
    unfold bind, getApiKey, current, ret. cbn. rewrite Te, D, Tk. reflexivity.
  - unfold bind, getApiKey, current, ret. cbn.
    destruct stored as [encoded |]; [| reflexivity].
    destruct (truthy encoded); [| reflexivity].
    destruct (Base64.atob encoded) as [key |]; [| reflexivity].
    destruct (truthy key); reflexivity.
  - unfold bind, getApiKey, current, ret. cbn.
    destruct stored as [encoded |]; [| reflexivity].
    destruct (truthy encoded); [| reflexivity].
    destruct (Base64.atob encoded) as [key |]; [| reflexivity].
    destruct (truthy key); reflexivity.
Qed.

Lemma new_APIManager_client_witness :
  no_key None
  /\ client (new_APIManager None offline) = None
  /\ client (new_APIManager (Some "c2stMTIzNDU=") offline)
     = Some (new_KieAIClient "sk-12345").
Proof.
  destruct (new_APIManager_client None offline) as (A & _).
  destruct (new_APIManager_client (Some "c2stMTIzNDU=") offline) as (_ & B & _).
  split; [exact I | split; [exact (A I) |]].
  apply (B "c2stMTIzNDU=" "sk-12345"); reflexivity.
Defined.

End KeyStorage.


(* ================================================================= *)
(** ** Further properties of [generateImage] *)

Section GenerateImage.
Import JSString Api Scenario Polls ApiConfig.


Lemma create_request_event (c : KieAIClient) (p : string) (s : Settings)
      (o : Options) :
  create_request c p s o = create_event c p s o.
Proof.
  unfold create_request, create_event, merge, pick, or_default. cbn.
  destruct (o_aspectRatio o), (o_resolution o), (o_format o); reflexivity.
Qed.


End GenerateImage.

Section WithKey.
Import JSString Api Scenario Polls ApiConfig.
Variables (st : Settings) (rem : Remote) (pl : nat) (tr : list Event)
          (encoded key : string).
Hypothesis (He : truthy encoded = true)
           (Ha : Base64.atob encoded = Some key)
           (Hk : truthy key = true).

Local Abbreviation world cl :=
  {| client := cl; settings := st; storage := Some encoded;
     remote := rem; polls := pl; trace := tr |}.

Lemma generateImage_then_polls
      (p : string) (options : Options) (onProgress : option Callback)
      (cl : option KieAIClient) (b : Response CreateData) (d : CreateData) :
  on_createTask rem = Resolved b ->
  code b = 200%Z ->
  data b = Some d ->
  generateImage p options onProgress (world cl)
  = bind (pollUntilComplete (client_in_use key (world cl)) (taskId d) 30 2000
                            onProgress)
      extract_url
      (task_created (client_in_use key (world cl)) p options (world cl)).
Proof.
  intros Hr Hc Hd. unfold generateImage.
  rewrite (bind_return _ _ _ _ _ (isConfigured_run st rem pl tr encoded key He Ha Hk cl)).
  cbn [negb].
  rewrite (bind_return _ _ _ _ _ (ensure_client_run st rem pl tr encoded key He Ha Hk cl)).
  set (c := client_in_use key (world cl)).
  rewrite (bind_return current _ _ _ _ eq_refl). cbn [settings].
  erewrite (bind_return (createTask c p (merge st options)));
    [| unfold createTask, bind, current, emit, modify, checked; cbn; rewrite Hr, Hc;
       reflexivity].
  erewrite bind_return; [| unfold data_of; rewrite Hd; reflexivity].
  reflexivity.
Qed.

Lemma generateImage_create_fails
      (p : string) (options : Options) (onProgress : option Callback)
      (cl : option KieAIClient) (e : JSError) :
  create_error (on_createTask rem) = Some e ->
  generateImage p options onProgress (world cl)
  = (Throw e, task_created (client_in_use key (world cl)) p options (world cl)).
Proof.
  intros H. unfold generateImage.
  rewrite (bind_return _ _ _ _ _ (isConfigured_run st rem pl tr encoded key He Ha Hk cl)).
  cbn [negb].
  rewrite (bind_return _ _ _ _ _ (ensure_client_run st rem pl tr encoded key He Ha Hk cl)).
  set (c := client_in_use key (world cl)).
  rewrite (bind_return current _ _ _ _ eq_refl). cbn [settings].
  unfold create_error in H.
  destruct (on_createTask rem) as [e0 | b] eqn:Hr.
  - injection H as <-.
    erewrite bind_throw; [reflexivity |].
    unfold createTask, bind, current, emit, modify, checked; cbn. rewrite Hr.
    reflexivity.
  - destruct (code b =? 200)%Z eqn:Hc.
    + destruct (data b) eqn:Hd; [discriminate | injection H as <-].
      erewrite (bind_return (createTask c p (merge st options)));
        [| unfold createTask, bind, current, emit, modify, checked; cbn;
           rewrite Hr, Hc; reflexivity].
      erewrite bind_throw; [reflexivity |].
      unfold data_of. rewrite Hd. reflexivity.
    + injection H as <-.
      erewrite bind_throw; [reflexivity |].
      unfold createTask, bind, current, emit, modify, checked; cbn.
      rewrite Hr, Hc. reflexivity.
Qed.

End WithKey.

Section GenerateImageRuns.
Import JSString Api Scenario Polls ApiConfig.

Variables (p : string) (options : Options) (onProgress : option Callback).

(** X11.  With a usable key stored, when the reply to [createTask] is a
    rejection, a body whose code is not 200, or a body without [data],
    [generateImage] fails with the corresponding error right after that
    one request: no poll is sent.  The request carries, for each of
    aspect ratio, resolution and format, the option when given, else the
    setting, and the built-in default (3:4, 2K, png) when that value is
    empty. *)
Theorem generateImage_stops_when_createTask_fails
        (w : World) (key : string) (e : JSError) :
  holds_key (storage w) key ->
  create_error (on_createTask (remote w)) = Some e ->
  exists w',
    generateImage p options onProgress w = (Throw e, w')
    /\ trace w'
       = (trace w ++ [create_event (client_in_use key w) p (settings w) options])%list
    /\ polls w' = polls w.
Proof.
  intros (encoded & Hs & He & Ha & Hk) H.
  destruct w as [cl st sto rem pl tr]. cbn [storage remote] in Hs, H. subst sto.
  eexists. split.
  - apply (generateImage_create_fails st rem pl tr encoded key He Ha Hk
             p options onProgress cl e H).
  - cbn [task_created trace polls settings]. rewrite create_request_event.
    split; reflexivity.
Qed.

(** X12.  Provided there is no progress callback or the callback never
    throws: with a usable key stored and the task accepted (the reply
    to [createTask] has code 200 and [data]), when the first [k] polls
    ([k] below 30) are answered with code 200 and a state other than
    [success] and [fail], and the next one with code 200, the state
    [success] and a [resultJson] that parses to an object whose
    [resultUrls] is an array with a truthy first entry, [generateImage]
    returns that entry, after one [createTask] request, [k + 1] polls
    and [k] waits of 2000 ms, the callback, if there is one, having
    been called with [attempts] 1 to [k + 1]. *)
Theorem generateImage_returns_first_url
        (w : World) (key : string) (b : Response CreateData) (d : CreateData)
        (k : nat) (r : Response TaskData) (t : TaskData)
        (members : list (string * JSON.value)) (url : JSON.value)
        (more : list JSON.value) :
  holds_key (storage w) key ->
  on_createTask (remote w) = Resolved b ->
  code b = 200%Z ->
  data b = Some d ->
  k < 30 ->
  (forall i, i < k -> pending_at w (polls w + i)) ->
  on_recordInfo (remote w) (polls w + k) = Resolved r ->
  code r = 200%Z ->
  data r = Some t ->
  state t = "success" ->
  JSON.parse (JSON.text_arg (resultJson t)) = Some (JSON.Object members) ->
  JSON.lookup "resultUrls" members = Some (JSON.Array (url :: more)) ->
  JSON.truthy url = true ->
  quiet onProgress ->
  exists w',
    generateImage p options onProgress w = (Return url, w')
    /\ requests (trace w') = requests (trace w) + k + 2
    /\ timers (trace w') = timers (trace w) + k
    /\ attempts_reported (trace w')
       = (attempts_reported (trace w) ++ numbered onProgress 1 (k + 1))%list.
Proof.
  intros (encoded & Hs & He & Ha & Hk) Hcr Hcc Hcd L P Hr Hc Hd Hst Hp Hl Ht Q.
  destruct w as [cl st sto rem pl tr].
  cbn [storage remote polls] in Hs, Hcr, P, Hr. subst sto.
  rewrite (generateImage_then_polls st rem pl tr encoded key He Ha Hk
             p options onProgress cl b d Hcr Hcc Hcd).
  set (w0 := {| client := cl; settings := st; storage := Some encoded;
                remote := rem; polls := pl; trace := tr |}).
  set (c := client_in_use key w0).
  set (w1 := task_created c p options w0).
  destruct (waited_world c (taskId d) 30 2000 onProgress k 0 w1)
    as (R & Po & _ & _ & _ & T & Rq & A).
  eexists. split.
  - erewrite bind_return.
    2:{ unfold pollUntilComplete.
        replace 30 with (k + (30 - k)) at 1 by lia.
        rewrite loop_waits; [| lia | exact P | exact Q].
        replace (30 - k) with (S (30 - k - 1)) by lia.
        rewrite loop_step by lia.
        erewrite turn_success;
          [reflexivity | | exact Hc | exact Hd | exact Hst | exact Q].
        rewrite R, Po. exact Hr. }
    unfold extract_url, bind, data_of, ret. rewrite Hd, Hp.
    cbn [JSON.member]. rewrite Hl. cbn [JSON.first]. rewrite Ht. reflexivity.
  - cbn [after_poll trace].
    rewrite requests_app, timers_app, attempts_reported_app, T, Rq, A.
    cbn [requests]. unfold w1 at 1 2 3. cbn [task_created trace].
    rewrite requests_app, timers_app, attempts_reported_app.
    unfold report, progress, numbered, attempts_reported.
    destruct onProgress; cbn; repeat split; try lia.
    + rewrite app_nil_r, <- app_assoc. f_equal.
      replace (k + 1) with (S k) by lia. rewrite seq_S. reflexivity.
    + rewrite !app_nil_r. reflexivity.
Qed.

(** X13.  Provided there is no progress callback or the callback never
    throws: with a usable key stored and the task accepted (the reply
    to [createTask] has code 200 and [data]), when the first [k] polls
    ([k] below 30) are answered with code 200 and a state other than
    [success] and [fail], and the next one with code 200, the state
    [success] and a [resultJson] that parses to an object whose
    [resultUrls] is an empty array or an array whose first entry is
    falsy (an empty text, [null], [false], zero), [generateImage] fails
    with the error "图片生成失败，未获取到图片URL". *)
Theorem generateImage_without_url
        (w : World) (key : string) (b : Response CreateData) (d : CreateData)
        (k : nat) (r : Response TaskData) (t : TaskData)
        (members : list (string * JSON.value)) (urls : list JSON.value) :
  holds_key (storage w) key ->
  on_createTask (remote w) = Resolved b ->
  code b = 200%Z ->
  data b = Some d ->
  k < 30 ->
  (forall i, i < k -> pending_at w (polls w + i)) ->
  on_recordInfo (remote w) (polls w + k) = Resolved r ->
  code r = 200%Z ->
  data r = Some t ->
  state t = "success" ->
  JSON.parse (JSON.text_arg (resultJson t)) = Some (JSON.Object members) ->
  JSON.lookup "resultUrls" members = Some (JSON.Array urls) ->
  match urls with
  | [] => True
  | first :: _ => JSON.truthy first = false
  end ->
  quiet onProgress ->
  fst (generateImage p options onProgress w) = Throw missing_result.
Proof.
  intros (encoded & Hs & He & Ha & Hk) Hcr Hcc Hcd L P Hr Hc Hd Hst Hp Hl Ht Q.
  destruct w as [cl st sto rem pl tr].
  cbn [storage remote polls] in Hs, Hcr, P, Hr. subst sto.
  rewrite (generateImage_then_polls st rem pl tr encoded key He Ha Hk
             p options onProgress cl b d Hcr Hcc Hcd).
  set (w0 := {| client := cl; settings := st; storage := Some encoded;
                remote := rem; polls := pl; trace := tr |}).
  set (c := client_in_use key w0).
  set (w1 := task_created c p options w0).
  destruct (waited_world c (taskId d) 30 2000 onProgress k 0 w1)
    as (R & Po & _).
  erewrite bind_return.
  2:{ unfold pollUntilComplete.
      replace 30 with (k + (30 - k)) at 1 by lia.
      rewrite loop_waits; [| lia | exact P | exact Q].
      replace (30 - k) with (S (30 - k - 1)) by lia.
      rewrite loop_step by lia.
      erewrite turn_success;
        [reflexivity | | exact Hc | exact Hd | exact Hst | exact Q].
      rewrite R, Po. exact Hr. }
  unfold extract_url, bind, data_of, ret. rewrite Hd, Hp.
  cbn [JSON.member]. rewrite Hl. cbn [JSON.first].
  destruct urls as [| first rest]; [reflexivity |].
  rewrite Ht. reflexivity.
Qed.





End GenerateImageRuns.


(* ================================================================= *)
(** ** The further properties on examples *)

Section ApiExamples.
Import JSString Api Scenario Polls ApiConfig.

Lemma pending_processing (first : TaskData) (more : list TaskData) (w : World)
      (j : nat) :
  remote w = scripted first more ->
  state (nth j (first :: more) (last more first)) = "processing" ->
  pending_at w j.
Proof.
  intros R S. unfold pending_at. rewrite R. cbn [scripted on_recordInfo ok].
  eexists. eexists. split; [reflexivity |].
  split; [reflexivity | split; [reflexivity |]].
  rewrite S. split; reflexivity.
Qed.

Lemma pollUntilComplete_returns_first_success_witness :
  2 < 30
  /\ exists w',
       pollUntilComplete the_client "task-1" 30 2000 (Some silent)
         (configured two_then_success)
       = (Return {| code := 200; msg := Some "success";
                    data := Some (succeeded (Some url_json)) |}, w')
       /\ polls w' = 3
       /\ timers (trace w') = 2
       /\ attempts_reported (trace w') = [1; 2; 3].
Proof.
  split; [lia |].
  assert (L : 2 < 30) by lia.
  assert (Pe : forall i, i < 2 ->
                 pending_at (configured two_then_success)
                            (polls (configured two_then_success) + i)).
  { intros i Hi.
    apply (pending_processing (in_state "processing")
             [in_state "processing"; succeeded (Some url_json)]);
      [reflexivity |].
    destruct i as [| [| i]]; [reflexivity | reflexivity | lia]. }
  assert (Q : quiet (Some silent)) by (intros info; reflexivity).
  destruct (pollUntilComplete_returns_first_success
              the_client "task-1" 30 2000 (Some silent) 2
              (configured two_then_success)
              {| code := 200; msg := Some "success";
                 data := Some (succeeded (Some url_json)) |}
              (succeeded (Some url_json))
              L Pe eq_refl eq_refl eq_refl eq_refl Q)
    as (w' & E & _ & P & _ & T & A).
  exists w'. split; [exact E | split; [exact P | split; [exact T | exact A]]].
Defined.

Lemma never_done_pending (w : World) (j : nat) :
  remote w = never_done -> pending_at w j.
Proof.
  intros R. apply (pending_processing (in_state "processing") []); [exact R |].
  destruct j as [| [| j]]; reflexivity.
Qed.

Lemma pollUntilComplete_times_out_witness :
  exists w',
    pollUntilComplete the_client "task-1" 3 2000 (Some silent) (configured never_done)
    = (Throw timeout_error, w')
    /\ polls w' = 3
    /\ timers (trace w') = 3
    /\ attempts_reported (trace w') = [1; 2; 3].
Proof.
  assert (Pe : forall i, i < 3 ->
                 pending_at (configured never_done)
                            (polls (configured never_done) + i))
    by (intros i _; apply never_done_pending; reflexivity).
  assert (Q : quiet (Some silent)) by (intros info; reflexivity).
  destruct (pollUntilComplete_times_out
              the_client "task-1" 3 2000 (Some silent) (configured never_done) Pe Q)
    as (w' & E & _ & P & _ & T & A).
  exists w'. split; [exact E | split; [exact P | split; [exact T | exact A]]].
Defined.

Lemma pollUntilComplete_retries_without_wait_witness :
  0 < 3
  /\ exists w',
       pollUntilComplete the_client "task-1" 3 2000 (Some silent) (configured offline)
       = (Throw network_error, w')
       /\ polls w' = 3
       /\ timers (trace w') = 0
       /\ attempts_reported (trace w') = [].
Proof.
  split; [lia |].
  assert (L : 0 < 3) by lia.
  assert (F : forall i, i < 3 ->
                exists e', reply_error (on_recordInfo (remote (configured offline))
                                          (polls (configured offline) + i))
                           = Some e')
    by (intros i _; exists network_error; reflexivity).
  destruct (pollUntilComplete_retries_without_wait
              the_client "task-1" 3 2000 (Some silent) (configured offline)
              network_error L F eq_refl)
    as (w' & E & _ & P & _ & T & A).
  exists w'. split; [exact E | split; [exact P | split; [exact T | exact A]]].
Defined.

Lemma configured_key (r : Remote) : holds_key (storage (configured r)) "sk-12345".
Proof. exists "c2stMTIzNDU=". repeat split. Qed.

Lemma generateImage_stops_when_createTask_fails_witness :
  holds_key (storage (configured offline)) "sk-12345"
  /\ exists w',
       generateImage "prompt" no_options None (configured offline)
       = (Throw network_error, w')
       /\ polls w' = 0.
Proof.
  split; [apply configured_key |].
  destruct (generateImage_stops_when_createTask_fails
              "prompt" no_options None (configured offline) "sk-12345" network_error
              (configured_key offline) eq_refl)
    as (w' & E & _ & P).
  exists w'. split; [exact E | exact P].
Defined.

Lemma generateImage_returns_first_url_witness :
  holds_key (storage (configured two_then_success)) "sk-12345"
  /\ exists w',
       generateImage "prompt" no_options (Some silent) (configured two_then_success)
       = (Return (JSON.Str "https://x/y.png"), w')
       /\ requests (trace w') = 4.
Proof.
  split; [apply configured_key |].
  assert (L : 2 < 30) by lia.
  assert (Pe : forall i, i < 2 ->
                 pending_at (configured two_then_success)
                            (polls (configured two_then_success) + i)).
  { intros i Hi.
    apply (pending_processing (in_state "processing")
             [in_state "processing"; succeeded (Some url_json)]);
      [reflexivity |].
    destruct i as [| [| i]]; [reflexivity | reflexivity | lia]. }
  assert (Q : quiet (Some silent)) by (intros info; reflexivity).
  assert (Pj : JSON.parse (JSON.text_arg (resultJson (succeeded (Some url_json))))
               = Some (JSON.Object
                         [("resultUrls", JSON.Array [JSON.Str "https://x/y.png"])]))
    by (vm_compute; reflexivity).
  destruct (generateImage_returns_first_url
              "prompt" no_options (Some silent) (configured two_then_success)
              "sk-12345"
              {| code := 200; msg := Some "success";
                 data := Some {| taskId := "task-1" |} |}
              {| taskId := "task-1" |}
              2
              {| code := 200; msg := Some "success";
                 data := Some (succeeded (Some url_json)) |}
              (succeeded (Some url_json))
              [("resultUrls", JSON.Array [JSON.Str "https://x/y.png"])]
              (JSON.Str "https://x/y.png") []
              (configured_key two_then_success) eq_refl eq_refl eq_refl L Pe
              eq_refl eq_refl eq_refl eq_refl Pj eq_refl eq_refl Q)
    as (w' & E & R & _).
  exists w'. split; [exact E | exact R].
Defined.

Lemma generateImage_without_url_witness :
  holds_key (storage (configured success_without_url)) "sk-12345"
  /\ fst (generateImage "prompt" no_options None (configured success_without_url))
     = Throw missing_result.
Proof.
  split; [apply configured_key |].
  assert (L : 0 < 30) by lia.
  assert (Pe : forall i, i < 0 ->
                 pending_at (configured success_without_url)
                            (polls (configured success_without_url) + i))
    by (intros i Hi; lia).
  assert (Pj : JSON.parse
                 (JSON.text_arg (resultJson (succeeded (Some (result_json "")))))
               = Some (JSON.Object [("resultUrls", JSON.Array [])]))
    by (vm_compute; reflexivity).
  apply (generateImage_without_url
           "prompt" no_options None (configured success_without_url) "sk-12345"
           {| code := 200; msg := Some "success";
              data := Some {| taskId := "task-1" |} |}
           {| taskId := "task-1" |}
           0
           {| code := 200; msg := Some "success";
              data := Some (succeeded (Some (result_json ""))) |}
           (succeeded (Some (result_json "")))
           [("resultUrls", JSON.Array [])] []
           (configured_key success_without_url) eq_refl eq_refl eq_refl L Pe
           eq_refl eq_refl eq_refl eq_refl Pj eq_refl I I).
Defined.



End ApiExamples.

Section ErrorMessages.
Import JSString Api Scenario Polls.

Ltac mapped :=
  split; [intros _; reflexivity |];
  split; [intros H; exfalso; apply H; cbn; lia | reflexivity].

(** X16.  For the codes 400, 401, 402, 404, 422, 429 and 500 the message
    of [getErrorMessage] is the client's own and does not depend on what
    the service said; for every other code it is the service's message
    when that is a non-empty text and "未知错误" otherwise.  The message
    is never empty. *)
Theorem getErrorMessage_cases (c : Z) (message : option string) :
  (In c mapped_codes -> getErrorMessage c message = getErrorMessage c None)
  /\ (~ In c mapped_codes ->
      getErrorMessage c message = or_default message "未知错误")
  /\ truthy (getErrorMessage c message) = true.
Proof.
  unfold getErrorMessage, errorMap, mapped_codes.
  destruct (c =? 400)%Z eqn:E1; [apply Z.eqb_eq in E1; mapped |].
  destruct (c =? 401)%Z eqn:E2; [apply Z.eqb_eq in E2; mapped |].
  destruct (c =? 402)%Z eqn:E3; [apply Z.eqb_eq in E3; mapped |].
  destruct (c =? 404)%Z eqn:E4; [apply Z.eqb_eq in E4; mapped |].
  destruct (c =? 422)%Z eqn:E5; [apply Z.eqb_eq in E5; mapped |].
  destruct (c =? 429)%Z eqn:E6; [apply Z.eqb_eq in E6; mapped |].
  destruct (c =? 500)%Z eqn:E7; [apply Z.eqb_eq in E7; mapped |].
  apply Z.eqb_neq in E1, E2, E3, E4, E5, E6, E7.
  repeat split.
  - intros H. cbn in H. lia.
  - unfold or_default. destruct message as [m |]; [| reflexivity].
    destruct (truthy m) eqn:T; [exact T | reflexivity].
Qed.

Lemma getErrorMessage_cases_witness :
  In 401%Z mapped_codes
  /\ getErrorMessage 401 (Some "Unauthorized") = "API Key无效，请检查配置"
  /\ ~ In 503%Z mapped_codes
  /\ getErrorMessage 503 (Some "Service Unavailable") = "Service Unavailable"
  /\ getErrorMessage 503 (Some "") = "未知错误".
Proof.
  assert (A : In 401%Z mapped_codes) by (cbn; auto).
  assert (B : ~ In 503%Z mapped_codes) by (cbn; lia).
  destruct (getErrorMessage_cases 401 (Some "Unauthorized")) as (M & _).
  destruct (getErrorMessage_cases 503 (Some "Service Unavailable")) as (_ & U & _).
  destruct (getErrorMessage_cases 503 (Some "")) as (_ & V & _).
  split; [exact A | split; [rewrite (M A); reflexivity |]].
  split; [exact B | split; [rewrite (U B); reflexivity | rewrite (V B); reflexivity]].
Defined.

End ErrorMessages.


(* ================================================================= *)
(** ** Properties of whole dialogues *)

Section Dialogues.
Import JSString Business Session Template Controller Dialogue.

Lemma to_int_proper (n : Z) :
  Z.to_int n <> Decimal.Pos Decimal.Nil /\ Z.to_int n <> Decimal.Neg Decimal.Nil.
Proof.
  destruct n as [| p | p]; cbn; split; try discriminate;
    intros E; injection E as E;
    exact (DecimalPos.Unsigned.to_uint_nonnil p E).
Qed.

Lemma Number_toString_inj (a b : Z) :
  Number_toString a = Number_toString b -> a = b.
Proof.
  unfold Number_toString. intros E.
  destruct (to_int_proper a) as [Pa Na], (to_int_proper b) as [Pb Nb].
  apply DecimalZ.to_int_inj.
  pose proof (NilZero.isi _ Pa Na) as Ia.
  pose proof (NilZero.isi _ Pb Nb) as Ib.
  rewrite E in Ia. congruence.
Qed.

Lemma advancing_inj (clk : nat -> Z) (i j : nat) :
  advancing clk -> clk i = clk j -> i = j.
Proof.
  intros A E. destruct (Nat.lt_trichotomy i j) as [L | [L | L]];
    [apply A in L; lia | exact L | apply A in L; lia].
Qed.

(** Pushing a message keeps the ids tied to pairwise different
    readings. *)
Lemma ids_from_clock_push (message : MessageInit) (w : World) :
  ids_from_clock w -> ids_from_clock (snd (addMessage message w)).
Proof.
  intros (calls & E & D & B). rewrite addMessage_run. cbn [snd].
  exists (calls ++ [reads w])%list. unfold ids_from_clock.
  cbn [this messages clock reads].
  rewrite !map_app, E. cbn [map stored id]. split; [reflexivity |].
  split.
  - apply NoDup_app; [exact D | repeat constructor; intros [] | ].
    intros x Hx [<- | []].
    rewrite Forall_forall in B. specialize (B _ Hx). lia.
  - apply Forall_app. split.
    + eapply Forall_impl; [| exact B]. cbn. intros; lia.
    + repeat constructor.
Qed.

Lemma ids_from_clock_fields (w : World) (cm : ConversationManager) :
  messages cm = messages (this w) ->
  ids_from_clock w ->
  ids_from_clock {| this := cm; clock := clock w; reads := reads w |}.
Proof.
  intros M (calls & E & D & B). exists calls.
  cbn [this clock reads]. rewrite M. repeat split; assumption.
Qed.

Lemma ids_from_clock_empty (w : World) (cm : ConversationManager) :
  messages cm = [] ->
  ids_from_clock {| this := cm; clock := clock w; reads := reads w |}.
Proof.
  intros M. exists []. cbn [this clock reads]. rewrite M.
  repeat split; constructor.
Qed.

Lemma apply_operation_clock (o : operation) (w : World) :
  clock (apply_operation o w) = clock w.
Proof.
  destruct o as [| text | |]; try reflexivity.
  cbn [apply_operation]. unfold handleUserInput.
  unfold bind at 1. rewrite addMessage_run.
  cbn [bind current this state]. destruct (state (this w)); reflexivity.
Qed.

Lemma apply_operation_ids (o : operation) (w : World) :
  ids_from_clock w -> ids_from_clock (apply_operation o w).
Proof.
  intros I. destruct o as [| text | |]; cbn [apply_operation].
  - apply (ids_from_clock_push
             {| mi_type := system; mi_content := welcome_text; mi_prompt := None |}
             {| this := {| state := ASKING_THEME; currentTheme := None;
                           currentTitle := None; messages := [] |};
                clock := clock w; reads := reads w |}).
    apply (ids_from_clock_empty w). reflexivity.
  - pose proof (ids_from_clock_push (user_message text) w I) as J.
    rewrite addMessage_run in J. cbn [snd] in J.
    unfold handleUserInput. unfold bind at 1. rewrite addMessage_run.
    cbn [bind current this state]. destruct (state (this w)).
    + exact J.
    + set (w1 := {| this := _; clock := clock w; reads := S (S (reads w)) |}) in J.
      apply (ids_from_clock_push
               {| mi_type := system; mi_content := title_question;
                  mi_prompt := None |}
               {| this := {| state := ASKING_TITLE; currentTheme := Some text;
                             currentTitle := currentTitle (this w);
                             messages := messages (this w1) |};
                  clock := clock w1; reads := reads w1 |}).
      apply (ids_from_clock_fields w1); [reflexivity | exact J].
    + set (w1 := {| this := _; clock := clock w; reads := S (S (reads w)) |}) in J.
      apply (ids_from_clock_push
               {| mi_type := ai; mi_content := prompt_ready;
                  mi_prompt :=
                    Some (generatePrompt new_PromptGenerator
                            (as_text (currentTheme (this w))) text) |}
               {| this := {| state := GENERATING;
                             currentTheme := currentTheme (this w);
                             currentTitle := Some text;
                             messages := messages (this w1) |};
                  clock := clock w1; reads := reads w1 |}).
      apply (ids_from_clock_fields w1); [reflexivity | exact J].
    + exact J.
  - apply (ids_from_clock_empty w). reflexivity.
  - apply (ids_from_clock_push
             {| mi_type := system; mi_content := welcome_text; mi_prompt := None |}
             {| this := {| state := ASKING_THEME; currentTheme := None;
                           currentTitle := None; messages := [] |};
                clock := clock w; reads := reads w |}).
    apply (ids_from_clock_empty w). reflexivity.
Qed.

Lemma run_ids (ops : list operation) (w : World) :
  ids_from_clock w ->
  ids_from_clock (run ops w) /\ clock (run ops w) = clock w.
Proof.
  revert w. induction ops as [| o ops IH]; intros w I; [split; trivial |].
  cbn [run]. destruct (IH _ (apply_operation_ids o w I)) as [J C].
  split; [exact J | rewrite C; apply apply_operation_clock].
Qed.

(** X17.  When every reading of the clock is later than the one before
    (no two calls of [Date.now()] fall into the same millisecond), and
    the ids of the history at hand came from different readings (an
    empty history, for one), the ids of the history stay pairwise
    distinct through every sequence of [startConversation],
    [handleUserInput], [reset] and [startNewCreation] calls, rejected
    inputs included. *)
Theorem ids_distinct_while_clock_advances (ops : list operation) (w : World) :
  advancing (clock w) ->
  ids_from_clock w ->
  NoDup (map id (messages (this (run ops w)))).
Proof.
  intros A I. destruct (run_ids ops w I) as [(calls & E & D & _) C].
  rewrite E, C.
  apply Finite.Injective_map_NoDup; [| exact D].
  intros i j H. apply Number_toString_inj in H.
  apply (advancing_inj _ _ _ A H).
Qed.

Lemma generatePrompt_filled (vg : VocabularyGenerator) (theme title : string) :
  let f := formatVocabularies (generateVocabulary vg theme) in
  plain theme = true ->
  plain title = true ->
  plain (f_characters f) = true ->
  plain (f_items f) = true ->
  plain (f_environment f) = true ->
  generatePrompt (generator vg) theme title
  = filled theme title f template_pieces.
Proof.
  intros f Pth Pti Pc Pi Pe.
  unfold generatePrompt. cbn [pg_template vocabularyGenerator generator].
  fold f. rewrite <- template_cut.
  assert (NE : forall p, String "{" p <> EmptyString) by (intros p; discriminate).
  rewrite (replace_g_render ph_theme theme);
    [| apply NE | exact Pth | vm_compute; reflexivity].
  rewrite (replace_g_render ph_title title);
    [| apply NE | exact Pti
     | apply inertb_fill; [apply plain_no_overlap, Pth | vm_compute; reflexivity]].
  rewrite (replace_g_render ph_characters (f_characters f));
    [| apply NE | exact Pc
     | repeat (apply inertb_fill; [apply plain_no_overlap; assumption |]);
       vm_compute; reflexivity].
  rewrite (replace_g_render ph_items (f_items f));
    [| apply NE | exact Pi
     | repeat (apply inertb_fill; [apply plain_no_overlap; assumption |]);
       vm_compute; reflexivity].
  rewrite (replace_g_render ph_environment (f_environment f));
    [| apply NE | exact Pe
     | repeat (apply inertb_fill; [apply plain_no_overlap; assumption |]);
       vm_compute; reflexivity].
  reflexivity.
Qed.

Lemma append_assoc (a b c : string) : ((a ++ b) ++ c = a ++ (b ++ c))%string.
Proof. induction a as [| x a IH]; cbn; [reflexivity | rewrite IH; reflexivity]. Qed.

Lemma includes_head (x b : string) : includes (x ++ b) x = true.
Proof. apply includes_spec. exists EmptyString, b. reflexivity. Qed.

Lemma includes_later (a s x : string) :
  includes s x = true -> includes (a ++ s) x = true.
Proof.
  rewrite !includes_spec. intros (u & v & ->).
  exists (a ++ u), v. apply eq_sym, append_assoc.
Qed.

(** Walk along the pieces of a text up to the piece looked for. *)
Ltac find_piece :=
  first [apply includes_head | apply includes_later; find_piece].


Lemma startConversation_run (w : World) :
  let m := stored {| mi_type := system; mi_content := welcome_text;
                     mi_prompt := None |} w in
  startConversation w
  = (Return {| sr_state := ASKING_THEME; sr_message := Some m |},
     {| this := {| state := ASKING_THEME; currentTheme := None;
                   currentTitle := None; messages := [m] |};
        clock := clock w;
        reads := S (S (reads w)) |}).
Proof. reflexivity. Qed.

Lemma handleUserInput_theme_run (input : string) (w : World) :
  state (this w) = ASKING_THEME ->
  let question := {| mi_type := system; mi_content := title_question;
                     mi_prompt := None |} in
  let w1 := snd (addMessage (user_message input) w) in
  handleUserInput input w
  = (Return {| r_state := ASKING_TITLE; r_message := question;
               r_nextStep := Some "title"; r_prompt := None;
               r_theme := None; r_title := None |},
     {| this := {| state := ASKING_TITLE;
                   currentTheme := Some input;
                   currentTitle := currentTitle (this w);
                   messages := (messages (this w)
                                ++ [stored (user_message input) w;
                                    stored question w1])%list |};
        clock := clock w;
        reads := reads w + 4 |}).
Proof.
  intros St question w1. subst w1. unfold handleUserInput.
  unfold bind at 1. rewrite addMessage_run.
  cbn [bind current this state snd]. rewrite St.
  cbn [bind set_currentTheme set_state update modify this state currentTheme
       currentTitle messages clock reads].
  unfold bind at 1. rewrite !addMessage_run.
  cbn [bind current ret this state currentTheme currentTitle messages clock
       reads snd stored].
  rewrite <- app_assoc. cbn [app].
  replace (reads w + 4) with (S (S (S (S (reads w))))) by lia.
  reflexivity.
Qed.

Lemma handleUserInput_title_run (input : string) (w : World) :
  state (this w) = ASKING_TITLE ->
  let prompt :=
    generatePrompt new_PromptGenerator (as_text (currentTheme (this w))) input in
  let ready := {| mi_type := ai; mi_content := prompt_ready;
                  mi_prompt := Some prompt |} in
  let w1 := snd (addMessage (user_message input) w) in
  handleUserInput input w
  = (Return {| r_state := GENERATING; r_message := ready;
               r_nextStep := None; r_prompt := Some prompt;
               r_theme := currentTheme (this w); r_title := Some input |},
     {| this := {| state := GENERATING;
                   currentTheme := currentTheme (this w);
                   currentTitle := Some input;
                   messages := (messages (this w)
                                ++ [stored (user_message input) w;
                                    stored ready w1])%list |};
        clock := clock w;
        reads := reads w + 4 |}).
Proof.
  intros St prompt ready w1. subst w1. unfold handleUserInput.
  unfold bind at 1. rewrite addMessage_run.
  cbn [bind current this state snd]. rewrite St.
  cbn [bind set_currentTitle set_state update modify current this state
       currentTheme currentTitle messages clock reads as_text].
  unfold bind at 1. rewrite !addMessage_run.
  cbn [bind current ret this state currentTheme currentTitle messages clock
       reads snd stored].
  rewrite <- app_assoc. cbn [app].
  replace (reads w + 4) with (S (S (S (S (reads w))))) by lia.
  reflexivity.
Qed.

(** X18.  From any state of the manager, [startConversation], an answer
    for the theme and an answer for the title, whatever the two texts
    are (empty ones too), lead to [GENERATING]: the first answer is
    acknowledged with next step [title], the second returns the theme
    and the title as typed and the prompt [generatePrompt] builds for
    them; the history then holds five messages, the last of them the
    [ai] message that carries the prompt. *)
Theorem conversation_reaches_generating (w : World) (theme title : string) :
  let w1 := snd (startConversation w) in
  let prompt := generatePrompt new_PromptGenerator theme title in
  exists r1 w2 r2 w3,
    handleUserInput theme w1 = (Return r1, w2)
    /\ handleUserInput title w2 = (Return r2, w3)
    /\ r_state r1 = ASKING_TITLE
    /\ r_nextStep r1 = Some "title"
    /\ r_prompt r1 = None
    /\ r_state r2 = GENERATING
    /\ r_theme r2 = Some theme
    /\ r_title r2 = Some title
    /\ r_prompt r2 = Some prompt
    /\ state (this w3) = GENERATING
    /\ currentTheme (this w3) = Some theme
    /\ currentTitle (this w3) = Some title
    /\ map m_type (messages (this w3)) = [system; user; system; user; ai]
    /\ map m_content (messages (this w3))
       = [welcome_text; theme; title_question; title; prompt_ready]
    /\ map m_prompt (messages (this w3)) = [None; None; None; None; Some prompt]
    /\ reads w3 = reads w + 10.
Proof.
  intros w1 prompt. subst w1. rewrite startConversation_run. cbn [snd].
  do 4 eexists.
  split; [apply handleUserInput_theme_run; reflexivity |].
  split; [apply handleUserInput_title_run; reflexivity |].
  cbn [r_state r_nextStep r_prompt r_theme r_title this state currentTheme
       currentTitle messages reads app map m_type m_content m_prompt stored
       mi_type mi_content mi_prompt user_message as_text].
  repeat split. lia.
Qed.

(** X19.  An answer for the title, given while the manager asks for it
    and holds a theme, both free of [$] and of opening braces, returns
    a prompt that is the template with its nine sites filled from the
    theme, the title and the three lists of the dynamic vocabulary
    (the catalog of the generator just built is not loaded yet, so the
    theme is never looked up); the theme and the title occur in it as
    typed, and the last message of the history carries it. *)
Theorem handleUserInput_title_prompt (w : World) (theme title : string) :
  state (this w) = ASKING_TITLE ->
  currentTheme (this w) = Some theme ->
  plain theme = true ->
  plain title = true ->
  exists r w' prompt question answer,
    handleUserInput title w = (Return r, w')
    /\ r_prompt r = Some prompt
    /\ prompt
       = filled theme title
           (formatVocabularies (generateDynamicVocabulary theme)) template_pieces
    /\ includes prompt theme = true
    /\ includes prompt title = true
    /\ includes prompt "rén 人, hái zi 孩子" = true
    /\ messages (this w') = (messages (this w) ++ [question; answer])%list
    /\ m_content question = title
    /\ m_type answer = ai
    /\ m_prompt answer = Some prompt.
Proof.
  intros St Th Pth Pti.
  pose proof (generatePrompt_filled new_VocabularyGenerator theme title
                Pth Pti eq_refl eq_refl eq_refl) as G.
  change (generator new_VocabularyGenerator) with new_PromptGenerator in G.
  change (generateVocabulary new_VocabularyGenerator theme)
    with (generateDynamicVocabulary theme) in G.
  pose proof (handleUserInput_title_run title w St) as R.
  cbn zeta in R. rewrite Th in R. cbn [as_text] in R.
  set (prompt := generatePrompt new_PromptGenerator theme title) in *.
  eexists _, _, prompt, (stored (user_message title) w),
    (stored {| mi_type := ai; mi_content := prompt_ready;
               mi_prompt := Some prompt |}
            (snd (addMessage (user_message title) w))).
  split; [exact R |]. split; [reflexivity |]. split; [exact G |].
  rewrite G. unfold filled. cbn [template_pieces map render content].
  split; [find_piece |]. split; [find_piece |]. split; [find_piece |].
  repeat split.
Qed.

(** X20.  [startNewCreation] does what [startConversation] alone does,
    whatever the manager held before: the manager asks for the theme,
    holds no theme and no title, and its history is the one welcome
    message, which is also the message returned.  The id of that
    message is the text of one reading of the clock and its timestamp
    the next reading. *)
Theorem startNewCreation_opens_fresh_dialogue (w : World) :
  exists m w',
    startNewCreation w
    = (Return {| sr_state := ASKING_THEME; sr_message := Some m |}, w')
    /\ startConversation w = startNewCreation w
    /\ this w'
       = {| state := ASKING_THEME; currentTheme := None; currentTitle := None;
            messages := [m] |}
    /\ m_type m = system
    /\ m_content m = welcome_text
    /\ m_prompt m = None
    /\ id m = Number_toString (clock w (reads w))
    /\ timestamp m = clock w (S (reads w))
    /\ clock w' = clock w
    /\ reads w' = reads w + 2.
Proof.
  assert (E : startNewCreation w = startConversation w) by reflexivity.
  rewrite E, startConversation_run. do 2 eexists. split; [reflexivity |].
  cbn [this clock reads m_type m_content m_prompt id timestamp stored
       mi_type mi_content mi_prompt].
  repeat split. lia.
Qed.

Lemma run_app (ops more : list operation) (w : World) :
  run (ops ++ more) w = run more (run ops w).
Proof.
  revert w. induction ops as [| o ops IH]; intros w; [reflexivity |].
  cbn [app run]. apply IH.
Qed.

(** X21.  Once the manager is in [IDLE] or [GENERATING], inputs no
    longer move it: after any number of them the state, the theme and
    the title are what they were, each input has been appended to the
    history (two clock readings each), and the next input is rejected
    with "Invalid conversation state" as well. *)
Theorem inputs_are_rejected_until_restart (inputs : list string) (w : World) :
  state (this w) = IDLE \/ state (this w) = GENERATING ->
  let w' := run (map Input inputs) w in
  state (this w') = state (this w)
  /\ currentTheme (this w') = currentTheme (this w)
  /\ currentTitle (this w') = currentTitle (this w)
  /\ map m_content (messages (this w'))
     = (map m_content (messages (this w)) ++ inputs)%list
  /\ map m_type (messages (this w'))
     = (map m_type (messages (this w)) ++ repeat user (List.length inputs))%list
  /\ reads w' = reads w + 2 * List.length inputs
  /\ forall input,
       fst (handleUserInput input w') = Throw (Error "Invalid conversation state").
Proof.
  revert w. induction inputs as [| i inputs IH]; intros w H; cbn zeta.
  - cbn [map run List.length repeat]. rewrite !app_nil_r.
    repeat split; [lia |].
    intros input. rewrite (handleUserInput_rejects input w H). reflexivity.
  - cbn [map run apply_operation]. rewrite (handleUserInput_rejects i w H).
    rewrite addMessage_run. cbn [snd].
    set (w1 := {| this := _; clock := clock w; reads := S (S (reads w)) |}).
    destruct (IH w1 H) as (S1 & T1 & U1 & C1 & Y1 & R1 & N1).
    rewrite S1, T1, U1, C1, Y1, R1. unfold w1.
    cbn [this state currentTheme currentTitle messages reads List.length repeat].
    rewrite !map_app, <- !app_assoc.
    repeat split; [lia | exact N1].
Qed.

Lemma apply_operation_coherent (o : operation) (w : World) :
  coherent (this w) -> coherent (this (apply_operation o w)).
Proof.
  intros C. destruct o as [| text | |]; cbn [apply_operation];
    try (split; reflexivity).
  unfold coherent in C. destruct (state (this w)) eqn:St.
  - rewrite (handleUserInput_rejects text w (or_introl St)), addMessage_run.
    unfold coherent. cbn [snd this state currentTheme currentTitle].
    rewrite St. exact C.
  - rewrite (handleUserInput_theme_run text w St). cbn [snd this].
    split; [discriminate | apply C].
  - rewrite (handleUserInput_title_run text w St). cbn [snd this].
    split; [apply C | discriminate].
  - rewrite (handleUserInput_rejects text w (or_intror St)), addMessage_run.
    unfold coherent. cbn [snd this state currentTheme currentTitle].
    rewrite St. exact C.
Qed.

(** X22.  A manager that holds what its step needs keeps doing so
    through every sequence of [startConversation], [handleUserInput],
    [reset] and [startNewCreation] calls: no theme and no title in
    [IDLE] and [ASKING_THEME], a theme and no title in [ASKING_TITLE], a
    theme and a title in [GENERATING].  A new manager is such a one, so
    the prompt is never generated from a missing theme. *)
Theorem manager_stays_coherent (ops : list operation) (w : World) :
  coherent (this w) -> coherent (this (run ops w)).
Proof.
  revert w. induction ops as [| o ops IH]; intros w C; [exact C |].
  cbn [run]. apply IH, apply_operation_coherent, C.
Qed.

Lemma replace_scan_inert (pat repl str seg : string) :
  no_overlap pat seg = true ->
  forall rest pos,
    replace_scan pat repl str 0 pos (seg ++ rest)
    = seg ++ replace_scan pat repl str 0 (pos + String.length seg) rest.
Proof.
  induction seg as [| c seg IH]; intros H rest pos.
  - cbn [append String.length]. rewrite Nat.add_0_r. reflexivity.
  - cbn [no_overlap] in H. apply andb_true_iff in H as [A N].
    apply negb_true_iff in A.
    cbn [append replace_scan String.length].
    change (String c (seg ++ rest)) with (String c seg ++ rest).
    rewrite (agree_false _ _ rest A), (IH N).
    replace (S pos + String.length seg) with (pos + S (String.length seg)) by lia.
    reflexivity.
Qed.

Lemma replace_g_keeps_prefix (pat repl seg s : string) :
  no_overlap pat seg = true ->
  startsWith s seg = true ->
  startsWith (replace_g pat repl s) seg = true.
Proof.
  intros N H. apply startsWith_spec in H as [rest ->].
  unfold replace_g. rewrite (replace_scan_inert _ _ _ _ N).
  apply startsWith_app.
Qed.

(** X23.  Whatever the catalog, the theme and the title are (texts with
    [$] or with placeholders in them too), the prompt begins with the
    text the template has before its first site; in particular it is
    never empty. *)
Theorem generatePrompt_keeps_opening
        (vg : VocabularyGenerator) (theme title : string) :
  startsWith (generatePrompt (generator vg) theme title) opening = true
  /\ generatePrompt (generator vg) theme title <> "".
Proof.
  assert (H : startsWith (generatePrompt (generator vg) theme title) opening = true).
  { unfold generatePrompt. cbn [pg_template generator].
    repeat (apply replace_g_keeps_prefix; [vm_compute; reflexivity |]).
    vm_compute. reflexivity. }
  split; [exact H |].
  apply startsWith_spec in H as [rest ->]. discriminate.
Qed.

End Dialogues.

(* ================================================================= *)
(** ** Properties of the catalog functions of the controller *)

Section CatalogViews.
Import JSString JSObject Business Lookup Controller Dialogue.

Lemma entries_in (A : Type) (o : JSObject.t A) (kv : string * A) :
  In kv (entries o) <-> In kv o.
Proof.
  destruct (entries_order o) as (indexed & E & _ & I). rewrite E.
  rewrite in_app_iff, in_map_iff, filter_In. split.
  - intros [([i kv'] & <- & H) | [H _]]; [apply I in H; apply H | exact H].
  - intros H. destruct (array_index (fst kv)) as [i |] eqn:X.
    + left. exists (i, kv). split; [reflexivity | apply I; split; assumption].
    + right. split; [exact H | unfold named; rewrite X; reflexivity].
Qed.

Lemma insert_by_index_perm (A : Type) (i : N) (kv : string * A)
      (l : list (N * (string * A))) :
  Permutation (insert_by_index i kv l) ((i, kv) :: l).
Proof.
  induction l as [| [j kv'] l IH]; cbn [insert_by_index]; [reflexivity |].
  destruct (i <? j)%N; [reflexivity |].
  rewrite IH. apply perm_swap.
Qed.

Lemma entries_perm (A : Type) (o : JSObject.t A) : Permutation (entries o) o.
Proof.
  unfold entries. induction o as [| kv o IH]; [reflexivity |].
  cbn [index_keys name_keys]. destruct (array_index (fst kv)) as [i |].
  - rewrite insert_by_index_perm. cbn [map snd]. constructor. exact IH.
  - apply Permutation_sym, Permutation_cons_app, Permutation_sym, IH.
Qed.

Lemma occurs_in_refl (s : string) : occurs_in s s.
Proof.
  exists EmptyString, EmptyString. cbn [append].
  induction s as [| c s IH]; [reflexivity | cbn [append]; rewrite <- IH; reflexivity].
Qed.

Lemma occurs_in_empty (s : string) : occurs_in EmptyString s.
Proof. exists EmptyString, s. reflexivity. Qed.

Lemma first_such_in (P : Theme -> Prop) (es : list (string * Theme)) (th : Theme) :
  first_such P es th -> P th /\ exists k, In (k, th) es.
Proof.
  intros (before & k & after & -> & H & _). split; [exact H |].
  exists k. apply in_elt.
Qed.

(** X24.  [handleThemeSelection] finds nothing while the catalog is not
    loaded; on a loaded catalog it finds nothing exactly when no theme
    has a display name that contains the query or is contained in it.
    What it returns carries the query as typed under [theme], and the
    titles and vocabularies of a theme of the catalog related to the
    query.  The empty query is related to every name, so it selects a
    theme whenever the catalog has one. *)
Theorem handleThemeSelection_finds_related (catalog : Catalog) (query : string) :
  handleThemeSelection new_VocabularyGenerator query = None
  /\ (handleThemeSelection (loaded catalog) query = None
      <-> forall k th, In (k, th) catalog -> ~ related (name th) query)
  /\ (forall sel,
         handleThemeSelection (loaded catalog) query = Some sel ->
         ts_theme sel = query
         /\ exists k th,
              In (k, th) catalog
              /\ related (name th) query
              /\ ts_titles sel = titles th
              /\ ts_vocabularies sel = vocabularies th)
  /\ (catalog <> [] -> handleThemeSelection (loaded catalog) "" <> None).
Proof.
  assert (Found : forall q th,
             getThemeByName (loaded catalog) q = Some th ->
             related (name th) q /\ exists k, In (k, th) catalog).
  { intros q th. unfold getThemeByName. cbn [themes loaded].
    pose proof (find_exact_spec (entries catalog) q) as X.
    pose proof (find_fuzzy_spec (entries catalog) q) as F.
    destruct (find_exact (entries catalog) q) as [t |].
    - intros E. injection E as ->. apply first_such_in in X as [N [k I]].
      split; [left; rewrite N; apply occurs_in_refl |].
      exists k. apply entries_in, I.
    - intros E. rewrite E in F. apply first_such_in in F as [R [k I]].
      split; [exact R | exists k; apply entries_in, I]. }
  assert (Missing : forall q,
             getThemeByName (loaded catalog) q = None ->
             forall k th, In (k, th) catalog -> ~ related (name th) q).
  { intros q. unfold getThemeByName. cbn [themes loaded].
    pose proof (find_fuzzy_spec (entries catalog) q) as F.
    destruct (find_exact (entries catalog) q) as [t |]; [discriminate |].
    intros E. rewrite E in F. intros k th I.
    rewrite Forall_forall in F. apply (F (k, th)), entries_in, I. }
  split; [reflexivity |]. unfold handleThemeSelection.
  split; [| split].
  - destruct (getThemeByName (loaded catalog) query) as [th |] eqn:G.
    + split; [discriminate |]. intros N. exfalso.
      destruct (Found _ _ G) as [R [k I]]. exact (N k th I R).
    + split; [intros _; apply Missing, G | reflexivity].
  - intros sel. destruct (getThemeByName (loaded catalog) query) as [th |] eqn:G;
      [| discriminate].
    intros E. injection E as <-. cbn [ts_theme ts_titles ts_vocabularies].
    split; [reflexivity |].
    destruct (Found _ _ G) as [R [k I]]. exists k, th. repeat split; assumption.
  - intros NE. destruct catalog as [| [k th] rest]; [contradiction |].
    destruct (getThemeByName (loaded ((k, th) :: rest)) "") as [t |] eqn:G;
      [discriminate |].
    exfalso. apply (Missing _ G k th); [left; reflexivity |].
    left. apply occurs_in_empty.
Qed.

Lemma listed_perm (a b : Catalog) :
  Permutation a b -> Permutation (listed a) (listed b).
Proof. apply Permutation_map. Qed.

(** X25.  [getAvailableThemes] lists nothing while the catalog is not
    loaded.  On a loaded catalog it lists every theme once, with its
    identifier, display name, icon and titles: the list is a
    rearrangement of the catalog, as long as the catalog, and in the
    catalog's own order when no identifier is an array index. *)
Theorem getAvailableThemes_lists_every_theme (catalog : Catalog) :
  getAvailableThemes new_VocabularyGenerator = []
  /\ Permutation (getAvailableThemes (loaded catalog)) (listed catalog)
  /\ List.length (getAvailableThemes (loaded catalog)) = List.length catalog
  /\ (Forall (fun kv => array_index (fst kv) = None) catalog ->
      getAvailableThemes (loaded catalog) = listed catalog).
Proof.
  split; [reflexivity |].
  change (getAvailableThemes (loaded catalog)) with (listed (entries catalog)).
  split; [apply listed_perm, entries_perm |].
  split.
  - unfold listed. rewrite length_map.
    apply Permutation_length, entries_perm.
  - intros H. rewrite (entries_without_index _ _ H). reflexivity.
Qed.

End CatalogViews.


(* ================================================================= *)
(** ** Properties of the controller's image generation *)

Section ControllerRuns.
Import JSString Business Api Scenario Polls Controller Dialogue.



End ControllerRuns.

Section DialogueExamples.
Import JSString Business Session Template Controller Dialogue.

Lemma ticking_advances : advancing ticking.
Proof. intros i j H. unfold ticking. lia. Qed.

Lemma ids_distinct_while_clock_advances_witness :
  advancing (clock ticking_session)
  /\ ids_from_clock ticking_session
  /\ NoDup (map id (messages (this (run [Start; Input "超市"; Input "走进超市";
                                         Input "公园"; NewCreation; Input "医院"]
                                        ticking_session)))).
Proof.
  assert (I : ids_from_clock ticking_session)
    by (exists []; repeat split; constructor).
  split; [apply ticking_advances |]. split; [exact I |].
  apply (ids_distinct_while_clock_advances _ ticking_session ticking_advances I).
Defined.

Lemma handleUserInput_title_prompt_witness :
  state (this asking_title) = ASKING_TITLE
  /\ currentTheme (this asking_title) = Some "超市"
  /\ plain "超市" = true
  /\ plain "走进超市" = true
  /\ exists r prompt,
       fst (handleUserInput "走进超市" asking_title) = Return r
       /\ r_prompt r = Some prompt
       /\ includes prompt "超市" = true
       /\ includes prompt "走进超市" = true.
Proof.
  repeat (split; [reflexivity |]).
  destruct (handleUserInput_title_prompt asking_title "超市" "走进超市"
              eq_refl eq_refl eq_refl eq_refl)
    as (r & w' & prompt & q & a & E & P & _ & I1 & I2 & _).
  exists r, prompt. rewrite E. repeat split; assumption.
Defined.

Lemma inputs_are_rejected_until_restart_witness :
  (state (this idle_world) = IDLE \/ state (this idle_world) = GENERATING)
  /\ map m_content (messages (this (run [Input "超市"; Input "公园"] idle_world)))
     = ["超市"; "公园"]
  /\ state (this (run [Input "超市"; Input "公园"] idle_world)) = IDLE.
Proof.
  split; [left; reflexivity |].
  destruct (inputs_are_rejected_until_restart ["超市"; "公园"] idle_world
              (or_introl eq_refl))
    as (S1 & _ & _ & C1 & _).
  split; [exact C1 | exact S1].
Defined.

Lemma manager_stays_coherent_witness :
  coherent (this idle_world)
  /\ coherent (this (run [Start; Input "超市"; Input "走进超市"; Input "公园";
                          NewCreation; Input "医院"] idle_world)).
Proof.
  assert (C : coherent (this idle_world)) by (split; reflexivity).
  split; [exact C |].
  apply (manager_stays_coherent _ idle_world C).
Defined.

End DialogueExamples.
